(** * A Sudoku solver by arc consistency and domain splitting

    Shallow embedding of [sudoku_A2_45.py]: the all-different constraint
    model, the arc-consistency propagator ([Solver.make_arc_consistent]),
    the domain-splitting search ([Solver.solve_recursive_ds]) and the puzzle
    adapter ([Sudoku]).  Python dictionaries are [gmap]s, Python sets are
    finite sets ([gset] for values, [listset_nodup] for arcs and
    constraints) together with an iteration order ([HashOrder]), exceptions
    are values of [outcome], and the two unbounded loops take a fuel
    argument. *)

From stdpp Require Import base gmap sets list listset_nodup.

(** ** Python effects *)

(** The exceptions the modelled code can raise. *)
Inductive exn := KeyError | ValueError | TypeError | AttributeError | IndexError.

(** The result of running a piece of code: a value, an exception, or
    [Timeout] when the fuel given to a loop ran out. *)
Inductive outcome (A : Type) : Type :=
| Ret (a : A)
| Raise (e : exn)
| Timeout.
Arguments Ret {A} a.
Arguments Raise {A} e.
Arguments Timeout {A}.

#[export] Instance outcome_ret : MRet outcome := λ A a, Ret a.
#[export] Instance outcome_bind : MBind outcome := λ A B f m,
  match m with
  | Ret a => f a
  | Raise e => Raise e
  | Timeout => Timeout
  end.
#[export] Instance outcome_fmap : FMap outcome := λ A B f m,
  match m with
  | Ret a => Ret (f a)
  | Raise e => Raise e
  | Timeout => Timeout
  end.

(** [d[k]] on a dictionary: [KeyError] when the key is absent. *)
Definition getitem `{Countable K} {V} (m : gmap K V) (k : K) : outcome V :=
  match m !! k with
  | Some v => Ret v
  | None => Raise KeyError
  end.

(** [all(f(x) for x in l)] and [any(f(x) for x in l)]: both stop at the first
    deciding element, and an exception raised before it propagates. *)
Fixpoint py_all {A} (f : A → outcome bool) (l : list A) : outcome bool :=
  match l with
  | [] => Ret true
  | x :: l => b ← f x; if b : bool then py_all f l else Ret false
  end.

Fixpoint py_any {A} (f : A → outcome bool) (l : list A) : outcome bool :=
  match l with
  | [] => Ret false
  | x :: l => b ← f x; if b : bool then Ret true else py_any f l
  end.

(** A [for] loop whose body updates a state and may raise. *)
Fixpoint py_for {A S} (body : S → A → outcome S) (l : list A) (s : S) : outcome S :=
  match l with
  | [] => Ret s
  | x :: l => s ← body s x; py_for body l s
  end.

(** [[f(x) for x in l]] where [f] may raise. *)
Fixpoint py_map {A B} (f : A → outcome B) (l : list A) : outcome (list B) :=
  match l with
  | [] => Ret []
  | x :: l => y ← f x; ys ← py_map f l; Ret (y :: ys)
  end.

(** [[x for x in l if f(x)]] where [f] may raise. *)
Fixpoint py_filter {A} (f : A → outcome bool) (l : list A) : outcome (list A) :=
  match l with
  | [] => Ret []
  | x :: l => b ← f x; xs ← py_filter f l; Ret (if b : bool then x :: xs else xs)
  end.

(** [min(l)]: [ValueError] on an empty sequence. *)
Definition py_min (l : list nat) : outcome nat :=
  match l with
  | [] => Raise ValueError
  | x :: l => Ret (foldl Nat.min x l)
  end.

(** The order in which a Python [set] is iterated (and from which [pop]
    takes its element) is fixed by the hash table and is not specified by the
    language.  It is a parameter of the model: any enumeration of the
    elements. *)
Class HashOrder := {
  set_iter : ∀ A C `{Elements A C}, C → list A;
  set_iter_perm : ∀ A C `{Elements A C} (s : C), set_iter A C s ≡ₚ elements s
}.
Arguments set_iter {_ _ _ _} s.
Arguments set_iter_perm {_ _ _ _} s.

(** One such order, used to run the model on concrete inputs. *)
Definition elements_order : HashOrder :=
  {| set_iter := λ A C _ s, elements s;
     set_iter_perm := λ A C _ s, reflexivity (elements s) |}.

(** Sets of objects (arcs, constraints) are kept as duplicate-free lists;
    sets of integers and of positions are [gset]s. *)
Abbreviation pyset := listset_nodup.

(** Truth value of a set: non-empty. *)
Definition set_truthy `{Elements A C} (s : C) : bool :=
  match elements s with
  | [] => false
  | _ :: _ => true
  end.

(** ** Data model *)

(** A variable is a grid position [(row, col)]. *)
Abbreviation var := (nat * nat)%type.

(** A domain is a Python [list] (as [Sudoku.__init__] builds it) or a Python
    [set] (as [make_arc_consistent] and [partition_domain] build it). *)
Inductive domain :=
| DList (l : list Z)
| DSet (s : gset Z).

#[export] Instance domain_eq_dec : EqDecision domain.
Proof. solve_decision. Defined.

(** [for val in dom]. *)
Definition dom_iter `{!HashOrder} (d : domain) : list Z :=
  match d with
  | DList l => l
  | DSet s => set_iter s
  end.

(** [len(dom)]. *)
Definition dom_len (d : domain) : nat :=
  match d with
  | DList l => length l
  | DSet s => size s
  end.

(** [a != b]: a set and a list are never equal. *)
Definition dom_ne (a b : domain) : bool :=
  match a, b with
  | DSet s, DSet t => bool_decide (s ≠ t)
  | DList l, DList m => bool_decide (l ≠ m)
  | _, _ => true
  end.

(** [is_all_unique(assignment, positions)]. *)
Definition is_all_unique (assignment : gmap var Z) (positions : list var) : outcome bool :=
  py_all (λ '(p1, p2),
            v1 ← getitem assignment p1;
            v2 ← getitem assignment p2;
            Ret (bool_decide (v1 ≠ v2)))
         (p1 ← positions; p2 ← positions; if decide (p1 ≠ p2) then [(p1, p2)] else []).

Definition row_to_indices (row : nat) : list var := (λ col, (row, col)) <$> seq 0 9.

Definition col_to_indices (col : nat) : list var := (λ row, (row, col)) <$> seq 0 9.

Definition box_to_indices (box : nat) : list var :=
  let start_row := (box `div` 3) * 3 in
  let start_col := (box `mod` 3) * 3 in
  row ← seq start_row 3; col ← seq start_col 3; [(row, col)].

(** The function objects stored in [Constraint.condition]; [is_all_unique] is
    the only one the program ever stores. *)
Inductive condition_fn := is_all_unique_fn.

(** A [Constraint] object.  Python compares and hashes these objects by
    identity; [cid] stands for that identity. *)
Record Constraint := {
  cid : nat;
  scope : list var;
  condition : condition_fn
}.

#[export] Instance condition_fn_eq_dec : EqDecision condition_fn.
Proof. solve_decision. Defined.
#[export] Instance Constraint_eq_dec : EqDecision Constraint.
Proof. solve_decision. Defined.
#[export] Instance Constraint_countable : Countable Constraint.
Proof.
  refine (inj_countable' (λ c, (cid c, scope c))
            (λ p, {| cid := p.1; scope := p.2; condition := is_all_unique_fn |}) _).
  by intros [? ? []].
Defined.

Definition apply_condition (f : condition_fn) : gmap var Z → list var → outcome bool :=
  match f with
  | is_all_unique_fn => is_all_unique
  end.

(** [Constraint.holds]. *)
Definition holds (c : Constraint) (assignment : gmap var Z) : outcome bool :=
  apply_condition (condition c) assignment (scope c).

(** An arc of the work queue. *)
Abbreviation arc := (var * Constraint)%type.

Record CSP := {
  variables : gset var;
  domains : gmap var domain;
  constraints : list Constraint;
  var_to_const : gmap var (pyset Constraint)
}.

(** [CSP.__init__]: registering a constraint against a variable that is not a
    key of [domains] raises [KeyError]. *)
Definition CSP_init (domains : gmap var domain) (constraints : list Constraint) : outcome CSP :=
  let variables := dom domains in
  v2c ← py_for (λ m con,
                  py_for (λ m var,
                            s ← getitem m var;
                            Ret (<[var := s ∪ {[con]}]> m))
                         (scope con) m)
               constraints (gset_to_gmap (∅ : pyset Constraint) variables);
  Ret {| variables := variables; domains := domains;
         constraints := constraints; var_to_const := v2c |}.

(** ** The solver *)

Section solver.
Context `{!HashOrder}.

(** [Solver.new_to_do]; [const] is [None] at the call of the search. *)
Definition new_to_do (csp : CSP) (v : var) (const : option Constraint) : outcome (pyset arc) :=
  cs ← getitem (var_to_const csp) v;
  Ret (list_to_set
         (nconst ← filter (λ nconst, Some nconst ≠ const) (set_iter cs);
          nvar ← filter (λ nvar, nvar ≠ v) (scope nconst);
          [(nvar, nconst)])).

(** [Solver.select_arc]: [to_do.pop()] returns an element and removes it from
    the set; on an empty set it raises [KeyError]. *)
Definition select_arc (to_do : pyset arc) : outcome (arc * pyset arc) :=
  match set_iter to_do with
  | [] => Raise KeyError
  | a :: _ => Ret (a, to_do ∖ {[a]})
  end.

(** The [for val in domains[var]] loop of [any_holds]; [recurse] is the
    recursive call [any_holds(domains, const, env, other_vars, ind + 1, [var]
    + assigned_vars)].  The dictionary [env] is updated in place by the source
    and shared by all the recursive calls: it is threaded through and
    returned. *)
Fixpoint any_holds_loop (v : var) (assigned_vars : list var)
    (recurse : gmap var Z → outcome (bool * gmap var Z))
    (vals : list Z) (env : gmap var Z) : outcome (bool * gmap var Z) :=
  match vals with
  | [] => Ret (false, env)
  | val :: vals =>
      let env := <[v := val]> env in
      u ← is_all_unique env (v :: assigned_vars);
      if u : bool then
        '(found, env) ← recurse env;
        if found : bool then Ret (true, env)
        else any_holds_loop v assigned_vars recurse vals env
      else any_holds_loop v assigned_vars recurse vals env
  end.

(** [Solver.any_holds].  [rest] is [other_vars[ind:]], so that [rest = []]
    is [ind == len(other_vars)] and the head of [rest] is [other_vars[ind]]. *)
Fixpoint any_holds (domains : gmap var domain) (const : Constraint)
    (env : gmap var Z) (rest : list var) (assigned_vars : list var)
    : outcome (bool * gmap var Z) :=
  match rest with
  | [] => b ← holds const env; Ret (b, env)
  | v :: rest =>
      d ← getitem domains v;
      any_holds_loop v assigned_vars
        (λ env, any_holds domains const env rest (v :: assigned_vars))
        (dom_iter d) env
  end.

(** [other_vars] of [make_arc_consistent]: the scope without [v]. *)
Definition other_vars (v : var) (const : Constraint) : list var :=
  filter (λ ov, ov ≠ v) (scope const).

(** The revise step of [make_arc_consistent]: the new domain of [v] against
    [const]. *)
Definition revise (domains : gmap var domain) (v : var) (const : Constraint) : outcome domain :=
  d ← getitem domains v;
  kept ← py_filter (λ val, '(found, _) ← any_holds domains const {[v := val]} (other_vars v const) [];
                           Ret found)
                   (dom_iter d);
  Ret (DSet (list_to_set kept)).

(** The [while to_do] loop of [make_arc_consistent]. *)
Fixpoint arc_loop (fuel : nat) (csp : CSP) (domains : gmap var domain) (to_do : pyset arc)
    : outcome (gmap var domain) :=
  match fuel with
  | O => Timeout
  | S fuel =>
      if negb (set_truthy to_do) then Ret domains
      else
        '((v, const), to_do) ← select_arc to_do;
        new_domain ← revise domains v const;
        d ← getitem domains v;
        if dom_ne new_domain d then
          let domains := <[v := new_domain]> domains in
          nt ← new_to_do csp v (Some const);
          let add_to_do := nt ∖ to_do in
          arc_loop fuel csp domains (to_do ∪ add_to_do)
        else arc_loop fuel csp domains to_do
  end.

(** [Solver.make_arc_consistent]. *)
Definition make_arc_consistent (fuel : nat) (csp : CSP)
    (orig_domains : option (gmap var domain)) (to_do : option (pyset arc))
    : outcome (gmap var domain) :=
  let orig_domains := default (domains csp) orig_domains in
  let to_do :=
    match to_do with
    | None => list_to_set (const ← constraints csp; v ← scope const; [(v, const)])
    | Some to_do => to_do
    end in
  arc_loop fuel csp orig_domains to_do.

(** [Solver.select_first]: the first item, or Python's [None]. *)
Definition select_first {A} (iterables : list A) : option A := head iterables.

(** [Solver.select_most_constrained_var] on the generator the search passes.
    [iterables] lists the items the generator has yet to yield.  The list
    comprehension takes the first item; its filter then runs [min] over the
    same generator, which consumes every remaining item; the comprehension
    finds the generator exhausted and stops. *)
Definition select_most_constrained_var (csp : CSP) (iterables : list var) : outcome (option var) :=
  match iterables with
  | [] => Ret (select_first [])
  | v :: rest =>
      d ← getitem (domains csp) v;
      lens ← py_map (λ i, dom_len <$> getitem (domains csp) i) rest;
      m ← py_min lens;
      Ret (select_first (if decide (dom_len d = m) then [v] else []))
  end.

(** [Solver.partition_domain]: [dom - dom1] is defined on sets only. *)
Definition partition_domain (dom : domain) : outcome (domain * domain) :=
  let split := dom_len dom `div` 2 in
  let dom1 : gset Z := list_to_set (take split (dom_iter dom)) in
  match dom with
  | DSet s => Ret (DSet dom1, DSet (s ∖ dom1))
  | DList _ => Raise TypeError
  end.

(** [Solver.copy_with_assign]. *)
Definition copy_with_assign (domains : gmap var domain) (v : option var) (new_domain : domain)
    : gmap var domain :=
  match v with
  | Some v => <[v := new_domain]> domains
  | None => domains
  end.

(** What [solve_recursive_ds] returns: [False], a dictionary, or [None]
    (when the function falls off its end). *)
Inductive answer :=
| AFalse
| ANone
| ADict (a : gmap var (option Z)).

(** Truth value of an answer, as [or] tests it. *)
Definition truthy (a : answer) : bool :=
  match a with
  | ADict a => bool_decide (a ≠ ∅)
  | _ => false
  end.

(** [Solver.solve_recursive_ds]. *)
Fixpoint solve_recursive_ds (fuel : nat) (csp : CSP)
    (doms : option (gmap var domain)) (to_do : option (pyset arc)) : outcome answer :=
  match fuel with
  | O => Timeout
  | S fuel =>
      let doms := default (domains csp) doms in
      new_domains ← make_arc_consistent fuel csp (Some doms) to_do;
      let keys := (map_to_list doms).*1 in
      some_empty ← py_any (λ v, d ← getitem new_domains v; Ret (bool_decide (dom_len d = 0))) keys;
      if some_empty : bool then Ret AFalse
      else
        all_single ← py_all (λ v, d ← getitem new_domains v; Ret (bool_decide (dom_len d = 1))) keys;
        if all_single : bool then
          items ← py_map (λ v, d ← getitem new_domains v; Ret (v, select_first (dom_iter d))) keys;
          Ret (ADict (list_to_map items))
        else
          gen ← py_filter (λ x, d ← getitem new_domains x; Ret (bool_decide (1 < dom_len d)))
                          (set_iter (variables csp));
          sel ← select_most_constrained_var csp gen;
          match sel with
          | Some v =>
              d ← getitem new_domains v;
              '(dom1, dom2) ← partition_domain d;
              let new_dom1 := copy_with_assign new_domains (Some v) dom1 in
              let new_dom2 := copy_with_assign new_domains (Some v) dom2 in
              to_do ← new_to_do csp v None;
              r1 ← solve_recursive_ds fuel csp (Some new_dom1) (Some to_do);
              if truthy r1 then Ret r1
              else solve_recursive_ds fuel csp (Some new_dom2) (Some to_do)
          | None => Ret ANone
          end
  end.

End solver.

(** ** The puzzle adapter *)

Module Sudoku.

(** A grid cell as it is stored in [ans]: an integer, or Python's [None]. *)
Abbreviation cell := (option Z).

Record Sudoku := {
  puzzle : list (list Z);
  ans : list (list cell);
  domains : gmap var domain;
  constraints : list Constraint;
  csp : CSP
}.

(** The positions [(r, c)] of a grid with the value stored there, row by
    row: [r] ranges over [range(len(puzzle))] and [c] over
    [range(len(puzzle[r]))]. *)
Definition positions (puzzle : list (list Z)) : list (var * Z) :=
  mjoin (imap (λ r row, imap (λ c x, ((r, c), x)) row) puzzle).

(** [self.domains] as [Sudoku.__init__] builds it: [[1..9]] for every
    position, then [[puzzle[i][j]]] where the puzzle has a non-zero value. *)
Definition init_domains (puzzle : list (list Z)) : gmap var domain :=
  let domains : gmap var domain :=
    list_to_map ((λ px : var * Z, (px.1, DList (seqZ 1 9))) <$> positions puzzle) in
  foldl (λ domains (px : var * Z),
           if decide (px.2 ≠ 0%Z) then <[px.1 := DList [px.2]]> domains else domains)
        domains (positions puzzle).

(** [self.constraints]: 9 rows, 9 columns, 9 boxes, in this order. *)
Definition init_constraints : list Constraint :=
  ((λ i, {| cid := i; scope := (λ j : nat, (i, j)) <$> seq 0 9; condition := is_all_unique_fn |})
     <$> seq 0 9)
  ++ ((λ j, {| cid := 9 + j; scope := (λ i : nat, (i, j)) <$> seq 0 9;
               condition := is_all_unique_fn |})
        <$> seq 0 9)
  ++ ((λ q, {| cid := 18 + q; scope := box_to_indices q; condition := is_all_unique_fn |})
        <$> seq 0 9).

(** [Sudoku.__init__]. *)
Definition init (puzzle : list (list Z)) : outcome Sudoku :=
  let ans : list (list cell) := (λ row : list Z, Some <$> row) <$> puzzle in
  let domains := init_domains puzzle in
  let constraints := init_constraints in
  csp ← CSP_init domains constraints;
  Ret {| puzzle := puzzle; ans := ans; domains := domains;
         constraints := constraints; csp := csp |}.

(** [ans[r][c] = val]: [IndexError] when [r] or [c] is out of range. *)
Definition setitem2 (ans : list (list cell)) (r c : nat) (val : cell) : outcome (list (list cell)) :=
  match ans !! r with
  | None => Raise IndexError
  | Some row =>
      if decide (c < length row) then Ret (<[r := <[c := val]> row]> ans)
      else Raise IndexError
  end.

(** [Sudoku.solve]: the value returned, which is also stored in [self.ans].
    [solutions.items()] exists on a dictionary only. *)
Definition solve `{!HashOrder} (fuel : nat) (self : Sudoku) : outcome (list (list cell)) :=
  solutions ← solve_recursive_ds fuel (csp self) None None;
  let ans := replicate 10 (replicate 10 (Some 0%Z)) in
  match solutions with
  | ADict sol => py_for (λ ans pv, setitem2 ans pv.1.1 pv.1.2 pv.2) (map_to_list sol) ans
  | AFalse | ANone => Raise AttributeError
  end.

(** The program's [main], from the parsed grid on: build, then solve. *)
Definition run `{!HashOrder} (fuel : nat) (puzzle : list (list Z)) : outcome (list (list cell)) :=
  sudoku ← init puzzle;
  solve fuel sudoku.

End Sudoku.

(** ** Vocabulary of the specification *)

(** The values of a domain, whichever container holds them. *)
Definition dom_vals (d : domain) : gset Z :=
  match d with
  | DList l => list_to_set l
  | DSet s => s
  end.

(** [y] is a candidate value of [u] in the domain map [D]. *)
Definition in_dom (D : gmap var domain) (u : var) (y : Z) : Prop :=
  ∃ d, D !! u = Some d ∧ y ∈ dom_vals d.

(** The all-different relation on the listed positions. *)
Definition all_diff (a : gmap var Z) (ps : list var) : Prop :=
  ∀ p1 p2, p1 ∈ ps → p2 ∈ ps → p1 ≠ p2 → a !! p1 ≠ a !! p2.

#[export] Instance all_diff_dec a ps : Decision (all_diff a ps).
Proof.
  refine (cast_if (decide (Forall (λ p1, Forall (λ p2, p1 ≠ p2 → a !! p1 ≠ a !! p2) ps) ps)));
    abstract (unfold all_diff; rewrite Forall_forall in *;
              repeat setoid_rewrite Forall_forall in f;
              repeat setoid_rewrite Forall_forall in n; naive_solver).
Defined.

(** What the enumeration of [any_holds] looks for: values for the variables
    of [rest], one after the other, each from its domain, that make the
    constraint hold. *)
Fixpoint supp (D : gmap var domain) (c : Constraint) (env : gmap var Z) (rest : list var) : Prop :=
  match rest with
  | [] => all_diff env (scope c)
  | u :: rest => ∃ y, in_dom D u y ∧ supp D c (<[u := y]> env) rest
  end.

(** The value [x] of [v] has a support in [c]: an assignment that gives [x]
    to [v], a candidate value to every other variable of the scope, and
    satisfies the constraint. *)
Definition supported (D : gmap var domain) (c : Constraint) (v : var) (x : Z) : Prop :=
  ∃ f : gmap var Z,
    f !! v = Some x
    ∧ (∀ u, u ∈ scope c → u ≠ v → ∃ y, f !! u = Some y ∧ in_dom D u y)
    ∧ all_diff f (scope c).

(** An environment extended with a combination of values, one per variable
    of [us], written in order as [env[u] = y]. *)
Definition extend (env : gmap var Z) (us : list var) (ys : list Z) : gmap var Z :=
  foldl (λ e uy, <[uy.1 := uy.2]> e) env (zip us ys).

(** A domain that was kept, or replaced by a set of some of its values. *)
Definition dom_le (d' d : domain) : Prop :=
  d' = d ∨ ∃ s', d' = DSet s' ∧ s' ⊆ dom_vals d.

(** [D'] has the keys of [D] and smaller domains. *)
Definition shrinks (D D' : gmap var domain) : Prop :=
  ∀ v, match D' !! v with
       | Some d' => ∃ d, D !! v = Some d ∧ dom_le d' d
       | None => D !! v = None
       end.

(** The measure that decreases whenever a domain is replaced: a list counts
    one more than its length, so that turning it into a set decreases it. *)
Definition weight (d : domain) : nat :=
  match d with
  | DList l => S (length l)
  | DSet s => size s
  end.

Definition mu (D : gmap var domain) : nat := sum_list (weight <$> (map_to_list D).*2).

(** Every arc that [new_to_do] can produce. *)
Definition all_new (csp : CSP) : pyset arc :=
  list_to_set (vcs ← map_to_list (var_to_const csp);
               c ← elements vcs.2; n ← scope c; [(n, c)]).

(** The arcs of a CSP: the initial work queue of [make_arc_consistent]. *)
Definition csp_arcs (csp : CSP) : list arc :=
  const ← constraints csp; v ← scope const; [(v, const)].

(** The work queue [make_arc_consistent] starts from. *)
Definition queue (csp : CSP) (to_do : option (pyset arc)) : pyset arc :=
  match to_do with
  | None => list_to_set (csp_arcs csp)
  | Some t => t
  end.

(** A CSP as [CSP.__init__] builds it, with scopes free of repetitions,
    together with a domain map that has a domain for every variable of every
    scope. *)
Record csp_ok (csp : CSP) (D : gmap var domain) : Prop := {
  ok_scope_dom : ∀ c u, c ∈ constraints csp → u ∈ scope c → is_Some (D !! u);
  ok_nodup : ∀ c, c ∈ constraints csp → NoDup (scope c);
  ok_v2c_some : ∀ c u, c ∈ constraints csp → u ∈ scope c → is_Some (var_to_const csp !! u);
  ok_v2c_iff : ∀ u cs, var_to_const csp !! u = Some cs →
    ∀ c, c ∈ cs ↔ c ∈ constraints csp ∧ u ∈ scope c
}.

(** The shape of the CSP of a puzzle: every variable lies in a scope of nine
    variables, the values are digits, and the domains the CSP was built with
    hold one value or nine. *)
Record sudoku_like (csp : CSP) : Prop := {
  sl_vars : variables csp = dom (domains csp);
  sl_cover : ∀ v, v ∈ dom (domains csp) →
    ∃ c, c ∈ constraints csp ∧ v ∈ scope c ∧ length (scope c) = 9;
  sl_digits : ∀ v x, in_dom (domains csp) v x → (1 ≤ x ≤ 9)%Z;
  sl_len : ∀ v d, domains csp !! v = Some d → dom_len d = 1 ∨ dom_len d = 9
}.

(** An arc is consistent when every value of its variable has a support in
    its constraint; it is settled when, moreover, the domain is a set. *)
Definition arc_cons (D : gmap var domain) (a : arc) : Prop :=
  ∀ x, in_dom D a.1 x → supported D a.2 a.1 x.

Definition settled (D : gmap var domain) (a : arc) : Prop :=
  (∃ s, D !! a.1 = Some (DSet s)) ∧ arc_cons D a.

(** What a returned dictionary is: one integer per variable, taken from its
    domain, with all constraints satisfied. *)
Definition is_solution (csp : CSP) (D : gmap var domain) (a : gmap var (option Z)) : Prop :=
  dom a = dom D
  ∧ (∀ v, v ∈ dom D → ∃ x, a !! v = Some (Some x) ∧ in_dom D v x)
  ∧ (∀ c p1 p2, c ∈ constraints csp → p1 ∈ scope c → p2 ∈ scope c → p1 ≠ p2 →
       a !! p1 ≠ a !! p2).

(** The body of [solve_recursive_ds] after propagation, with the two
    recursive calls abstracted as [recurse]; [solve_recursive_ds_unfold]
    states that this is what the function runs. *)
Definition solve_rest `{!HashOrder} (recurse : gmap var domain → pyset arc → outcome answer)
    (csp : CSP) (doms new_domains : gmap var domain) : outcome answer :=
  let keys := (map_to_list doms).*1 in
  some_empty ← py_any (λ v, d ← getitem new_domains v; Ret (bool_decide (dom_len d = 0))) keys;
  if some_empty : bool then Ret AFalse
  else
    all_single ← py_all (λ v, d ← getitem new_domains v; Ret (bool_decide (dom_len d = 1))) keys;
    if all_single : bool then
      items ← py_map (λ v, d ← getitem new_domains v; Ret (v, select_first (dom_iter d))) keys;
      Ret (ADict (list_to_map items))
    else
      gen ← py_filter (λ x, d ← getitem new_domains x; Ret (bool_decide (1 < dom_len d)))
                      (set_iter (variables csp));
      sel ← select_most_constrained_var csp gen;
      match sel with
      | Some v =>
          d ← getitem new_domains v;
          '(dom1, dom2) ← partition_domain d;
          let new_dom1 := copy_with_assign new_domains (Some v) dom1 in
          let new_dom2 := copy_with_assign new_domains (Some v) dom2 in
          to_do ← new_to_do csp v None;
          r1 ← recurse new_dom1 to_do;
          if truthy r1 then Ret r1 else recurse new_dom2 to_do
      | None => Ret ANone
      end.

(** The input contract of the adapter: a 9 by 9 grid of integers in [0,9]. *)
Definition wf_puzzle (puzzle : list (list Z)) : Prop :=
  length puzzle = 9
  ∧ Forall (λ row, length row = 9 ∧ Forall (λ x, (0 ≤ x ≤ 9)%Z) row) puzzle.

(** [grid[r][c]], when both indices are in range. *)
Definition grid_at {A} (grid : list (list A)) (p : var) : option A :=
  grid !! p.1 ≫= λ row, row !! p.2.

(** The values of a returned grid at the positions of a scope. *)
Definition cells_at (grid : list (list Sudoku.cell)) (ps : list var) : list (option Sudoku.cell) :=
  (λ p, grid_at grid p) <$> ps.

(** Every row of the grid has [n] cells and there are [n] rows. *)
Definition square {A} (n : nat) (grid : list (list A)) : Prop :=
  length grid = n ∧ Forall (λ row, length row = n) grid.

(** The digits 1 to 9 as cells of a returned grid. *)
Definition digits : list (option Sudoku.cell) := (λ d, Some (Some d)) <$> seqZ 1 9.

(** The input grid as a grid of cells, for comparison with a returned one. *)
Definition as_cells (puzzle : list (list Z)) : list (list Sudoku.cell) :=
  (λ row : list Z, Some <$> row) <$> puzzle.

(** A completion of the puzzle: a digit at each of the 81 positions, the
    given digit where the puzzle has one, with no digit twice in a row, a
    column or a box. *)
Definition completes (puzzle : list (list Z)) (a : var → Z) : Prop :=
  (∀ r c, r < 9 → c < 9 → (1 ≤ a (r, c) ≤ 9)%Z)
  ∧ (∀ p x, grid_at puzzle p = Some x → x ≠ 0%Z → a p = x)
  ∧ ∀ i, i < 9 →
      NoDup (a <$> row_to_indices i)
      ∧ NoDup (a <$> col_to_indices i)
      ∧ NoDup (a <$> box_to_indices i).

Definition solvable (puzzle : list (list Z)) : Prop := ∃ a, completes puzzle a.

#[export] Instance wf_puzzle_dec puzzle : Decision (wf_puzzle puzzle).
Proof. unfold wf_puzzle. apply _. Defined.

(** The first steps of the root call of [solve_recursive_ds], up to the
    choice of the branching variable: the variable chosen, and the candidates
    in the order of the generator, each with the size of its domain after
    propagation. *)
Definition branching_step `{!HashOrder} (fuel : nat) (csp : CSP)
    : outcome (option var * list (var * nat)) :=
  new_domains ← make_arc_consistent fuel csp (Some (domains csp)) None;
  gen ← py_filter (λ x, d ← getitem new_domains x; Ret (bool_decide (1 < dom_len d)))
                  (set_iter (variables csp));
  sel ← select_most_constrained_var csp gen;
  sizes ← py_map (λ x, d ← getitem new_domains x; Ret (x, dom_len d)) gen;
  Ret (sel, sizes).

(** ** Concrete inputs *)

(** The value of a computation that is known to return. *)
Definition from_Ret {A} (d : A) (o : outcome A) : A :=
  match o with
  | Ret a => a
  | _ => d
  end.

Definition empty_csp : CSP :=
  {| variables := ∅; domains := ∅; constraints := []; var_to_const := ∅ |}.

(** Two variables under one all-different constraint. *)
Definition pair_constraint : Constraint :=
  {| cid := 0; scope := [(0, 0); (0, 1)]; condition := is_all_unique_fn |}.

Definition pair_domains : gmap var domain :=
  {[ (0, 0) := DSet {[ 1%Z ]}; (0, 1) := DSet {[ 1%Z; 2%Z ]} ]}.

Definition pair_pruned : gmap var domain :=
  {[ (0, 0) := DSet {[ 1%Z ]}; (0, 1) := DSet {[ 2%Z ]} ]}.

Definition pair_csp : CSP := from_Ret empty_csp (CSP_init pair_domains [pair_constraint]).

(** One variable with two values under a constraint of its own. *)
Definition single_constraint : Constraint :=
  {| cid := 0; scope := [(0, 0)]; condition := is_all_unique_fn |}.

Definition single_domains : gmap var domain := {[ (0, 0) := DList [1%Z; 2%Z] ]}.

Definition single_propagated : gmap var domain := {[ (0, 0) := DSet {[ 1%Z; 2%Z ]} ]}.

Definition single_csp : CSP := from_Ret empty_csp (CSP_init single_domains [single_constraint]).

(** A solved grid. *)
Definition solved_puzzle : list (list Z) :=
  [[5; 3; 4; 6; 7; 8; 9; 1; 2];
   [6; 7; 2; 1; 9; 5; 3; 4; 8];
   [1; 9; 8; 3; 4; 2; 5; 6; 7];
   [8; 5; 9; 7; 6; 1; 4; 2; 3];
   [4; 2; 6; 8; 5; 3; 7; 9; 1];
   [7; 1; 3; 9; 2; 4; 8; 5; 6];
   [9; 6; 1; 5; 3; 7; 2; 8; 4];
   [2; 8; 7; 4; 1; 9; 6; 3; 5];
   [3; 4; 5; 2; 8; 6; 1; 7; 9]]%Z.

(** What [Sudoku.solve] returns on it. *)
Definition solved_answer : list (list Sudoku.cell) :=
  ((λ row : list Z, (Some <$> row) ++ [Some 0%Z]) <$> solved_puzzle)
  ++ [replicate 10 (Some 0%Z)].

(** The solved grid without its 1s, 2s and 3s, except the 1 of the eighth
    row: propagation leaves 26 cells open, 21 with three values and 5 with
    two. *)
Definition open_puzzle : list (list Z) :=
  [[5; 0; 4; 6; 7; 8; 9; 0; 0];
   [6; 7; 0; 0; 9; 5; 0; 4; 8];
   [0; 9; 8; 0; 4; 0; 5; 6; 7];
   [8; 5; 9; 7; 6; 0; 4; 0; 0];
   [4; 0; 6; 8; 5; 0; 7; 9; 0];
   [7; 0; 0; 9; 0; 4; 8; 5; 6];
   [9; 6; 0; 5; 0; 7; 0; 8; 4];
   [0; 8; 7; 4; 1; 9; 6; 0; 5];
   [0; 4; 5; 0; 8; 6; 0; 7; 9]]%Z.

(** What [Sudoku.solve] returns on it under [elements_order]. *)
Definition open_answer : list (list Sudoku.cell) :=
  ((λ row : list Z, (Some <$> row) ++ [Some 0%Z]) <$>
     [[5; 2; 4; 6; 7; 8; 9; 1; 3];
      [6; 7; 3; 1; 9; 5; 2; 4; 8];
      [1; 9; 8; 2; 4; 3; 5; 6; 7];
      [8; 5; 9; 7; 6; 2; 4; 3; 1];
      [4; 3; 6; 8; 5; 1; 7; 9; 2];
      [7; 1; 2; 9; 3; 4; 8; 5; 6];
      [9; 6; 1; 5; 2; 7; 3; 8; 4];
      [3; 8; 7; 4; 1; 9; 6; 2; 5];
      [2; 4; 5; 3; 8; 6; 1; 7; 9]]%Z)
  ++ [replicate 10 (Some 0%Z)].

(** A grid whose first row holds the digit 1 twice. *)
Definition clash_puzzle : list (list Z) :=
  [1; 1; 0; 0; 0; 0; 0; 0; 0]%Z :: replicate 8 (replicate 9 0%Z).

(** The constraint of the first row. *)
Definition first_row : Constraint :=
  {| cid := 0; scope := row_to_indices 0; condition := is_all_unique_fn |}.

(** ** Further vocabulary *)

(** The constraint objects of the rows, the columns and the boxes, as
    [Sudoku.__init__] lists them. *)
Definition row_constraint (i : nat) : Constraint :=
  {| cid := i; scope := row_to_indices i; condition := is_all_unique_fn |}.

Definition col_constraint (j : nat) : Constraint :=
  {| cid := 9 + j; scope := col_to_indices j; condition := is_all_unique_fn |}.

Definition box_constraint (q : nat) : Constraint :=
  {| cid := 18 + q; scope := box_to_indices q; condition := is_all_unique_fn |}.

(** The box of a cell. *)
Definition box_of (r c : nat) : nat := 3 * (r `div` 3) + c `div` 3.

(** Another iteration order, the reverse of [elements_order]. *)
Definition reverse_order : HashOrder :=
  {| set_iter := λ A C _ s, reverse (elements s);
     set_iter_perm := λ A C _ s, reverse_Permutation (elements s) |}.

(** A completion given as a grid, checked cell by cell. *)
Definition completes_check (puzzle g : list (list Z)) : Prop :=
  wf_puzzle puzzle
  ∧ Forall (λ r, Forall (λ c,
        (1 ≤ default 0 (grid_at g (r, c)) ≤ 9)%Z
        ∧ (default 0 (grid_at puzzle (r, c)) ≠ 0
           → default 0 (grid_at g (r, c)) = default 0 (grid_at puzzle (r, c)))%Z)
      (seq 0 9)) (seq 0 9)
  ∧ Forall (λ i,
        NoDup ((λ p, default 0%Z (grid_at g p)) <$> row_to_indices i)
        ∧ NoDup ((λ p, default 0%Z (grid_at g p)) <$> col_to_indices i)
        ∧ NoDup ((λ p, default 0%Z (grid_at g p)) <$> box_to_indices i))
      (seq 0 9).

#[export] Instance completes_check_dec puzzle g : Decision (completes_check puzzle g).
Proof. unfold completes_check. apply _. Defined.

(** ** The command line program *)

From Stdlib Require Import Ascii.
From stdpp Require Import strings pretty.

(** [grid[i][j] = x]: [IndexError] when [i] or [j] is out of range. *)
Definition setitem_grid {A} (grid : list (list A)) (i j : nat) (x : A)
    : outcome (list (list A)) :=
  match grid !! i with
  | None => Raise IndexError
  | Some row =>
      if decide (j < length row) then Ret (<[i := <[j := x]> row]> grid)
      else Raise IndexError
  end.

(** [l[i]]: [IndexError] when [i] is out of range. *)
Definition getindex {A} (l : list A) (i : nat) : outcome A :=
  match l !! i with
  | Some x => Ret x
  | None => Raise IndexError
  end.

(** ['0' <= number <= '9'], on a character. *)
Definition is_digit (number : ascii) : bool :=
  bool_decide (nat_of_ascii "0" ≤ nat_of_ascii number ≤ nat_of_ascii "9").

(** [int(number)], for a character that passed the test. *)
Definition int_of_digit (number : ascii) : Z :=
  Z.of_nat (nat_of_ascii number - nat_of_ascii "0").

(** The body of the reading loop of [main]: a digit is stored at
    [puzzle[i][j]] and the position moves on, row by row; any other
    character is skipped. *)
Definition read_char (st : list (list Z) * nat * nat) (number : ascii)
    : outcome (list (list Z) * nat * nat) :=
  let '(puzzle, i, j) := st in
  if is_digit number then
    puzzle ← setitem_grid puzzle i j (int_of_digit number);
    let j := j + 1 in
    if decide (j = 9) then Ret (puzzle, i + 1, 0) else Ret (puzzle, i, j)
  else Ret st.

(** The reading loop of [main], over the lines of the input file. *)
Definition read_puzzle (lines : list string) : outcome (list (list Z)) :=
  '(puzzle, _, _) ← py_for (λ st line, py_for read_char (String.list_ascii_of_string line) st)
                           lines (replicate 9 (replicate 9 0%Z), 0, 0);
  Ret puzzle.

(** [str(x)] for a cell of the answer. *)
Definition str_cell (x : Sudoku.cell) : string :=
  match x with
  | Some z => pretty z
  | None => "None"
  end.

(** The writing loop of [main]; the file is opened in append mode, [file] is
    what it holds before. *)
Definition write_answer (ans : list (list Sudoku.cell)) (file : string) : outcome string :=
  py_for (λ file i,
            file ← py_for (λ file j,
                             row ← getindex ans i;
                             x ← getindex row j;
                             Ret (file +:+ str_cell x +:+ " "))
                          (seq 0 9) file;
            Ret (file +:+ String "010" ""))
         (seq 0 9) file.

(** [main], from the lines read to the contents of the output file. *)
Definition main `{!HashOrder} (fuel : nat) (lines : list string) (file : string)
    : outcome string :=
  puzzle ← read_puzzle lines;
  ans ← Sudoku.run fuel puzzle;
  write_answer ans file.

(** The digits of a text, in reading order. *)
Definition digits_of (text : list ascii) : list Z :=
  int_of_digit <$> filter (λ ch, is_digit ch = true) text.

(** The characters of the lines, in reading order. *)
Definition chars_of (lines : list string) : list ascii :=
  lines ≫= String.list_ascii_of_string.

(** What the reader holds after the digits [ds]: they fill the grid row by
    row, the other cells still hold 0, and [(i, j)] is the next cell. *)
Definition reading (ds : list Z) (st : list (list Z) * nat * nat) : Prop :=
  square 9 st.1.1 ∧ st.2 < 9 ∧ length ds ≤ 81 ∧ length ds = 9 * st.1.2 + st.2
  ∧ ∀ r c, r < 9 → c < 9 → grid_at st.1.1 (r, c) = Some (default 0%Z (ds !! (9 * r + c))).

(** ** Further concrete inputs *)

(** A solution of the pair of variables. *)
Definition pair_solution : gmap var (option Z) :=
  {[ (0, 0) := Some 1%Z; (0, 1) := Some 2%Z ]}.

(** The input file of [open_puzzle], one line per row. *)
Definition open_lines : list string :=
  ["5 0 4 6 7 8 9 0 0"; "6 7 0 0 9 5 0 4 8"; "0 9 8 0 4 0 5 6 7";
   "8 5 9 7 6 0 4 0 0"; "4 0 6 8 5 0 7 9 0"; "7 0 0 9 0 4 8 5 6";
   "9 6 0 5 0 7 0 8 4"; "0 8 7 4 1 9 6 0 5"; "0 4 5 0 8 6 0 7 9"].


(** An input file with 82 digits. *)
Definition long_lines : list string := replicate 82 "7".

(** A grid whose rows are one cell short. *)
Definition short_puzzle : list (list Z) := replicate 9 (replicate 8 0%Z).

(** An assignment of the pair. *)
Definition pair_assignment : gmap var Z := {[ (0, 0) := 1%Z; (0, 1) := 2%Z ]}.

(** ** Proofs *)

Lemma bind_Ret {A B} (m : outcome A) (f : A → outcome B) b :
  m ≫= f = Ret b → ∃ a, m = Ret a ∧ f a = Ret b.
Proof. destruct m; simpl; [eauto | done | done]. Qed.

Lemma bind_not_Timeout {A B} (m : outcome A) (f : A → outcome B) :
  m ≠ Timeout → (∀ a, m = Ret a → f a ≠ Timeout) → m ≫= f ≠ Timeout.
Proof. destruct m; simpl; [eauto | done | done]. Qed.

Ltac inv_ret :=
  repeat match goal with
  | H : _ ≫= _ = Ret _ |- _ =>
      let a := fresh "a" in let Ha := fresh "Ha" in
      apply bind_Ret in H as (a & Ha & H)
  | H : Ret _ = Ret _ |- _ => apply (inj Ret) in H
  end; simplify_eq/=.

#[export] Instance Ret_inj {A} : Inj (=) (=) (@Ret A).
Proof. by intros x y [= ->]. Qed.

Section basics.
Context `{!HashOrder}.

Lemma elem_of_set_iter `{FinSet A C} (s : C) x : x ∈ set_iter s ↔ x ∈ s.
Proof. rewrite (set_iter_perm s). apply elem_of_elements. Qed.

Lemma NoDup_set_iter `{FinSet A C} (s : C) : NoDup (set_iter s).
Proof. rewrite (set_iter_perm s). apply NoDup_elements. Qed.

Lemma length_set_iter `{FinSet A C} (s : C) : length (set_iter s) = size s.
Proof. by rewrite (set_iter_perm s). Qed.

Lemma elem_of_dom_iter d x : x ∈ dom_iter d ↔ x ∈ dom_vals d.
Proof. destruct d; simpl; [by rewrite elem_of_list_to_set | apply elem_of_set_iter]. Qed.

Lemma getitem_Ret `{Countable K} {V} (m : gmap K V) k v : getitem m k = Ret v ↔ m !! k = Some v.
Proof. unfold getitem. destruct (m !! k); naive_solver. Qed.

Lemma getitem_Some `{Countable K} {V} (m : gmap K V) k v : m !! k = Some v → getitem m k = Ret v.
Proof. apply getitem_Ret. Qed.

(** py_all / py_any / py_filter / py_map over total functions *)
Lemma py_all_pure {A} (f : A → outcome bool) (g : A → bool) l :
  (∀ x, x ∈ l → f x = Ret (g x)) → py_all f l = Ret (forallb g l).
Proof.
  induction l as [|x l IH]; intros Hf; [done|]. simpl.
  rewrite Hf; [|left]. simpl. destruct (g x); [|done].
  apply IH. intros. apply Hf. by right.
Qed.

Lemma py_any_pure {A} (f : A → outcome bool) (g : A → bool) l :
  (∀ x, x ∈ l → f x = Ret (g x)) → py_any f l = Ret (existsb g l).
Proof.
  induction l as [|x l IH]; intros Hf; [done|]. simpl.
  rewrite Hf; [|left]. simpl. destruct (g x); [done|].
  apply IH. intros. apply Hf. by right.
Qed.

Lemma py_filter_pure {A} (f : A → outcome bool) (g : A → bool) l :
  (∀ x, x ∈ l → f x = Ret (g x)) → py_filter f l = Ret (List.filter g l).
Proof.
  induction l as [|x l IH]; intros Hf; [done|]. simpl.
  rewrite Hf; [|left]. simpl. rewrite IH; [|intros; apply Hf; by right].
  simpl. by destruct (g x).
Qed.

Lemma py_map_pure {A B} (f : A → outcome B) (g : A → B) l :
  (∀ x, x ∈ l → f x = Ret (g x)) → py_map f l = Ret (g <$> l).
Proof.
  induction l as [|x l IH]; intros Hf; [done|]. simpl.
  rewrite Hf; [|left]. simpl. rewrite IH; [|intros; apply Hf; by right]. done.
Qed.

Lemma py_filter_sub {A} (f : A → outcome bool) l r x :
  py_filter f l = Ret r → x ∈ r → x ∈ l.
Proof.
  revert r. induction l as [|y l IH]; intros r Hr Hx; simpl in Hr.
  - by inv_ret.
  - inv_ret. destruct a.
    + apply elem_of_cons in Hx as [->|Hx]; [left | right; eauto].
    + right; eauto.
Qed.

Lemma py_filter_elem {A} (f : A → outcome bool) l r x :
  py_filter f l = Ret r → (x ∈ r ↔ x ∈ l ∧ f x = Ret true).
Proof.
  revert r. induction l as [|y l IH]; intros r Hr; simpl in Hr.
  - inv_ret. set_solver.
  - inv_ret. specialize (IH _ Ha0). destruct a.
    + rewrite !elem_of_cons, IH. naive_solver.
    + rewrite elem_of_cons, IH. split; [naive_solver|].
      intros [[->|?] ?]; [congruence | done].
Qed.

Lemma elem_of_pairs (ps : list var) p1 p2 :
  (p1, p2) ∈ (p1 ← ps; p2 ← ps; if decide (p1 ≠ p2) then [(p1, p2)] else [])
  ↔ p1 ∈ ps ∧ p2 ∈ ps ∧ p1 ≠ p2.
Proof.
  rewrite list_elem_of_bind. split.
  - intros (q1 & Hin & H1). apply list_elem_of_bind in Hin as (q2 & Hin & H2).
    case_decide; [|by apply not_elem_of_nil in Hin].
    apply list_elem_of_singleton in Hin. by simplify_eq.
  - intros (H1 & H2 & Hne). exists p1. split; [|done].
    apply list_elem_of_bind. exists p2. split; [|done].
    rewrite decide_True by done. by left.
Qed.

Lemma is_all_unique_spec a ps :
  (∀ p, p ∈ ps → is_Some (a !! p)) →
  is_all_unique a ps = Ret (bool_decide (all_diff a ps)).
Proof.
  intros Hdef. unfold is_all_unique.
  erewrite (py_all_pure _ (λ '(p1, p2), bool_decide (a !! p1 ≠ a !! p2))).
  - f_equal. apply eq_true_iff_eq. rewrite forallb_forall, bool_decide_eq_true.
    split.
    + intros Hall p1 p2 H1 H2 Hne.
      specialize (Hall (p1, p2)). simpl in Hall.
      apply (bool_decide_eq_true_1 (a !! p1 ≠ a !! p2)), Hall.
      apply list_elem_of_In, elem_of_pairs. done.
    + intros Hall [p1 p2] Hin. apply bool_decide_eq_true_2.
      apply list_elem_of_In, elem_of_pairs in Hin as (? & ? & ?). by apply Hall.
  - intros [p1 p2] Hin. apply elem_of_pairs in Hin as (H1 & H2 & Hne).
    destruct (Hdef p1 H1) as [v1 Hv1], (Hdef p2 H2) as [v2 Hv2].
    rewrite (getitem_Some _ _ _ Hv1). simpl. rewrite (getitem_Some _ _ _ Hv2). simpl.
    rewrite Hv1, Hv2. f_equal. apply bool_decide_ext. naive_solver.
Qed.

Lemma all_diff_agree a b ps :
  (∀ p, p ∈ ps → a !! p = b !! p) → all_diff a ps → all_diff b ps.
Proof. intros Hag Ha p1 p2 H1 H2 Hne. rewrite <-!Hag by done. by apply Ha. Qed.

Lemma all_diff_sub a ps qs : qs ⊆ ps → all_diff a ps → all_diff a qs.
Proof. intros Hs Ha p1 p2 H1 H2. apply Ha; by apply Hs. Qed.

End basics.

Section anyholds.
Context `{!HashOrder}.

Lemma supp_ext D c rest : ∀ env1 env2,
  (∀ u, u ∈ scope c → u ∉ rest → env1 !! u = env2 !! u) →
  supp D c env1 rest → supp D c env2 rest.
Proof.
  induction rest as [|w rest IH]; intros env1 env2 Hag; simpl.
  - apply all_diff_agree. intros p Hp. apply Hag; [done|apply not_elem_of_nil].
  - intros (y & Hy & Hs). exists y. split; [done|].
    eapply IH; [|done]. intros u Hu Hr.
    destruct (decide (w = u)) as [->|Hne].
    + by rewrite !lookup_insert_eq.
    + rewrite !lookup_insert_ne by done. apply Hag; set_solver.
Qed.

Lemma supp_final D c rest : ∀ env,
  supp D c env rest →
  ∃ f, (∀ u, u ∉ rest → f !! u = env !! u)
       ∧ (∀ u, u ∈ rest → ∃ y, f !! u = Some y ∧ in_dom D u y)
       ∧ all_diff f (scope c).
Proof.
  induction rest as [|w rest IH]; intros env; simpl.
  - intros Hd. exists env. split_and!; [done| |done]. intros u Hu. by apply not_elem_of_nil in Hu.
  - intros (y & Hy & Hs). destruct (IH _ Hs) as (f & Hout & Hin & Hd).
    exists f. split_and!; [| |done].
    + intros u Hu. rewrite Hout by set_solver.
      apply lookup_insert_ne. set_solver.
    + intros u Hu. destruct (decide (u ∈ rest)) as [Hr|Hr]; [by apply Hin|].
      assert (u = w) as -> by set_solver.
      exists y. split; [|done]. rewrite Hout by done. apply lookup_insert_eq.
Qed.

Lemma supp_intro D c rest : ∀ env f,
  NoDup rest →
  (∀ u, u ∈ scope c → u ∉ rest → f !! u = env !! u) →
  (∀ u, u ∈ rest → ∃ y, f !! u = Some y ∧ in_dom D u y) →
  all_diff f (scope c) →
  supp D c env rest.
Proof.
  induction rest as [|w rest IH]; intros env f Hnd Hout Hin Hd; simpl.
  - eapply all_diff_agree; [|done]. intros p Hp. apply Hout; [done|apply not_elem_of_nil].
  - apply NoDup_cons in Hnd as [Hw Hnd].
    destruct (Hin w) as (y & Hfy & Hy); [left|].
    exists y. split; [done|]. apply (IH _ f); [done| | |done].
    + intros u Hu Hr. destruct (decide (w = u)) as [->|Hne].
      * by rewrite lookup_insert_eq.
      * rewrite lookup_insert_ne by done. apply Hout; set_solver.
    + intros u Hu. apply Hin. by right.
Qed.

Lemma holds_spec c env :
  (∀ u, u ∈ scope c → is_Some (env !! u)) →
  holds c env = Ret (bool_decide (all_diff env (scope c))).
Proof. intros. unfold holds. destruct (condition c). by apply is_all_unique_spec. Qed.

Lemma any_holds_spec D c : ∀ rest assigned env,
  (∀ u, u ∈ rest → is_Some (D !! u)) →
  NoDup rest →
  (∀ u, u ∈ rest → u ∉ assigned) →
  (∀ u, u ∈ assigned → is_Some (env !! u)) →
  (∀ u, u ∈ assigned → u ∈ scope c) →
  (∀ u, u ∈ rest → u ∈ scope c) →
  (∀ u, u ∈ scope c → u ∈ rest ∨ is_Some (env !! u)) →
  ∃ b env', any_holds D c env rest assigned = Ret (b, env')
    ∧ (∀ u, u ∉ rest → env' !! u = env !! u)
    ∧ (∀ u, is_Some (env !! u) → is_Some (env' !! u))
    ∧ (b = true ↔ supp D c env rest).
Proof.
  induction rest as [|v rest IH]; intros assigned env HD Hnd Hdisj Hae Has Hrs Hsc.
  - simpl. rewrite holds_spec.
    2:{ intros u Hu. destruct (Hsc u Hu) as [Hn|]; [by apply not_elem_of_nil in Hn|done]. }
    simpl. eexists _, env. split_and!; [done..|]. apply bool_decide_eq_true.
  - simpl. destruct (HD v) as [d Hd]; [left|].
    rewrite (getitem_Some _ _ _ Hd). simpl.
    apply NoDup_cons in Hnd as [Hv Hnd].
    assert (∀ vals env1,
      (∀ y, y ∈ vals → y ∈ dom_vals d) →
      (∀ u, u ∉ v :: rest → env1 !! u = env !! u) →
      (∀ u, is_Some (env !! u) → is_Some (env1 !! u)) →
      ∃ b env', any_holds_loop v assigned
                  (λ env, any_holds D c env rest (v :: assigned)) vals env1 = Ret (b, env')
        ∧ (∀ u, u ∉ v :: rest → env' !! u = env !! u)
        ∧ (∀ u, is_Some (env !! u) → is_Some (env' !! u))
        ∧ (b = true ↔ ∃ y, y ∈ vals ∧ supp D c (<[v := y]> env) rest)) as Hloop.
    { induction vals as [|val vals IHv]; intros env1 Hvals Hag Hsome.
      - simpl. eexists _, _. split_and!; [done..|]. split; [done|].
        intros (y & Hy & _). by apply not_elem_of_nil in Hy.
      - simpl.
        assert (∀ u, is_Some (env !! u) → is_Some (<[v := val]> env1 !! u)) as Hsome2.
        { intros u Hu. destruct (decide (v = u)) as [->|].
          - rewrite lookup_insert_eq. eauto.
          - rewrite lookup_insert_ne by done. eauto. }
        assert (∀ u, u ≠ v → u ∉ rest → <[v := val]> env1 !! u = env !! u) as Hag2.
        { intros u Hu1 Hu2. rewrite lookup_insert_ne by done. apply Hag. set_solver. }
        rewrite is_all_unique_spec.
        2:{ intros p Hp. apply elem_of_cons in Hp as [->|Hp].
            - rewrite lookup_insert_eq. eauto.
            - apply Hsome2, Hae, Hp. }
        simpl.
        assert (supp D c (<[v := val]> env) rest →
                all_diff (<[v := val]> env1) (v :: assigned)) as Hprune.
        { intros Hs. apply supp_final in Hs as (f & Hout & _ & Hdf).
          apply (all_diff_agree f).
          - intros p Hp. rewrite Hout.
            + destruct (decide (v = p)) as [->|Hne].
              * by rewrite !lookup_insert_eq.
              * rewrite !lookup_insert_ne by done. symmetry. apply Hag.
                apply elem_of_cons in Hp as [->|Hp]; [done|].
                intros [->|Hr]%elem_of_cons; [done|].
                eapply Hdisj; [right; exact Hr|done].
            + apply elem_of_cons in Hp as [->|Hp]; [done|].
              intros Hr. eapply Hdisj; [right; exact Hr|done].
          - eapply all_diff_sub; [|done]. intros p Hp.
            apply elem_of_cons in Hp as [->|Hp]; [apply Hrs; left | by apply Has]. }
        destruct (IHv (<[v := val]> env1)) as (b1 & e1 & Hl1 & Hag1 & Hs1 & Hb1).
        { intros y Hy. apply Hvals. by right. }
        { intros u Hu. apply Hag2; set_solver. }
        { done. }
        case_bool_decide as Hu.
        + destruct (IH (v :: assigned) (<[v := val]> env1)) as (b & env' & Hrec & Hag' & Hsome' & Hb).
          { intros u Hu'. apply HD. by right. }
          { done. }
          { intros u Hu1 [->|Hu2]%elem_of_cons; [done|]. eapply Hdisj; [right; exact Hu1|done]. }
          { intros u [->|Hu']%elem_of_cons; [rewrite lookup_insert_eq; eauto|].
            apply Hsome2, Hae, Hu'. }
          { intros u [->|Hu']%elem_of_cons; [apply Hrs; left | by apply Has]. }
          { intros u Hu'. apply Hrs. by right. }
          { intros u Hu'. destruct (Hsc u Hu') as [[->|Hr]%elem_of_cons|Hs].
            - right. rewrite lookup_insert_eq. eauto.
            - by left.
            - right. by apply Hsome2. }
          rewrite Hrec. simpl.
          assert (b = true ↔ supp D c (<[v := val]> env) rest) as Hb'.
          { rewrite Hb. split; apply supp_ext; intros u _ Hu'.
            - destruct (decide (v = u)) as [->|Hne]; [by rewrite !lookup_insert_eq|].
              rewrite !lookup_insert_ne by done. apply Hag. set_solver.
            - destruct (decide (v = u)) as [->|Hne]; [by rewrite !lookup_insert_eq|].
              rewrite !lookup_insert_ne by done. symmetry. apply Hag. set_solver. }
          destruct b.
          * eexists _, _. split_and!; [done| | |].
            -- intros u Hu'. rewrite Hag' by set_solver. apply Hag2; set_solver.
            -- intros u Hu'. apply Hsome', Hsome2, Hu'.
            -- split; [|done]. intros _. exists val. split; [left|by apply Hb'].
          * destruct (IHv env') as (b2 & e2 & Hl2 & Hag2' & Hs2 & Hb2).
            { intros y Hy. apply Hvals. by right. }
            { intros u Hu'. rewrite Hag' by set_solver. apply Hag2; set_solver. }
            { intros u Hu'. apply Hsome', Hsome2, Hu'. }
            eexists _, _. split_and!; [done..|].
            rewrite Hb2. split.
            -- intros (y & Hy & Hs). exists y. split; [by right|done].
            -- intros (y & [->|Hy]%elem_of_cons & Hs); [|eauto].
               apply Hb' in Hs. done.
        + eexists _, _. split_and!; [done..|].
          rewrite Hb1. split.
          * intros (y & Hy & Hs). exists y. split; [by right|done].
          * intros (y & [->|Hy]%elem_of_cons & Hs); [|eauto].
            by apply Hprune in Hs. }
    destruct (Hloop (dom_iter d) env) as (b & env' & Hl & Hag & Hsome & Hb).
    { intros y. apply elem_of_dom_iter. }
    { done. }
    { done. }
    exists b, env'. split_and!; [done..|].
    rewrite Hb. split.
    + intros (y & Hy & Hs). exists y. split; [|done].
      exists d. split; [done|]. by apply elem_of_dom_iter.
    + intros (y & (d' & Hd' & Hy) & Hs). simplify_eq.
      exists y. split; [|done]. by apply elem_of_dom_iter.
Qed.

End anyholds.

Section revise.
Context `{!HashOrder}.

Lemma elem_of_other_vars v c u : u ∈ other_vars v c ↔ u ∈ scope c ∧ u ≠ v.
Proof. unfold other_vars. rewrite list_elem_of_filter. naive_solver. Qed.

Lemma supp_supported D c v x :
  NoDup (scope c) → supp D c {[v := x]} (other_vars v c) ↔ supported D c v x.
Proof.
  intros Hnd. split.
  - intros (f & Hout & Hin & Hd)%supp_final. exists f. split_and!; [| |done].
    + rewrite Hout; [apply lookup_singleton_eq|]. rewrite elem_of_other_vars. naive_solver.
    + intros u Hu Hne. apply Hin. by apply elem_of_other_vars.
  - intros (f & Hv & Hin & Hd). apply (supp_intro _ _ _ _ f); [| | |done].
    + by apply NoDup_filter.
    + intros u Hu Hn. rewrite elem_of_other_vars in Hn.
      destruct (decide (u = v)) as [->|Hne]; [|naive_solver].
      by rewrite lookup_singleton_eq.
    + intros u [Hu Hne]%elem_of_other_vars. by apply Hin.
Qed.

Lemma py_filter_total {A} (f : A → outcome bool) l :
  (∀ x, x ∈ l → ∃ b, f x = Ret b) → ∃ r, py_filter f l = Ret r.
Proof.
  induction l as [|x l IH]; intros Hf; simpl; [eauto|].
  destruct (Hf x) as [b ->]; [left|]. destruct IH as [r ->]; [|simpl; eauto].
  intros. apply Hf. by right.
Qed.

Lemma revise_any_holds D c v x :
  (∀ u, u ∈ scope c → u ≠ v → is_Some (D !! u)) → NoDup (scope c) →
  ∃ b, (any_holds D c {[v := x]} (other_vars v c) [] ≫= λ '(found, _), Ret found) = Ret b
       ∧ (b = true ↔ supported D c v x).
Proof.
  intros HD Hnd.
  destruct (any_holds_spec D c (other_vars v c) [] {[v := x]}) as (b & env' & Hah & _ & _ & Hb).
  - intros u [??]%elem_of_other_vars. by apply HD.
  - by apply NoDup_filter.
  - intros u _ Hn. by apply not_elem_of_nil in Hn.
  - intros u Hn. by apply not_elem_of_nil in Hn.
  - intros u Hn. by apply not_elem_of_nil in Hn.
  - intros u [??]%elem_of_other_vars. done.
  - intros u Hu. destruct (decide (u = v)) as [->|Hne].
    + right. rewrite lookup_singleton_eq. eauto.
    + left. by apply elem_of_other_vars.
  - exists b. rewrite Hah. simpl. split; [done|]. by rewrite Hb, supp_supported.
Qed.

Lemma revise_spec D c v d :
  D !! v = Some d →
  (∀ u, u ∈ scope c → u ≠ v → is_Some (D !! u)) → NoDup (scope c) →
  ∃ new, revise D v c = Ret (DSet new)
         ∧ ∀ x, x ∈ new ↔ x ∈ dom_vals d ∧ supported D c v x.
Proof.
  intros Hd HD Hnd. unfold revise. rewrite (getitem_Some _ _ _ Hd). simpl.
  destruct (py_filter_total
    (λ val, any_holds D c {[v := val]} (other_vars v c) [] ≫= λ '(found, _), Ret found)
    (dom_iter d)) as [kept Hk].
  { intros x _. destruct (revise_any_holds D c v x) as (b & ? & _); eauto. }
  rewrite Hk. simpl. eexists. split; [done|]. intros x.
  rewrite elem_of_list_to_set, (py_filter_elem _ _ _ x Hk), elem_of_dom_iter.
  destruct (revise_any_holds D c v x HD Hnd) as (b & Hb & Hiff).
  rewrite Hb, <-Hiff. naive_solver.
Qed.

(** Without any assumption, revise only removes values. *)
Lemma revise_sub D c v r :
  revise D v c = Ret r →
  ∃ d new, D !! v = Some d ∧ r = DSet new ∧ new ⊆ dom_vals d.
Proof.
  unfold revise. intros Hr. inv_ret. apply getitem_Ret in Ha.
  eexists _, _. split_and!; [done..|]. intros x. rewrite elem_of_list_to_set.
  intros Hx%(py_filter_sub _ _ _ _ Ha0). by apply elem_of_dom_iter.
Qed.

Lemma supp_combination D c rest : ∀ env,
  supp D c env rest ↔
  ∃ vals, Forall2 (in_dom D) rest vals ∧ all_diff (extend env rest vals) (scope c).
Proof.
  induction rest as [|u rest IH]; intros env; simpl.
  - split.
    + intros Hd. exists []. split; [constructor|done].
    + intros (vals & Hf & Hd). by apply Forall2_nil_inv_l in Hf as ->.
  - split.
    + intros (y & Hy & (vals & Hf & Hd)%IH). exists (y :: vals). split; [by constructor|done].
    + intros (vals & Hf & Hd). apply Forall2_cons_inv_l in Hf as (y & vals' & Hy & Hf & ->).
      exists y. split; [done|]. apply IH. eauto.
Qed.

Lemma extend_is_Some rest : ∀ env vals u,
  length rest = length vals →
  u ∈ rest ∨ is_Some (env !! u) → is_Some (extend env rest vals !! u).
Proof.
  induction rest as [|w rest IH]; intros env [|y vals] u Hlen Hu; simplify_eq/=.
  - destruct Hu as [Hu|Hu]; [by apply not_elem_of_nil in Hu|done].
  - apply IH; [done|]. destruct (decide (w = u)) as [->|Hne].
    + right. rewrite lookup_insert_eq. eauto.
    + rewrite lookup_insert_ne by done. set_solver.
Qed.

End revise.

Section arcloop.
Context `{!HashOrder}.

Lemma set_truthy_spec `{FinSet A C} (s : C) : set_truthy s = false ↔ s ≡ ∅.
Proof.
  unfold set_truthy. rewrite <-elements_empty_iff. by destruct (elements s).
Qed.

Lemma select_arc_spec (to_do : pyset arc) :
  set_truthy to_do = true →
  ∃ a, select_arc to_do = Ret (a, to_do ∖ {[a]}) ∧ a ∈ to_do.
Proof.
  intros Ht. unfold select_arc.
  destruct (set_iter to_do) as [|a l] eqn:E.
  - assert (to_do ≡ ∅) as He.
    { apply elements_empty_iff. apply Permutation_nil_r. by rewrite <-(set_iter_perm to_do), E. }
    apply set_truthy_spec in He. congruence.
  - exists a. split; [done|]. apply elem_of_set_iter. rewrite E. left.
Qed.

Lemma select_arc_Ret (to_do : pyset arc) a t :
  select_arc to_do = Ret (a, t) → a ∈ to_do ∧ t = to_do ∖ {[a]}.
Proof.
  unfold select_arc. destruct (set_iter to_do) as [|b l] eqn:E; [done|].
  intros [= -> <-]. split; [|done]. apply elem_of_set_iter. rewrite E. left.
Qed.

Lemma new_to_do_spec csp v const nt :
  new_to_do csp v const = Ret nt →
  ∃ cs, var_to_const csp !! v = Some cs
        ∧ ∀ n c, (n, c) ∈ nt ↔ c ∈ cs ∧ Some c ≠ const ∧ n ∈ scope c ∧ n ≠ v.
Proof.
  unfold new_to_do. intros Hn. inv_ret. apply getitem_Ret in Ha.
  exists a. split; [done|]. intros n c.
  rewrite elem_of_list_to_set, list_elem_of_bind. split.
  - intros (c' & Hin & [Hc Hc']%list_elem_of_filter).
    apply list_elem_of_bind in Hin as (n' & Hin & [Hn Hn']%list_elem_of_filter).
    apply list_elem_of_singleton in Hin. simplify_eq.
    by rewrite elem_of_set_iter in Hc'.
  - intros (Hc & Hne & Hn & Hnv). exists c. split.
    + apply list_elem_of_bind. exists n. split; [by left|]. by apply list_elem_of_filter.
    + apply list_elem_of_filter. split; [done|]. by apply elem_of_set_iter.
Qed.

Lemma new_to_do_total csp v const cs :
  var_to_const csp !! v = Some cs → ∃ nt, new_to_do csp v const = Ret nt.
Proof. intros Hv. unfold new_to_do. rewrite (getitem_Some _ _ _ Hv). simpl. eauto. Qed.

(** Fuel *)
Lemma arc_loop_fuel_mono csp : ∀ n m D to_do r,
  arc_loop n csp D to_do = r → r ≠ Timeout → n ≤ m → arc_loop m csp D to_do = r.
Proof.
  induction n as [|n IH]; intros m D to_do r Hr Hne Hle; simpl in Hr; [congruence|].
  destruct m as [|m]; [lia|]. simpl.
  destruct (set_truthy to_do); simpl in *; [|done].
  destruct (select_arc to_do) as [[[v c] t]| |]; simpl in *; [|done..].
  destruct (revise D v c) as [new| |]; simpl in *; [|done..].
  destruct (getitem D v) as [d| |]; simpl in *; [|done..].
  destruct (dom_ne new d).
  - destruct (new_to_do csp v (Some c)) as [nt| |]; simpl in *; [|done..].
    apply IH; [done..|lia].
  - apply IH; [done..|lia].
Qed.

Lemma dom_le_vals d' d : dom_le d' d → dom_vals d' ⊆ dom_vals d.
Proof. intros [->|(s' & -> & Hs)]; done. Qed.

Lemma dom_le_trans d1 d2 d3 : dom_le d1 d2 → dom_le d2 d3 → dom_le d1 d3.
Proof.
  intros [->|(s' & -> & Hs)] H23; [done|]. right. eexists. split; [done|].
  etrans; [done|]. by apply dom_le_vals.
Qed.

Lemma shrinks_refl D : shrinks D D.
Proof. intros v. destruct (D !! v) eqn:E; [|done]. eexists. split; [done|by left]. Qed.

Lemma shrinks_trans D1 D2 D3 : shrinks D1 D2 → shrinks D2 D3 → shrinks D1 D3.
Proof.
  intros H12 H23 v. specialize (H12 v). specialize (H23 v).
  destruct (D3 !! v) as [d3|].
  - destruct H23 as (d2 & Hd2 & Hle). rewrite Hd2 in H12.
    destruct H12 as (d1 & Hd1 & Hle'). exists d1. split; [done|]. by eapply dom_le_trans.
  - by rewrite H23 in H12.
Qed.

Lemma shrinks_insert D v d d' :
  D !! v = Some d → dom_le d' d → shrinks D (<[v := d']> D).
Proof.
  intros Hd Hle u. destruct (decide (v = u)) as [->|Hne].
  - rewrite lookup_insert_eq. eauto.
  - rewrite lookup_insert_ne by done. apply shrinks_refl.
Qed.

Lemma shrinks_dom D D' : shrinks D D' → dom D' = dom D.
Proof.
  intros Hs. apply set_eq. intros v. rewrite !elem_of_dom. specialize (Hs v).
  destruct (D' !! v) as [d'|].
  - destruct Hs as (d & -> & _). split; eauto.
  - rewrite Hs. done.
Qed.

Lemma arc_loop_shrinks csp : ∀ fuel D to_do D',
  arc_loop fuel csp D to_do = Ret D' → shrinks D D'.
Proof.
  induction fuel as [|fuel IH]; intros D to_do D' Hr; simpl in Hr; [done|].
  destruct (set_truthy to_do); simpl in Hr.
  2:{ inv_ret. apply shrinks_refl. }
  apply bind_Ret in Hr as ([[v c] t] & Hsel & Hr).
  apply bind_Ret in Hr as (new & Hrev & Hr).
  apply bind_Ret in Hr as (d & Hd & Hr). apply getitem_Ret in Hd.
  destruct (dom_ne new d).
  - apply bind_Ret in Hr as (nt & Hnt & Hr).
    apply IH in Hr. eapply shrinks_trans; [|done].
    apply revise_sub in Hrev as (d0 & s & Hd0 & -> & Hsub).
    rewrite Hd in Hd0. injection Hd0 as <-.
    eapply shrinks_insert; [done|]. right. eauto.
  - by apply IH in Hr.
Qed.

End arcloop.

Section termination.
Context `{!HashOrder}.

(** Nothing but the two fuelled loops can run out of fuel. *)
Lemma getitem_no_timeout `{Countable K} {V} (m : gmap K V) k : getitem m k ≠ Timeout.
Proof. unfold getitem. by destruct (m !! k). Qed.

Lemma py_all_no_timeout {A} (f : A → outcome bool) l :
  (∀ x, f x ≠ Timeout) → py_all f l ≠ Timeout.
Proof.
  intros Hf. induction l as [|x l IH]; simpl; [done|].
  apply bind_not_Timeout; [done|]. by intros [] _.
Qed.

Lemma py_any_no_timeout {A} (f : A → outcome bool) l :
  (∀ x, f x ≠ Timeout) → py_any f l ≠ Timeout.
Proof.
  intros Hf. induction l as [|x l IH]; simpl; [done|].
  apply bind_not_Timeout; [done|]. by intros [] _.
Qed.

Lemma py_filter_no_timeout {A} (f : A → outcome bool) l :
  (∀ x, f x ≠ Timeout) → py_filter f l ≠ Timeout.
Proof.
  intros Hf. induction l as [|x l IH]; simpl; [done|].
  apply bind_not_Timeout; [done|]. intros b _. by apply bind_not_Timeout.
Qed.

Lemma py_map_no_timeout {A B} (f : A → outcome B) l :
  (∀ x, f x ≠ Timeout) → py_map f l ≠ Timeout.
Proof.
  intros Hf. induction l as [|x l IH]; simpl; [done|].
  apply bind_not_Timeout; [done|]. intros b _. by apply bind_not_Timeout.
Qed.

Lemma py_for_no_timeout {A S} (body : S → A → outcome S) l : ∀ s,
  (∀ s x, body s x ≠ Timeout) → py_for body l s ≠ Timeout.
Proof.
  induction l as [|x l IH]; intros s Hf; simpl; [done|].
  apply bind_not_Timeout; [done|]. intros s' _. by apply IH.
Qed.

Lemma is_all_unique_no_timeout a ps : is_all_unique a ps ≠ Timeout.
Proof.
  apply py_all_no_timeout. intros [p1 p2].
  apply bind_not_Timeout; [apply getitem_no_timeout|]. intros v1 _.
  apply bind_not_Timeout; [apply getitem_no_timeout|]. done.
Qed.

Lemma holds_no_timeout c env : holds c env ≠ Timeout.
Proof. unfold holds. destruct (condition c). apply is_all_unique_no_timeout. Qed.

Lemma any_holds_loop_no_timeout v assigned recurse vals : ∀ env,
  (∀ env, recurse env ≠ Timeout) → any_holds_loop v assigned recurse vals env ≠ Timeout.
Proof.
  induction vals as [|val vals IH]; intros env Hr; simpl; [done|].
  apply bind_not_Timeout; [apply is_all_unique_no_timeout|]. intros [] _; [|by apply IH].
  apply bind_not_Timeout; [done|]. intros [[] e] _; [done|by apply IH].
Qed.

Lemma any_holds_no_timeout D c rest : ∀ env assigned,
  any_holds D c env rest assigned ≠ Timeout.
Proof.
  induction rest as [|v rest IH]; intros env assigned; simpl.
  - apply bind_not_Timeout; [apply holds_no_timeout|done].
  - apply bind_not_Timeout; [apply getitem_no_timeout|]. intros d _.
    apply any_holds_loop_no_timeout. intros e. apply IH.
Qed.

Lemma revise_no_timeout D v c : revise D v c ≠ Timeout.
Proof.
  unfold revise. apply bind_not_Timeout; [apply getitem_no_timeout|]. intros d _.
  apply bind_not_Timeout; [|done]. apply py_filter_no_timeout. intros x.
  apply bind_not_Timeout; [apply any_holds_no_timeout|]. by intros [].
Qed.

Lemma new_to_do_no_timeout csp v const : new_to_do csp v const ≠ Timeout.
Proof. unfold new_to_do. apply bind_not_Timeout; [apply getitem_no_timeout|done]. Qed.

Lemma select_arc_no_timeout to_do : select_arc to_do ≠ Timeout.
Proof. unfold select_arc. by destruct (set_iter to_do). Qed.

Lemma mu_insert D v d d' :
  D !! v = Some d → mu (<[v := d']> D) + weight d = mu D + weight d'.
Proof.
  intros Hd. unfold mu.
  rewrite <-(insert_delete_eq D v d').
  rewrite <-(insert_delete_id D v d) at 2 by done.
  rewrite !map_to_list_insert by apply lookup_delete_eq.
  simpl. lia.
Qed.

Lemma size_list_to_set_le (l : list Z) : size (list_to_set l : gset Z) ≤ length l.
Proof.
  induction l as [|x l IH]; [by rewrite list_to_set_nil, size_empty|].
  rewrite list_to_set_cons, size_union_alt, size_singleton. simpl.
  assert (size (list_to_set l ∖ {[x]} : gset Z) ≤ size (list_to_set l : gset Z)).
  { apply subseteq_size. set_solver. }
  lia.
Qed.

Lemma weight_lt new d :
  new ⊆ dom_vals d → dom_ne (DSet new) d = true → weight (DSet new) < weight d.
Proof.
  destruct d as [l|s]; simpl; intros Hsub Hne.
  - pose proof (size_list_to_set_le l). apply subseteq_size in Hsub. lia.
  - apply bool_decide_eq_true in Hne. apply subset_size. set_solver.
Qed.

Lemma weight_le d' d : dom_le d' d → weight d' ≤ weight d.
Proof.
  intros [->|(s' & -> & Hs)]; [done|]. destruct d as [l|s]; simpl in *.
  - pose proof (size_list_to_set_le l). apply subseteq_size in Hs. lia.
  - by apply subseteq_size.
Qed.

Lemma new_to_do_sub csp v const nt : new_to_do csp v const = Ret nt → nt ⊆ all_new csp.
Proof.
  intros (cs & Hcs & Hnt)%new_to_do_spec [n c] (Hc & _ & Hn & _)%Hnt.
  unfold all_new. rewrite elem_of_list_to_set, list_elem_of_bind.
  exists (v, cs). split; [|by apply elem_of_map_to_list].
  simpl. apply list_elem_of_bind. exists c. split; [|by apply elem_of_elements].
  apply list_elem_of_bind. exists n. split; [by left|done].
Qed.

Lemma arc_loop_terminates csp (U : pyset arc) :
  all_new csp ⊆ U →
  ∀ fuel D to_do, to_do ⊆ U → mu D * S (size U) + size to_do < fuel →
  arc_loop fuel csp D to_do ≠ Timeout.
Proof.
  intros HU. induction fuel as [|fuel IH]; intros D to_do Hsub Hlt; [lia|].
  simpl. destruct (set_truthy to_do) eqn:Ht; simpl; [|done].
  destruct (select_arc_spec to_do Ht) as ([v c] & -> & Ha). simpl.
  assert (size (to_do ∖ {[(v, c)]}) + 1 = size to_do) as Hsz.
  { rewrite size_difference by set_solver. rewrite size_singleton.
    assert (size ({[(v, c)]} : pyset arc) ≤ size to_do); [apply subseteq_size; set_solver|].
    rewrite size_singleton in *. lia. }
  apply bind_not_Timeout; [apply revise_no_timeout|]. intros new Hrev.
  apply bind_not_Timeout; [apply getitem_no_timeout|]. intros d Hd.
  apply getitem_Ret in Hd.
  destruct (dom_ne new d) eqn:Hne.
  - apply bind_not_Timeout; [apply new_to_do_no_timeout|]. intros nt Hnt.
    apply revise_sub in Hrev as (d0 & s & Hd0 & -> & Hs).
    rewrite Hd in Hd0. injection Hd0 as <-.
    pose proof (weight_lt _ _ Hs Hne) as Hw.
    pose proof (mu_insert D v d (DSet s) Hd) as Hmu.
    apply new_to_do_sub in Hnt.
    assert (to_do ∖ {[(v, c)]} ∪ nt ∖ (to_do ∖ {[(v, c)]}) ⊆ U) as Hsub' by set_solver.
    apply IH; [done|]. apply subseteq_size in Hsub'. nia.
  - apply IH; [set_solver|lia].
Qed.

Lemma arc_loop_mu csp : ∀ fuel D to_do D',
  arc_loop fuel csp D to_do = Ret D' → mu D' ≤ mu D.
Proof.
  induction fuel as [|fuel IH]; intros D to_do D' Hr; simpl in Hr; [done|].
  destruct (set_truthy to_do); simpl in Hr.
  2:{ by inv_ret. }
  apply bind_Ret in Hr as ([[v c] t] & Hsel & Hr).
  apply bind_Ret in Hr as (new & Hrev & Hr).
  apply bind_Ret in Hr as (d & Hd & Hr). apply getitem_Ret in Hd.
  destruct (dom_ne new d) eqn:Hne.
  - apply bind_Ret in Hr as (nt & Hnt & Hr).
    apply IH in Hr.
    apply revise_sub in Hrev as (d0 & s & Hd0 & -> & Hsub).
    rewrite Hd in Hd0. injection Hd0 as <-.
    pose proof (weight_lt _ _ Hsub Hne). pose proof (mu_insert D v d (DSet s) Hd). lia.
  - by apply IH in Hr.
Qed.

Lemma make_arc_consistent_terminates csp D to_do :
  ∃ n, ∀ fuel, n ≤ fuel → make_arc_consistent fuel csp D to_do ≠ Timeout.
Proof.
  unfold make_arc_consistent.
  set (t := match to_do with Some t => t | None => _ end).
  set (D0 := default (domains csp) D).
  exists (S (mu D0 * S (size (all_new csp ∪ t)) + size t)). intros fuel Hle.
  apply (arc_loop_terminates csp (all_new csp ∪ t)); [set_solver|set_solver|lia].
Qed.

End termination.

Section fixpoint.
Context `{!HashOrder}.
Local Arguments dom_ne : simpl never.

Lemma elem_of_csp_arcs csp v c : (v, c) ∈ csp_arcs csp ↔ c ∈ constraints csp ∧ v ∈ scope c.
Proof.
  unfold csp_arcs. rewrite list_elem_of_bind. split.
  - intros (c' & Hin & Hc). apply list_elem_of_bind in Hin as (v' & Hin & Hv).
    apply list_elem_of_singleton in Hin. by simplify_eq.
  - intros [Hc Hv]. exists c. split; [|done]. apply list_elem_of_bind. exists v. split; [by left|done].
Qed.

Lemma ok_v2c csp D c u :
  csp_ok csp D → c ∈ constraints csp → u ∈ scope c →
  ∃ cs, var_to_const csp !! u = Some cs
        ∧ ∀ c', c' ∈ cs ↔ c' ∈ constraints csp ∧ u ∈ scope c'.
Proof.
  intros Hok Hc Hu. destruct (ok_v2c_some _ _ Hok c u Hc Hu) as [cs Hcs].
  exists cs. split; [done|]. by eapply ok_v2c_iff.
Qed.

Lemma csp_ok_shrinks csp D D' : shrinks D D' → csp_ok csp D → csp_ok csp D'.
Proof.
  intros Hs [H1 H2 H3 H4]. split; [|done..].
  intros c u Hc Hu. apply elem_of_dom. rewrite (shrinks_dom _ _ Hs). apply elem_of_dom. eauto.
Qed.

Lemma csp_ok_dom csp D D' : dom D' = dom D → csp_ok csp D → csp_ok csp D'.
Proof.
  intros Hs [H1 H2 H3 H4]. split; [|done..].
  intros c u Hc Hu. apply elem_of_dom. rewrite Hs. apply elem_of_dom. eauto.
Qed.

Lemma supported_agree D D' c v x :
  (∀ u y, u ∈ scope c → u ≠ v → in_dom D u y → in_dom D' u y) →
  supported D c v x → supported D' c v x.
Proof.
  intros Hag (f & Hv & Hin & Hd). exists f. split_and!; [done| |done].
  intros u Hu Hne. destruct (Hin u Hu Hne) as (y & Hy & Hdy). eauto.
Qed.

Lemma in_dom_insert_ne D v d u y : u ≠ v → in_dom (<[v := d]> D) u y ↔ in_dom D u y.
Proof. intros Hne. unfold in_dom. by rewrite lookup_insert_ne. Qed.

Lemma in_dom_insert_eq D v d y : in_dom (<[v := d]> D) v y ↔ y ∈ dom_vals d.
Proof. unfold in_dom. rewrite lookup_insert_eq. naive_solver. Qed.

Lemma dom_ne_false new d : dom_ne (DSet new) d = false ↔ d = DSet new.
Proof.
  destruct d as [l|s]; unfold dom_ne; [done|].
  rewrite bool_decide_eq_false. split; [intros ?%dec_stable; by subst | by intros [= ->]; auto].
Qed.

(** One revision step keeps the invariant: what is outside the work queue is
    settled. *)
Lemma arc_loop_inv csp : ∀ fuel D to_do,
  csp_ok csp D →
  (∀ a, a ∈ to_do → a ∈ csp_arcs csp) →
  (∀ a, a ∈ csp_arcs csp → a ∉ to_do → settled D a) →
  match arc_loop fuel csp D to_do with
  | Ret D' => ∀ a, a ∈ csp_arcs csp → settled D' a
  | Raise _ => False
  | Timeout => True
  end.
Proof.
  induction fuel as [|fuel IH]; intros D to_do Hok Hsub Hinv; simpl; [done|].
  destruct (set_truthy to_do) eqn:Ht; simpl.
  2:{ intros a Ha. apply Hinv; [done|]. apply set_truthy_spec in Ht. set_solver. }
  destruct (select_arc_spec to_do Ht) as ([v c] & -> & Ha). simpl.
  pose proof (Hsub _ Ha) as [Hc Hv]%elem_of_csp_arcs.
  destruct (ok_scope_dom _ _ Hok c v Hc Hv) as [d Hd].
  destruct (revise_spec D c v d Hd) as (new & -> & Hnew).
  { intros u Hu _. by eapply ok_scope_dom. }
  { by eapply ok_nodup. }
  simpl. rewrite (getitem_Some _ _ _ Hd). simpl.
  set (t := to_do ∖ {[(v, c)]}).
  destruct (dom_ne (DSet new) d) eqn:Hne.
  - destruct (ok_v2c _ _ _ _ Hok Hc Hv) as (cs & Hcs & Hcs').
    destruct (new_to_do_total csp v (Some c) cs Hcs) as [nt Hnt]. rewrite Hnt. simpl.
    apply new_to_do_spec in Hnt as (cs0 & Hcs0 & Hnt). rewrite Hcs in Hcs0. injection Hcs0 as <-.
    apply IH.
    + eapply csp_ok_dom; [|done]. rewrite dom_insert_L.
      assert (v ∈ dom D) by (apply elem_of_dom; eauto). set_solver.
    + intros [n c'] [Hin|[Hin _]%elem_of_difference]%elem_of_union.
      * apply Hsub. unfold t in Hin. set_solver.
      * apply Hnt in Hin as (Hc' & _ & Hn & _). apply elem_of_csp_arcs.
        apply Hcs' in Hc'. naive_solver.
    + intros [n c'] Harc Hnin.
      assert ((n, c') ∉ t) as Hnt1 by (intros ?; apply Hnin; set_solver).
      assert ((n, c') ∉ nt) as Hnt2 by (intros ?; apply Hnin; set_solver).
      apply elem_of_csp_arcs in Harc as [Hc' Hn].
      destruct (decide ((n, c') = (v, c))) as [[= -> ->]|Hneq].
      { split; simpl; [rewrite lookup_insert_eq; eauto|].
        intros x Hx%in_dom_insert_eq. simpl in Hx. apply Hnew in Hx as [_ Hx].
        eapply supported_agree; [|done]. intros u y _ Hu. by rewrite in_dom_insert_ne. }
      assert ((n, c') ∉ to_do) as Hout.
      { intros ?. apply Hnt1. unfold t. set_solver. }
      destruct (Hinv (n, c')) as [[s Hs] Hcons]; [by apply elem_of_csp_arcs|done|].
      simpl in *. destruct (decide (n = v)) as [->|Hnv].
      { split; simpl; [rewrite lookup_insert_eq; eauto|].
        intros x Hx%in_dom_insert_eq. simpl in Hx. apply Hnew in Hx as [Hx _].
        eapply supported_agree; [|apply Hcons; exists d; eauto].
        intros u y _ Hu. by rewrite in_dom_insert_ne. }
      split; simpl; [rewrite lookup_insert_ne by done; eauto|].
      intros x Hx%in_dom_insert_ne; [|done].
      destruct (Hcons x Hx) as (f & Hfn & Hfin & Hfd).
      exists f. split_and!; [done| |done].
      intros u Hu Hun. destruct (Hfin u Hu Hun) as (y & Hfy & Hy).
      exists y. split; [done|].
      destruct (decide (u = v)) as [->|Huv]; [|by rewrite in_dom_insert_ne].
      apply in_dom_insert_eq. simpl.
      destruct (decide (c' = c)) as [->|Hcc].
      * apply Hnew. destruct Hy as (d' & Hd' & Hy). simpl in *.
        assert (d' = d) as -> by congruence.
        split; [done|]. exists f. split_and!; [done| |done].
        intros w Hw Hwv. destruct (decide (w = n)) as [->|Hwn]; [eauto|].
        by apply Hfin.
      * exfalso. apply Hnt2, Hnt. split_and!; [|congruence|done..].
        apply Hcs'. done.
  - apply dom_ne_false in Hne as ->.
    apply IH; [done| |].
    + intros a Hin. apply Hsub. unfold t in Hin. set_solver.
    + intros [n c'] Harc Hnin.
      destruct (decide ((n, c') = (v, c))) as [[= -> ->]|Hneq].
      * split; simpl; [eauto|]. intros x (d' & Hd' & Hx). simpl in *.
        assert (d' = DSet new) as -> by congruence.
        by apply Hnew in Hx as [_ Hx].
      * apply Hinv; [done|]. intros ?. apply Hnin. unfold t. set_solver.
Qed.

(** Once every arc is settled, the loop changes nothing. *)
Lemma arc_loop_settled csp : ∀ fuel D to_do,
  csp_ok csp D →
  (∀ a, a ∈ to_do → a ∈ csp_arcs csp) →
  (∀ a, a ∈ csp_arcs csp → settled D a) →
  size to_do < fuel →
  arc_loop fuel csp D to_do = Ret D.
Proof.
  induction fuel as [|fuel IH]; intros D to_do Hok Hsub Hall Hlt; [lia|]. simpl.
  destruct (set_truthy to_do) eqn:Ht; simpl; [|done].
  destruct (select_arc_spec to_do Ht) as ([v c] & -> & Ha). simpl.
  pose proof (Hsub _ Ha) as Harc. pose proof Harc as [Hc Hv]%elem_of_csp_arcs.
  destruct (Hall _ Harc) as [[s Hd] Hcons]. simpl in *.
  destruct (revise_spec D c v (DSet s) Hd) as (new & -> & Hnew).
  { intros u Hu _. by eapply ok_scope_dom. }
  { by eapply ok_nodup. }
  simpl. rewrite (getitem_Some _ _ _ Hd). simpl.
  assert (new = s) as ->.
  { apply set_eq. intros x. rewrite Hnew. simpl. split; [naive_solver|].
    intros Hx. split; [done|]. apply Hcons. exists (DSet s). eauto. }
  rewrite (proj2 (dom_ne_false s (DSet s))) by done.
  apply IH; [done| |done|].
  - intros a Hin. apply Hsub. set_solver.
  - assert (size (to_do ∖ {[(v, c)]}) + 1 = size to_do); [|lia].
    rewrite size_difference by set_solver. rewrite size_singleton.
    assert (size ({[(v, c)]} : pyset arc) ≤ size to_do); [apply subseteq_size; set_solver|].
    rewrite size_singleton in *. lia.
Qed.

End fixpoint.

Section search.
Context `{!HashOrder}.
Local Arguments dom_ne : simpl never.

Lemma partition_domain_spec (s : gset Z) :
  ∃ s1 s2, partition_domain (DSet s) = Ret (DSet s1, DSet s2)
    ∧ s1 ⊆ s ∧ s2 ⊆ s ∧ s1 ## s2 ∧ s1 ∪ s2 = s
    ∧ size s1 = size s `div` 2 ∧ size s2 = size s - size s `div` 2.
Proof.
  set (s1 := list_to_set (take (size s `div` 2) (set_iter s)) : gset Z).
  exists s1, (s ∖ s1). split; [done|].
  assert (s1 ⊆ s) as Hsub.
  { intros x. unfold s1. rewrite elem_of_list_to_set. intros (i & Hi & _)%elem_of_take.
    apply elem_of_set_iter, list_elem_of_lookup. eauto. }
  assert (size s1 = size s `div` 2) as Hsz.
  { unfold s1. rewrite size_list_to_set.
    - rewrite length_take, length_set_iter. apply Nat.min_l, Nat.Div0.div_le_upper_bound. lia.
    - eapply sublist_NoDup; [apply (NoDup_set_iter s)|apply sublist_take]. }
  clearbody s1. split_and!; [done|set_solver|set_solver| |done|].
  - apply set_eq. intros x. rewrite elem_of_union, elem_of_difference.
    destruct (decide (x ∈ s1)); naive_solver.
  - rewrite size_difference by done. lia.
Qed.

Lemma partition_domain_Ret d d1 d2 :
  partition_domain d = Ret (d1, d2) →
  ∃ s s1 s2, d = DSet s ∧ d1 = DSet s1 ∧ d2 = DSet s2 ∧ s1 ⊆ s ∧ s2 ⊆ s
    ∧ size s1 = size s `div` 2 ∧ size s2 = size s - size s `div` 2.
Proof.
  destruct d as [l|s]; [done|]. intros Hp.
  destruct (partition_domain_spec s) as (s1 & s2 & Hp' & ? & ? & _ & _ & ? & ?).
  rewrite Hp in Hp'. injection Hp' as -> ->. naive_solver.
Qed.

Lemma partition_domain_no_timeout d : partition_domain d ≠ Timeout.
Proof. by destruct d. Qed.

Lemma select_most_constrained_var_Some csp gen v :
  select_most_constrained_var csp gen = Ret (Some v) → ∃ rest, gen = v :: rest.
Proof.
  destruct gen as [|w rest]; simpl; [done|]. intros Hs. inv_ret.
  case_decide; simplify_eq/=. eauto.
Qed.

Lemma py_min_no_timeout l : py_min l ≠ Timeout.
Proof. by destruct l. Qed.

Lemma select_most_constrained_var_no_timeout csp gen :
  select_most_constrained_var csp gen ≠ Timeout.
Proof.
  destruct gen as [|w rest]; simpl; [done|].
  apply bind_not_Timeout; [apply getitem_no_timeout|]. intros d _.
  apply bind_not_Timeout.
  { apply py_map_no_timeout. intros x. unfold fmap, outcome_fmap.
    pose proof (getitem_no_timeout (domains csp) x). by destruct (getitem _ _). }
  intros lens _. apply bind_not_Timeout; [apply py_min_no_timeout|done].
Qed.

(** Narrowing the domain of [v] leaves settled every arc that
    [new_to_do(v, None)] does not list. *)
Lemma settled_narrow Dn v s s1 n c :
  Dn !! v = Some (DSet s) → s1 ⊆ s →
  settled Dn (n, c) → (n = v ∨ v ∉ scope c) →
  settled (<[v := DSet s1]> Dn) (n, c).
Proof.
  intros Hv Hsub [[sn Hn] Hcons] Hcase. simpl in *.
  destruct (decide (n = v)) as [->|Hnv].
  - split; simpl; [rewrite lookup_insert_eq; eauto|].
    intros x Hx%in_dom_insert_eq. simpl in Hx.
    eapply supported_agree; [|apply Hcons; exists (DSet s); split; [done|by apply Hsub]].
    intros u y _ Hu. by rewrite in_dom_insert_ne.
  - destruct Hcase as [?|Hvc]; [done|].
    split; simpl; [rewrite lookup_insert_ne by done; eauto|].
    intros x Hx%in_dom_insert_ne; [|done].
    eapply supported_agree; [|by apply Hcons]. simpl.
    intros u y Hu _. rewrite in_dom_insert_ne; [done|]. by intros ->.
Qed.

Lemma in_dom_shrinks D D' v x : shrinks D D' → in_dom D' v x → in_dom D v x.
Proof.
  intros Hs (d' & Hd' & Hx). specialize (Hs v). rewrite Hd' in Hs.
  destruct Hs as (d & Hd & Hle). exists d. split; [done|]. by apply (dom_le_vals _ _ Hle).
Qed.

Lemma is_solution_shrinks csp D D' a : shrinks D D' → is_solution csp D' a → is_solution csp D a.
Proof.
  intros Hs (Hdom & Hv & Hc). pose proof (shrinks_dom _ _ Hs) as Hd.
  split_and!; [congruence| |done].
  intros v Hin. rewrite <-Hd in Hin. destruct (Hv v Hin) as (x & ? & ?).
  exists x. split; [done|]. by eapply in_dom_shrinks.
Qed.

Lemma dom_len_1 d : dom_len d = 1 → ∃ x, dom_iter d = [x] ∧ dom_vals d = {[x]}.
Proof.
  intros Hl.
  assert (length (dom_iter d) = 1) as Hlen.
  { destruct d; simpl in *; [done|]. by rewrite length_set_iter. }
  destruct (dom_iter d) as [|x [|??]] eqn:E; simplify_eq/=.
  exists x. split; [done|]. apply set_eq. intros y.
  rewrite <-elem_of_dom_iter, E. set_solver.
Qed.

Lemma make_arc_consistent_unfold fuel csp D to_do :
  make_arc_consistent fuel csp D to_do
  = arc_loop fuel csp (default (domains csp) D) (queue csp to_do).
Proof. by destruct to_do. Qed.

Lemma keys_lookup (D : gmap var domain) v : v ∈ (map_to_list D).*1 ↔ v ∈ dom D.
Proof.
  rewrite elem_of_dom, list_elem_of_fmap. split.
  - intros ([v' d] & -> & Hin%elem_of_map_to_list). eauto.
  - intros [d Hd]. exists (v, d). split; [done|]. by apply elem_of_map_to_list.
Qed.

Lemma solve_sound csp : ∀ fuel doms to_do a,
  let D := default (domains csp) doms in
  csp_ok csp D →
  (∀ arc, arc ∈ queue csp to_do → arc ∈ csp_arcs csp) →
  (∀ arc, arc ∈ csp_arcs csp → arc ∉ queue csp to_do → settled D arc) →
  solve_recursive_ds fuel csp doms to_do = Ret (ADict a) →
  is_solution csp D a.
Proof.
  induction fuel as [|fuel IH]; intros doms to_do a D Hok Hq Hinv Hs; [done|].
  simpl in Hs. fold D in Hs.
  rewrite make_arc_consistent_unfold in Hs. simpl in Hs.
  pose proof (arc_loop_inv csp fuel D (queue csp to_do) Hok Hq Hinv) as Hfix.
  destruct (arc_loop fuel csp D (queue csp to_do)) as [Dn| |] eqn:Hloop; [|done..].
  simpl in Hs. pose proof (arc_loop_shrinks _ _ _ _ _ Hloop) as Hsh.
  pose proof (shrinks_dom _ _ Hsh) as Hdom.
  apply bind_Ret in Hs as (some_empty & Hany & Hs).
  destruct some_empty; [done|].
  apply bind_Ret in Hs as (all_single & Hall & Hs).
  destruct all_single.
  - apply bind_Ret in Hs as (items & Hitems & Hs). injection Hs as <-.
    eapply is_solution_shrinks; [done|].
    assert (∀ v, v ∈ dom Dn → ∃ d x, Dn !! v = Some d ∧ dom_iter d = [x] ∧ dom_vals d = {[x]})
      as Hsingle.
    { intros v Hv. apply elem_of_dom in Hv as [d Hd]. exists d.
      assert (dom_len d = 1) as Hl.
      { erewrite (py_all_pure _ (λ v, match Dn !! v with
                                        | Some d => bool_decide (dom_len d = 1)
                                        | None => false end)) in Hall.
        - injection Hall as Hall. rewrite forallb_forall in Hall.
          specialize (Hall v). rewrite Hd in Hall.
          apply (bool_decide_eq_true_1 (dom_len d = 1)), Hall.
          apply list_elem_of_In, keys_lookup. rewrite <-Hdom. apply elem_of_dom. eauto.
        - intros u Hu%keys_lookup. rewrite <-Hdom in Hu. apply elem_of_dom in Hu as [du Hdu].
          by rewrite (getitem_Some _ _ _ Hdu), Hdu. }
      destruct (dom_len_1 d Hl) as (x & ? & ?). eauto. }
    set (pick := λ v : var, match Dn !! v with
                            | Some d => select_first (dom_iter d)
                            | None => None
                            end).
    erewrite (py_map_pure _ (λ v, (v, pick v))) in Hitems.
    2:{ intros u Hu%keys_lookup. rewrite <-Hdom in Hu. apply elem_of_dom in Hu as [du Hdu].
        unfold pick. by rewrite (getitem_Some _ _ _ Hdu), Hdu. }
    injection Hitems as <-.
    assert (∀ v, v ∈ dom Dn →
              (list_to_map ((λ v, (v, pick v)) <$> (map_to_list D).*1) : gmap var (option Z))
              !! v = Some (pick v)) as Hlook.
    { intros v Hv. apply elem_of_list_to_map_1.
      - rewrite <-list_fmap_compose. simpl. rewrite list_fmap_id.
        apply NoDup_fst_map_to_list.
      - apply list_elem_of_fmap. exists v. split; [done|]. apply keys_lookup. by rewrite <-Hdom. }
    split_and!.
    + apply set_eq. intros v. split.
      * intros [o Ho]%elem_of_dom. apply elem_of_list_to_map_2, list_elem_of_fmap in Ho
          as (v' & [= <- _] & Hin). apply keys_lookup in Hin. by rewrite Hdom.
      * intros Hv. apply elem_of_dom. rewrite Hlook by done. eauto.
    + intros v Hv. rewrite Hlook by done.
      destruct (Hsingle v Hv) as (d & x & Hd & Hi & Hvls). unfold pick. rewrite Hd, Hi. simpl.
      exists x. split; [done|]. exists d. split; [done|]. rewrite Hvls. set_solver.
    + intros c p1 p2 Hc H1 H2 Hne.
      destruct (ok_scope_dom _ _ (csp_ok_shrinks _ _ _ Hsh Hok) c p1 Hc H1) as [d1 Hd1].
      destruct (ok_scope_dom _ _ (csp_ok_shrinks _ _ _ Hsh Hok) c p2 Hc H2) as [d2 Hd2].
      assert (p1 ∈ dom Dn) as Hp1 by (apply elem_of_dom; eauto).
      assert (p2 ∈ dom Dn) as Hp2 by (apply elem_of_dom; eauto).
      rewrite !Hlook by done.
      destruct (Hsingle p1 Hp1) as (d1' & x1 & Hd1' & Hi1 & Hv1).
      destruct (Hsingle p2 Hp2) as (d2' & x2 & Hd2' & Hi2 & Hv2).
      unfold pick. rewrite Hd1', Hd2', Hi1, Hi2. simpl. intros [= ->].
      destruct (Hfix (p1, c)) as [_ Hcons]; [by apply elem_of_csp_arcs|].
      destruct (Hcons x2) as (f & Hf1 & Hfin & Hfd).
      { exists d1'. split; [done|]. rewrite Hv1. set_solver. }
      simpl in *. destruct (Hfin p2 H2) as (y & Hfy & (d & Hd & Hy)); [done|].
      assert (d = d2') as -> by congruence. rewrite Hv2 in Hy.
      apply elem_of_singleton in Hy as ->.
      apply (Hfd p1 p2); [done..|congruence].
  - apply bind_Ret in Hs as (gen & Hgen & Hs).
    apply bind_Ret in Hs as (sel & Hsel & Hs).
    destruct sel as [v|]; [|done].
    apply bind_Ret in Hs as (d & Hd & Hs). apply getitem_Ret in Hd.
    apply bind_Ret in Hs as ([dom1 dom2] & Hpart & Hs).
    apply bind_Ret in Hs as (nt & Hnt & Hs).
    apply partition_domain_Ret in Hpart as (s & s1 & s2 & -> & -> & -> & Hs1 & Hs2 & _ & _).
    pose proof (csp_ok_shrinks _ _ _ Hsh Hok) as Hokn.
    apply new_to_do_spec in Hnt as (cs & Hcs & Hnt).
    assert (∀ s', s' ⊆ s →
      csp_ok csp (<[v := DSet s']> Dn)
      ∧ shrinks D (<[v := DSet s']> Dn)
      ∧ (∀ arc, arc ∈ csp_arcs csp → arc ∉ nt → settled (<[v := DSet s']> Dn) arc)) as Hchild.
    { intros s' Hs'. split_and!.
      - eapply csp_ok_dom; [|done]. rewrite dom_insert_L.
        assert (v ∈ dom Dn) by (apply elem_of_dom; eauto). set_solver.
      - eapply shrinks_trans; [done|]. eapply shrinks_insert; [done|]. right. eauto.
      - intros [n c] Harc Hnin. eapply settled_narrow; [done..|by apply Hfix|].
        destruct (decide (n = v)) as [|Hnv]; [by left|]. right. intros Hvc.
        apply Hnin, Hnt. apply elem_of_csp_arcs in Harc as [Hc Hn].
        destruct (ok_v2c _ _ _ _ Hokn Hc Hvc) as (cs' & Hcs' & Hiff).
        assert (cs' = cs) as -> by congruence.
        split_and!; [by apply Hiff|done..]. }
    assert (∀ arc, arc ∈ nt → arc ∈ csp_arcs csp) as Hntsub.
    { intros [n c] (Hc & _ & Hn & _)%Hnt. apply elem_of_csp_arcs.
      apply (ok_v2c_iff _ _ Hokn v cs Hcs) in Hc as [Hc _]. done. }
    apply bind_Ret in Hs as (r1 & Hr1 & Hs).
    destruct (truthy r1) eqn:Ht.
    + injection Hs as ->.
      destruct (Hchild s1 Hs1) as (Hok1 & Hsh1 & Hinv1).
      eapply is_solution_shrinks; [exact Hsh1|].
      pose proof (IH (Some (<[v := DSet s1]> Dn)) (Some nt) a) as IH1. simpl in IH1.
      by apply IH1.
    + destruct (Hchild s2 Hs2) as (Hok2 & Hsh2 & Hinv2).
      eapply is_solution_shrinks; [exact Hsh2|].
      pose proof (IH (Some (<[v := DSet s2]> Dn)) (Some nt) a) as IH2. simpl in IH2.
      by apply IH2.
Qed.

End search.

Section search_termination.
Context `{!HashOrder}.

Lemma solve_recursive_ds_unfold fuel csp doms to_do :
  solve_recursive_ds (S fuel) csp doms to_do
  = make_arc_consistent fuel csp (Some (default (domains csp) doms)) to_do
      ≫= solve_rest (λ D t, solve_recursive_ds fuel csp (Some D) (Some t))
            csp (default (domains csp) doms).
Proof. reflexivity. Qed.

(** After propagation the body either finishes without recursion, or splits a
    set domain of at least two values and recurses on the two halves. *)
Lemma solve_rest_cases csp D Dn :
  (∃ r, r ≠ Timeout ∧ ∀ recurse, solve_rest recurse csp D Dn = r)
  ∨ (∃ v s s1 s2 nt,
        Dn !! v = Some (DSet s) ∧ 1 < size s
        ∧ partition_domain (DSet s) = Ret (DSet s1, DSet s2)
        ∧ new_to_do csp v None = Ret nt
        ∧ ∀ recurse, solve_rest recurse csp D Dn
            = (recurse (<[v := DSet s1]> Dn) nt
                 ≫= λ r1, if truthy r1 then Ret r1 else recurse (<[v := DSet s2]> Dn) nt)).
Proof.
  unfold solve_rest.
  destruct (py_any _ _) as [some_empty| |] eqn:Hany; simpl.
  2:{ left. eexists. split; [|done]. done. }
  2:{ exfalso. revert Hany. apply py_any_no_timeout. intros x.
      apply bind_not_Timeout; [apply getitem_no_timeout|done]. }
  destruct some_empty; [left; eexists; split; [|done]; done|].
  destruct (py_all _ _) as [all_single| |] eqn:Hall; simpl.
  2:{ left. eexists. split; [|done]. done. }
  2:{ exfalso. revert Hall. apply py_all_no_timeout. intros x.
      apply bind_not_Timeout; [apply getitem_no_timeout|done]. }
  destruct all_single.
  { destruct (py_map _ _) as [items| |] eqn:Hitems; simpl.
    - left; eexists; split; [|done]; done.
    - left; eexists; split; [|done]; done.
    - exfalso. revert Hitems. apply py_map_no_timeout. intros x.
      apply bind_not_Timeout; [apply getitem_no_timeout|done]. }
  destruct (py_filter _ _) as [gen| |] eqn:Hgen; simpl.
  2:{ left. eexists. split; [|done]. done. }
  2:{ exfalso. revert Hgen. apply py_filter_no_timeout. intros x.
      apply bind_not_Timeout; [apply getitem_no_timeout|done]. }
  destruct (select_most_constrained_var csp gen) as [[v|]| |] eqn:Hsel; simpl.
  2:{ left. eexists. split; [|done]. done. }
  2:{ left. eexists. split; [|done]. done. }
  2:{ exfalso. by eapply select_most_constrained_var_no_timeout. }
  apply select_most_constrained_var_Some in Hsel as [rest ->].
  assert (v ∈ v :: rest) as Hv by left.
  apply (py_filter_elem _ _ _ _ Hgen) in Hv as [_ Hv].
  apply bind_Ret in Hv as (d & Hd & Hlen). rewrite Hd. simpl.
  apply getitem_Ret in Hd.
  injection Hlen as Hlen. apply bool_decide_eq_true in Hlen.
  destruct d as [l|s].
  { left. exists (Raise TypeError). split; [done|]. by intros. }
  destruct (partition_domain_spec s) as (s1 & s2 & Hp & _). rewrite Hp. simpl.
  destruct (new_to_do csp v None) as [nt| |] eqn:Hnt; simpl.
  - right. exists v, s, s1, s2, nt. done.
  - left. eexists. split; [|done]. done.
  - exfalso. by eapply new_to_do_no_timeout.
Qed.

Lemma make_arc_consistent_fuel_mono csp n m D to_do r :
  make_arc_consistent n csp D to_do = r → r ≠ Timeout → n ≤ m →
  make_arc_consistent m csp D to_do = r.
Proof. rewrite !make_arc_consistent_unfold. apply arc_loop_fuel_mono. Qed.

Lemma solve_fuel_mono csp : ∀ n m doms to_do r,
  solve_recursive_ds n csp doms to_do = r → r ≠ Timeout → n ≤ m →
  solve_recursive_ds m csp doms to_do = r.
Proof.
  induction n as [|n IH]; intros m doms to_do r Hr Hne Hle; [simpl in Hr; congruence|].
  destruct m as [|m]; [lia|].
  rewrite solve_recursive_ds_unfold in *.
  destruct (make_arc_consistent n csp _ to_do) as [Dn| |] eqn:Hmac; simpl in Hr; [| |congruence].
  2:{ erewrite make_arc_consistent_fuel_mono; [|done|done|lia]. done. }
  erewrite make_arc_consistent_fuel_mono; [|done|done|lia]. simpl.
  destruct (solve_rest_cases csp (default (domains csp) doms) Dn)
    as [(r' & _ & Hr')|(v & s & s1 & s2 & nt & _ & _ & _ & _ & Hrest)].
  - rewrite Hr' in Hr. by rewrite Hr'.
  - rewrite Hrest in Hr. rewrite Hrest.
    destruct (solve_recursive_ds n csp (Some (<[v := DSet s1]> Dn)) (Some nt)) as [r1| |] eqn:H1;
      simpl in Hr; [| |congruence].
    + rewrite (IH m _ _ (Ret r1) H1); [|done|lia]. simpl.
      destruct (truthy r1); [done|]. apply IH; [done..|lia].
    + rewrite (IH m _ _ (Raise e) H1); [|done|lia]. done.
Qed.

Lemma solve_terminates csp : ∀ k doms to_do,
  mu (default (domains csp) doms) ≤ k →
  ∃ n, ∀ fuel, n ≤ fuel → solve_recursive_ds fuel csp doms to_do ≠ Timeout.
Proof.
  induction k as [k IH] using lt_wf_ind. intros doms to_do Hk.
  set (D := default (domains csp) doms) in *.
  destruct (make_arc_consistent_terminates csp (Some D) to_do) as [n0 Hn0].
  destruct (make_arc_consistent n0 csp (Some D) to_do) as [Dn|e|] eqn:Hmac.
  3:{ by destruct (Hn0 n0). }
  2:{ exists (S n0). intros [|f] Hle; [lia|]. rewrite solve_recursive_ds_unfold. fold D.
      erewrite make_arc_consistent_fuel_mono; [|done|done|lia]. done. }
  destruct (solve_rest_cases csp D Dn)
    as [(r' & Hne & Hr')|(v & s & s1 & s2 & nt & Hv & Hsz & Hp & Hnt & Hrest)].
  - exists (S n0). intros [|f] Hle; [lia|]. rewrite solve_recursive_ds_unfold. fold D.
    erewrite make_arc_consistent_fuel_mono; [|done|done|lia]. simpl. by rewrite Hr'.
  - pose proof Hmac as Hmu. rewrite make_arc_consistent_unfold in Hmu. apply arc_loop_mu in Hmu.
    simpl in Hmu. fold D in Hmu.
    destruct (partition_domain_spec s) as (s1' & s2' & Hp' & _ & _ & _ & _ & Hz1 & Hz2).
    rewrite Hp in Hp'. injection Hp' as <- <-.
    pose proof (mu_insert Dn v (DSet s) (DSet s1) Hv) as Hm1.
    pose proof (mu_insert Dn v (DSet s) (DSet s2) Hv) as Hm2. simpl in Hm1, Hm2.
    assert (size s `div` 2 < size s) by (apply Nat.div_lt; lia).
    assert (0 < size s `div` 2) by (apply Nat.div_str_pos; lia).
    destruct (IH (mu (<[v := DSet s1]> Dn))) with (doms := Some (<[v := DSet s1]> Dn))
      (to_do := Some nt) as [n1 Hn1]; [lia|done|].
    destruct (IH (mu (<[v := DSet s2]> Dn))) with (doms := Some (<[v := DSet s2]> Dn))
      (to_do := Some nt) as [n2 Hn2]; [lia|done|].
    exists (S (n0 `max` (n1 `max` n2))). intros [|f] Hle; [lia|].
    rewrite solve_recursive_ds_unfold. fold D.
    erewrite make_arc_consistent_fuel_mono; [|done|done|lia]. simpl. rewrite Hrest.
    apply bind_not_Timeout; [apply Hn1; lia|]. intros r1 _.
    destruct (truthy r1); [done|]. apply Hn2. lia.
Qed.

End search_termination.

Section csp_init.
Context `{!HashOrder}.

Lemma register_scope (con : Constraint) : ∀ sc (m m' : gmap var (pyset Constraint)),
  py_for (λ m var, s ← getitem m var; Ret (<[var := s ∪ {[con]}]> m)) sc m = Ret m' →
  dom m' = dom m
  ∧ (∀ u, u ∈ sc → u ∈ dom m)
  ∧ ∀ u cs, m !! u = Some cs →
      ∃ cs', m' !! u = Some cs' ∧ ∀ c, c ∈ cs' ↔ c ∈ cs ∨ (c = con ∧ u ∈ sc).
Proof.
  induction sc as [|w sc IH]; intros m m' Hm; simpl in Hm.
  - injection Hm as <-. split_and!; [done| |].
    + intros u Hu. by apply not_elem_of_nil in Hu.
    + intros u cs Hu. exists cs. split; [done|]. intros c. split; [auto|].
      intros [?|[_ Hn]]; [done|]. by apply not_elem_of_nil in Hn.
  - apply bind_Ret in Hm as (m1 & Hm1 & Hm).
    apply bind_Ret in Hm1 as (s & Hs & Hm1). apply getitem_Ret in Hs. injection Hm1 as <-.
    apply IH in Hm as (Hdom & Hin & Hcs).
    assert (w ∈ dom m) as Hw by (apply elem_of_dom; eauto).
    rewrite dom_insert_L in Hdom, Hin.
    split_and!.
    + set_solver.
    + intros u [->|Hu]%elem_of_cons; [done|]. specialize (Hin u Hu). set_solver.
    + intros u cs Hu. destruct (decide (u = w)) as [->|Hne].
      * assert (cs = s) as -> by congruence.
        destruct (Hcs w (s ∪ {[con]})) as (cs' & Hcs' & Hiff); [apply lookup_insert_eq|].
        exists cs'. split; [done|]. intros c. rewrite Hiff. set_solver.
      * destruct (Hcs u cs) as (cs' & Hcs' & Hiff); [by rewrite lookup_insert_ne|].
        exists cs'. split; [done|]. intros c. rewrite Hiff. set_solver.
Qed.

Lemma register_scope_total (con : Constraint) : ∀ sc (m : gmap var (pyset Constraint)),
  (∀ u, u ∈ sc → u ∈ dom m) →
  ∃ m', py_for (λ m var, s ← getitem m var; Ret (<[var := s ∪ {[con]}]> m)) sc m = Ret m'.
Proof.
  induction sc as [|w sc IH]; intros m Hin; simpl; [eauto|].
  assert (w ∈ dom m) as [s Hs]%elem_of_dom by (apply Hin; left).
  rewrite (getitem_Some _ _ _ Hs). simpl. apply IH.
  intros u Hu. rewrite dom_insert_L. specialize (Hin u). set_solver.
Qed.

Lemma register_all : ∀ cons (m m' : gmap var (pyset Constraint)),
  py_for (λ m con,
            py_for (λ m var, s ← getitem m var; Ret (<[var := s ∪ {[con]}]> m)) (scope con) m)
         cons m = Ret m' →
  dom m' = dom m
  ∧ (∀ c u, c ∈ cons → u ∈ scope c → u ∈ dom m)
  ∧ ∀ u cs, m !! u = Some cs →
      ∃ cs', m' !! u = Some cs' ∧ ∀ c, c ∈ cs' ↔ c ∈ cs ∨ (c ∈ cons ∧ u ∈ scope c).
Proof.
  induction cons as [|con cons IH]; intros m m' Hm; simpl in Hm.
  - injection Hm as <-. split_and!; [done| |].
    + intros c u Hc. by apply not_elem_of_nil in Hc.
    + intros u cs Hu. exists cs. split; [done|]. intros c. split; [auto|].
      intros [?|[Hn _]]; [done|]. by apply not_elem_of_nil in Hn.
  - apply bind_Ret in Hm as (m1 & Hm1 & Hm).
    apply register_scope in Hm1 as (Hdom1 & Hin1 & Hcs1).
    apply IH in Hm as (Hdom & Hin & Hcs).
    split_and!.
    + congruence.
    + intros c u [->|Hc]%elem_of_cons Hu; [by apply Hin1|]. rewrite <-Hdom1. by eapply Hin.
    + intros u cs Hu. destruct (Hcs1 u cs Hu) as (cs1 & Hu1 & Hiff1).
      destruct (Hcs u cs1 Hu1) as (cs' & Hu' & Hiff).
      exists cs'. split; [done|]. intros c. rewrite Hiff, Hiff1, elem_of_cons. naive_solver.
Qed.

Lemma register_all_total : ∀ cons (m : gmap var (pyset Constraint)),
  (∀ c u, c ∈ cons → u ∈ scope c → u ∈ dom m) →
  ∃ m', py_for (λ m con,
                  py_for (λ m var, s ← getitem m var; Ret (<[var := s ∪ {[con]}]> m))
                         (scope con) m)
               cons m = Ret m'.
Proof.
  induction cons as [|con cons IH]; intros m Hin; simpl; [eauto|].
  destruct (register_scope_total con (scope con) m) as [m1 Hm1].
  { intros u Hu. apply (Hin con); [left|done]. }
  rewrite Hm1. simpl. apply IH. intros c u Hc Hu.
  apply register_scope in Hm1 as (-> & _). apply (Hin c); [by right|done].
Qed.

Lemma CSP_init_spec D cons csp :
  CSP_init D cons = Ret csp →
  variables csp = dom D ∧ domains csp = D ∧ constraints csp = cons
  ∧ (∀ c u, c ∈ cons → u ∈ scope c → u ∈ dom D)
  ∧ dom (var_to_const csp) = dom D
  ∧ (∀ u cs, var_to_const csp !! u = Some cs → ∀ c, c ∈ cs ↔ c ∈ cons ∧ u ∈ scope c).
Proof.
  unfold CSP_init. intros Hi. apply bind_Ret in Hi as (v2c & Hv & Hi). injection Hi as <-. simpl.
  apply register_all in Hv as (Hdom & Hin & Hcs). rewrite dom_gset_to_gmap in Hdom, Hin.
  split_and!; [done..|].
  intros u cs Hu. assert (u ∈ dom D) as HuD.
  { rewrite <-Hdom. apply elem_of_dom. eauto. }
  destruct (Hcs u ∅) as (cs' & Hu' & Hiff).
  { apply lookup_gset_to_gmap_Some. done. }
  assert (cs' = cs) as -> by congruence. intros c. rewrite Hiff. set_solver.
Qed.

Lemma CSP_init_total D cons :
  (∀ c u, c ∈ cons → u ∈ scope c → u ∈ dom D) → ∃ csp, CSP_init D cons = Ret csp.
Proof.
  intros Hin. unfold CSP_init.
  destruct (register_all_total cons (gset_to_gmap ∅ (dom D))) as [m Hm].
  { intros c u Hc Hu. rewrite dom_gset_to_gmap. by eapply Hin. }
  rewrite Hm. simpl. eauto.
Qed.

Lemma CSP_init_ok D cons csp D' :
  CSP_init D cons = Ret csp →
  (∀ c, c ∈ cons → NoDup (scope c)) →
  dom D' = dom D →
  csp_ok csp D'.
Proof.
  intros (Hv & Hd & Hcons & Hin & Hdom & Hcs)%CSP_init_spec Hnd HD'.
  split; rewrite ?Hcons.
  - intros c u Hc Hu. apply elem_of_dom. rewrite HD'. by eapply Hin.
  - done.
  - intros c u Hc Hu. apply elem_of_dom. rewrite Hdom. by eapply Hin.
  - intros u cs Hu c. by apply Hcs.
Qed.

End csp_init.

Section adapter.
Context `{!HashOrder}.

Lemma elem_of_positions puzzle r c x :
  ((r, c), x) ∈ Sudoku.positions puzzle
  ↔ ∃ row, puzzle !! r = Some row ∧ row !! c = Some x.
Proof.
  unfold Sudoku.positions. rewrite list_elem_of_join. split.
  - intros (l & Hin & Hl). apply elem_of_lookup_imap in Hl as (r' & row & -> & Hrow).
    apply elem_of_lookup_imap in Hin as (c' & x' & [= -> -> ->] & Hx). eauto.
  - intros (row & Hrow & Hx). eexists. split; [|by eapply elem_of_lookup_imap_2].
    by apply (elem_of_lookup_imap_2 (λ c x, ((r, c), x))).
Qed.

Lemma init_fold_unchanged (l : list (var * Z)) : ∀ (m : gmap var domain) k,
  (∀ x, (k, x) ∈ l → x = 0%Z) →
  foldl (λ domains (px : var * Z),
           if decide (px.2 ≠ 0%Z) then <[px.1 := DList [px.2]]> domains else domains) m l !! k
  = m !! k.
Proof.
  induction l as [|[k' x'] l IH]; intros m k Hz; simpl; [done|].
  rewrite IH by (intros; apply Hz; by right).
  case_decide as Hx; [|done]. apply lookup_insert_ne. intros ->.
  apply Hx, (Hz x'). left.
Qed.

Lemma init_fold_given (l : list (var * Z)) : ∀ (m : gmap var domain) k x,
  (k, x) ∈ l → x ≠ 0%Z → (∀ y, (k, y) ∈ l → y = x) →
  foldl (λ domains (px : var * Z),
           if decide (px.2 ≠ 0%Z) then <[px.1 := DList [px.2]]> domains else domains) m l !! k
  = Some (DList [x]).
Proof.
  induction l as [|[k' x'] l IH]; intros m k x Hin Hx Hfun; simpl.
  { by apply not_elem_of_nil in Hin. }
  destruct (decide ((k, x) ∈ l)) as [Hl|Hl].
  - apply IH; [done..|]. intros y Hy. apply Hfun. by right.
  - apply elem_of_cons in Hin as [[= <- <-]|?]; [|done].
    rewrite init_fold_unchanged.
    + rewrite decide_True by done. apply lookup_insert_eq.
    + intros y Hy. exfalso. apply Hl. rewrite <-(Hfun y); [done|by right].
Qed.

Lemma init_domains_lookup puzzle r c :
  Sudoku.init_domains puzzle !! (r, c)
  = row ← puzzle !! r; x ← row !! c;
    Some (if decide (x ≠ 0%Z) then DList [x] else DList (seqZ 1 9)).
Proof.
  unfold Sudoku.init_domains.
  destruct (puzzle !! r) as [row|] eqn:Hrow; simpl.
  2:{ rewrite init_fold_unchanged.
      - apply not_elem_of_list_to_map_1. intros (px & Hk & Hin)%list_elem_of_fmap.
        apply list_elem_of_fmap in Hin as ([[r' c'] x] & -> & Hin). simpl in Hk. injection Hk as <- <-.
        apply elem_of_positions in Hin as (? & ? & ?). congruence.
      - intros x (? & ? & ?)%elem_of_positions. congruence. }
  destruct (row !! c) as [x|] eqn:Hx; simpl.
  2:{ rewrite init_fold_unchanged.
      - apply not_elem_of_list_to_map_1. intros (px & Hk & Hin)%list_elem_of_fmap.
        apply list_elem_of_fmap in Hin as ([[r' c'] x] & -> & Hin). simpl in Hk. injection Hk as <- <-.
        apply elem_of_positions in Hin as (? & ? & ?). congruence.
      - intros x (? & ? & ?)%elem_of_positions. congruence. }
  assert (((r, c), x) ∈ Sudoku.positions puzzle) as Hin by (apply elem_of_positions; eauto).
  assert (∀ y, ((r, c), y) ∈ Sudoku.positions puzzle → y = x) as Hfun.
  { intros y (? & ? & ?)%elem_of_positions. congruence. }
  case_decide as Hz.
  - by apply init_fold_given.
  - rewrite init_fold_unchanged.
    2:{ intros y ->%Hfun. by destruct (decide (x = 0%Z)). }
    destruct (list_to_map _ !! (r, c)) as [d|] eqn:Hd.
    + apply elem_of_list_to_map_2 in Hd. apply list_elem_of_fmap in Hd as (px & Heq & _).
      simpl in Heq. by injection Heq as _ ->.
    + apply not_elem_of_list_to_map in Hd. exfalso. apply Hd.
      apply list_elem_of_fmap. exists ((r, c), DList (seqZ 1 9)). split; [done|].
      apply list_elem_of_fmap. by exists ((r, c), x).
Qed.

Lemma wf_puzzle_lookup puzzle r c :
  wf_puzzle puzzle → r < 9 → c < 9 →
  ∃ row x, puzzle !! r = Some row ∧ row !! c = Some x ∧ (0 ≤ x ≤ 9)%Z.
Proof.
  intros [Hlen Hrows] Hr Hc.
  destruct (lookup_lt_is_Some_2 puzzle r) as [row Hrow]; [lia|].
  rewrite Forall_forall in Hrows. destruct (Hrows row) as [Hl Hx].
  { apply list_elem_of_lookup. eauto. }
  destruct (lookup_lt_is_Some_2 row c) as [x Hxc]; [lia|].
  rewrite Forall_forall in Hx. exists row, x. split; [done|]. split; [done|].
  apply Hx, list_elem_of_lookup. eauto.
Qed.

Lemma wf_puzzle_dom puzzle r c :
  wf_puzzle puzzle → (r, c) ∈ dom (Sudoku.init_domains puzzle) ↔ r < 9 ∧ c < 9.
Proof.
  intros Hwf. rewrite elem_of_dom, init_domains_lookup. split.
  - intros [d Hd]. destruct Hwf as [Hlen Hrows].
    destruct (puzzle !! r) as [row|] eqn:Hrow; [|done]. simpl in Hd.
    destruct (row !! c) as [x|] eqn:Hx; [|done].
    apply lookup_lt_Some in Hrow as Hr. rewrite Forall_forall in Hrows.
    destruct (Hrows row) as [Hl _]; [apply list_elem_of_lookup; eauto|].
    apply lookup_lt_Some in Hx. lia.
  - intros [Hr Hc]. destruct (wf_puzzle_lookup puzzle r c Hwf Hr Hc) as (row & x & -> & Hx & _).
    simpl. rewrite Hx. simpl. eauto.
Qed.

(** The 27 scopes are free of repetitions and stay inside the grid. *)
Lemma init_constraints_shape :
  Forall (λ c, NoDup (scope c) ∧ Forall (λ p, p.1 < 9 ∧ p.2 < 9) (scope c) ∧ length (scope c) = 9)
         Sudoku.init_constraints.
Proof. eapply bool_decide_unpack. by vm_compute. Qed.

Lemma init_constraints_scopes c :
  c ∈ Sudoku.init_constraints ↔
  ∃ i, i < 9 ∧ (c = {| cid := i; scope := row_to_indices i; condition := is_all_unique_fn |}
                ∨ c = {| cid := 9 + i; scope := col_to_indices i; condition := is_all_unique_fn |}
                ∨ c = {| cid := 18 + i; scope := box_to_indices i; condition := is_all_unique_fn |}).
Proof.
  unfold Sudoku.init_constraints. rewrite !elem_of_app, !list_elem_of_fmap.
  setoid_rewrite elem_of_seq. unfold row_to_indices, col_to_indices. split.
  - intros [(i & -> & Hi) | [(i & -> & Hi) | (i & -> & Hi)]]; exists i; (split; [lia|]); auto.
  - intros (i & Hi & [-> | [-> | ->]]); [left|right; left|right; right]; exists i; (split; [done|lia]).
Qed.

Lemma init_spec puzzle s :
  Sudoku.init puzzle = Ret s →
  Sudoku.domains s = Sudoku.init_domains puzzle
  ∧ Sudoku.constraints s = Sudoku.init_constraints
  ∧ CSP_init (Sudoku.init_domains puzzle) Sudoku.init_constraints = Ret (Sudoku.csp s).
Proof.
  unfold Sudoku.init. intros Hi. apply bind_Ret in Hi as (csp & Hcsp & Hi).
  by injection Hi as <-.
Qed.

Lemma init_total puzzle : wf_puzzle puzzle → ∃ s, Sudoku.init puzzle = Ret s.
Proof.
  intros Hwf. unfold Sudoku.init.
  destruct (CSP_init_total (Sudoku.init_domains puzzle) Sudoku.init_constraints) as [csp ->];
    [|simpl; eauto].
  intros c [r cl] Hc Hu. apply wf_puzzle_dom; [done|].
  pose proof init_constraints_shape as Hsh. rewrite Forall_forall in Hsh.
  destruct (Hsh c Hc) as (_ & Hr & _). rewrite Forall_forall in Hr. by apply (Hr (r, cl)).
Qed.

Lemma init_csp_ok puzzle s D :
  Sudoku.init puzzle = Ret s → dom D = dom (Sudoku.init_domains puzzle) →
  csp_ok (Sudoku.csp s) D.
Proof.
  intros (_ & _ & Hcsp)%init_spec HD. eapply CSP_init_ok; [done| |done].
  intros c Hc. pose proof init_constraints_shape as Hsh. rewrite Forall_forall in Hsh.
  by destruct (Hsh c Hc).
Qed.

End adapter.

Section grid.
Context `{!HashOrder}.

Lemma setitem2_Ret (g g' : list (list Sudoku.cell)) r c v :
  Sudoku.setitem2 g r c v = Ret g' →
  ∃ row, g !! r = Some row ∧ c < length row ∧ g' = <[r := <[c := v]> row]> g.
Proof.
  unfold Sudoku.setitem2. destruct (g !! r) as [row|]; [|done].
  case_decide; [|done]. intros [= <-]. eauto.
Qed.

Lemma setitem2_square n (g g' : list (list Sudoku.cell)) r c v :
  Sudoku.setitem2 g r c v = Ret g' → square n g → square n g'.
Proof.
  intros (row & Hrow & Hc & ->)%setitem2_Ret [Hlen Hrows]. split.
  - by rewrite length_insert.
  - apply Forall_insert; [done|]. rewrite length_insert.
    rewrite Forall_forall in Hrows. apply Hrows, list_elem_of_lookup. eauto.
Qed.

Lemma setitem2_lookup (g g' : list (list Sudoku.cell)) r c v p :
  Sudoku.setitem2 g r c v = Ret g' →
  grid_at g' p = if decide (p = (r, c)) then Some v else grid_at g p.
Proof.
  intros (row & Hrow & Hc & ->)%setitem2_Ret. destruct p as [r' c']. unfold grid_at. simpl.
  apply lookup_lt_Some in Hrow as Hr.
  destruct (decide (r' = r)) as [->|Hne].
  - rewrite list_lookup_insert_eq by done. simpl. rewrite Hrow. simpl.
    destruct (decide (c' = c)) as [->|Hnc].
    + rewrite decide_True by done. by apply list_lookup_insert_eq.
    + rewrite decide_False by congruence. by apply list_lookup_insert_ne.
  - rewrite list_lookup_insert_ne by done. rewrite decide_False by congruence. done.
Qed.

Lemma fill_square n : ∀ (l : list (var * Sudoku.cell)) g g',
  py_for (λ ans pv, Sudoku.setitem2 ans pv.1.1 pv.1.2 pv.2) l g = Ret g' →
  square n g → square n g'.
Proof.
  induction l as [|[[r c] v] l IH]; intros g g' Hf Hsq; simpl in Hf.
  - by injection Hf as <-.
  - apply bind_Ret in Hf as (g1 & H1 & Hf). simpl in H1.
    eapply IH; [done|]. by eapply setitem2_square.
Qed.

Lemma fill_lookup : ∀ (l : list (var * Sudoku.cell)) g g' p,
  NoDup l.*1 →
  py_for (λ ans pv, Sudoku.setitem2 ans pv.1.1 pv.1.2 pv.2) l g = Ret g' →
  grid_at g' p = match (list_to_map l : gmap var Sudoku.cell) !! p with
                 | Some v => Some v
                 | None => grid_at g p
                 end.
Proof.
  induction l as [|[[r c] v] l IH]; intros g g' p Hnd Hf; simpl in Hf.
  - by injection Hf as <-.
  - apply bind_Ret in Hf as (g1 & H1 & Hf). simpl in H1.
    apply NoDup_cons in Hnd as [Hk Hnd]. rewrite (IH _ _ p Hnd Hf).
    rewrite (setitem2_lookup _ _ _ _ _ p H1). simpl.
    destruct (decide (p = (r, c))) as [->|Hne].
    + rewrite lookup_insert_eq. by rewrite (not_elem_of_list_to_map_1 _ _ Hk).
    + by rewrite lookup_insert_ne.
Qed.

Lemma blank_lookup p :
  grid_at (replicate 10 (replicate 10 (Some 0%Z))) p
  = if decide (p.1 < 10 ∧ p.2 < 10) then Some (Some 0%Z) else None.
Proof.
  destruct p as [r c]. unfold grid_at. cbn [fst snd]. case_decide as Hd.
  - destruct Hd. rewrite lookup_replicate_2 by done. cbn [mbind option_bind].
    by rewrite lookup_replicate_2.
  - destruct (decide (r < 10)).
    + rewrite lookup_replicate_2 by done. cbn [mbind option_bind].
      apply lookup_replicate_None. lia.
    + assert (replicate 10 (replicate 10 (Some 0%Z)) !! r = @None (list Sudoku.cell)) as ->; [|done].
      apply lookup_replicate_None. lia.
Qed.

Lemma solve_Ret fuel s g :
  Sudoku.solve fuel s = Ret g →
  ∃ sol, solve_recursive_ds fuel (Sudoku.csp s) None None = Ret (ADict sol)
    ∧ square 10 g
    ∧ ∀ p, grid_at g p = match sol !! p with
                         | Some v => Some v
                         | None => if decide (p.1 < 10 ∧ p.2 < 10) then Some (Some 0%Z) else None
                         end.
Proof.
  unfold Sudoku.solve. intros Hs. apply bind_Ret in Hs as ([| |sol] & Hsol & Hs); [done..|].
  exists sol. split_and!; [done| |].
  - eapply fill_square; [done|]. split; [by rewrite length_replicate|].
    apply Forall_replicate. by rewrite length_replicate.
  - intros p. erewrite fill_lookup; [|apply NoDup_fst_map_to_list|done].
    rewrite list_to_map_to_list, blank_lookup. done.
Qed.

Lemma root_sound fuel csp D0 cons sol :
  CSP_init D0 cons = Ret csp → (∀ c, c ∈ cons → NoDup (scope c)) →
  solve_recursive_ds fuel csp None None = Ret (ADict sol) →
  is_solution csp D0 sol.
Proof.
  intros Hinit Hnd Hs. pose proof (CSP_init_spec _ _ _ Hinit) as (_ & Hd & _).
  pose proof (solve_sound csp fuel None None sol) as Hsound. simpl in Hsound.
  rewrite Hd in Hsound. apply Hsound; [| | |done].
  - by eapply CSP_init_ok.
  - intros a Ha. by apply elem_of_list_to_set in Ha.
  - intros a Ha Hn. exfalso. apply Hn. by apply elem_of_list_to_set.
Qed.

Lemma run_Ret puzzle fuel g :
  Sudoku.run fuel puzzle = Ret g →
  ∃ s sol, Sudoku.init puzzle = Ret s
    ∧ is_solution (Sudoku.csp s) (Sudoku.init_domains puzzle) sol
    ∧ square 10 g
    ∧ ∀ p, grid_at g p = match sol !! p with
                         | Some v => Some v
                         | None => if decide (p.1 < 10 ∧ p.2 < 10) then Some (Some 0%Z) else None
                         end.
Proof.
  unfold Sudoku.run. intros Hr. apply bind_Ret in Hr as (s & Hs & Hr).
  apply solve_Ret in Hr as (sol & Hsol & Hsq & Hg). exists s, sol. split_and!; [done| |done..].
  pose proof (init_spec _ _ Hs) as (_ & _ & Hcsp).
  eapply root_sound; [done| |done].
  intros c Hc. pose proof init_constraints_shape as Hsh. rewrite Forall_forall in Hsh.
  by destruct (Hsh c Hc).
Qed.

End grid.

Section claims.
Context `{!HashOrder}.

(** C6.  In the revise step for the arc [(v, c)], a candidate value [x] of
    the current domain of [v] is kept in the new domain if and only if some
    combination of values, one per variable of [scope(c)] other than [v] and
    each drawn from the current domain of its variable, extends [{v: x}] to
    an assignment that satisfies [c].  The combination is the assignment [f]:
    it gives [x] to [v] and a candidate value to every variable of the scope
    other than [v]; it satisfies [c] when [Constraint.holds] returns [True]
    on it, which is when it is all-different on the scope. *)
Theorem revise_keeps_supported_values (D : gmap var domain) (c : Constraint) (v : var) (d : domain) :
  D !! v = Some d →
  (∀ u, u ∈ scope c → is_Some (D !! u)) →
  NoDup (scope c) →
  ∃ new, revise D v c = Ret (DSet new)
    ∧ (∀ x, x ∈ new ↔
         x ∈ dom_vals d
         ∧ ∃ f : gmap var Z,
             f !! v = Some x
             ∧ (∀ u, u ∈ scope c → u ≠ v → ∃ y, f !! u = Some y ∧ in_dom D u y)
             ∧ holds c f = Ret true)
    ∧ (∀ x, x ∈ new ↔
         x ∈ dom_vals d
         ∧ ∃ f : gmap var Z,
             f !! v = Some x
             ∧ (∀ u, u ∈ scope c → u ≠ v → ∃ y, f !! u = Some y ∧ in_dom D u y)
             ∧ ∀ p1 p2, p1 ∈ scope c → p2 ∈ scope c → p1 ≠ p2 → f !! p1 ≠ f !! p2).
Proof.
  intros Hd HD Hnd.
  destruct (revise_spec D c v d Hd) as (new & Hrev & Hnew); [by auto|done|].
  exists new. split; [done|]. split; [|exact Hnew].
  intros x. rewrite Hnew. apply and_iff_compat_l.
  split; intros (f & Hv & Hin & Hsat); exists f; (split; [done|]); (split; [done|]).
  - rewrite holds_spec; [by rewrite bool_decide_eq_true_2|].
    intros u Hu. destruct (decide (u = v)) as [->|Hne]; [eauto|].
    destruct (Hin u Hu Hne) as (y & -> & _). eauto.
  - rewrite holds_spec in Hsat.
    + injection Hsat as Hsat. by apply bool_decide_eq_true in Hsat.
    + intros u Hu. destruct (decide (u = v)) as [->|Hne]; [eauto|].
      destruct (Hin u Hu Hne) as (y & -> & _). eauto.
Qed.

(** C8.  Domains never grow: every domain of the map returned by
    [make_arc_consistent] is a subset of the domain the variable had in the
    input map, the revise step only removes values, and both halves made by
    [partition_domain] are subsets of the domain that is split. *)
Theorem domains_never_grow :
  (∀ fuel csp D to_do D',
     make_arc_consistent fuel csp D to_do = Ret D' →
     ∀ v d', D' !! v = Some d' →
       ∃ d, default (domains csp) D !! v = Some d ∧ dom_vals d' ⊆ dom_vals d)
  ∧ (∀ D v c d new,
       D !! v = Some d → revise D v c = Ret new → dom_vals new ⊆ dom_vals d)
  ∧ (∀ d d1 d2,
       partition_domain d = Ret (d1, d2) →
       dom_vals d1 ⊆ dom_vals d ∧ dom_vals d2 ⊆ dom_vals d).
Proof.
  split_and!.
  - intros fuel csp D to_do D' Hmac v d' Hd'.
    rewrite make_arc_consistent_unfold in Hmac. apply arc_loop_shrinks in Hmac.
    specialize (Hmac v). rewrite Hd' in Hmac. destruct Hmac as (d & Hd & Hle).
    exists d. split; [done|]. by apply dom_le_vals.
  - intros D v c d new Hd (d0 & s & Hd0 & -> & Hs)%revise_sub.
    by assert (d0 = d) as -> by congruence.
  - intros d d1 d2 (s & s1 & s2 & -> & -> & -> & Hs1 & Hs2 & _)%partition_domain_Ret. done.
Qed.

(** C9.  [partition_domain] splits a set of [n >= 2] values into two disjoint
    halves of sizes [n / 2] and [n - n / 2], both non-empty and strictly
    smaller than the set; the work loop of [make_arc_consistent] and the
    recursion of [solve_recursive_ds] stop on every input: with enough fuel
    neither runs out of it. *)
Theorem search_terminates :
  (∀ s : gset Z, 2 ≤ size s →
     ∃ s1 s2, partition_domain (DSet s) = Ret (DSet s1, DSet s2)
       ∧ s1 ## s2 ∧ s1 ∪ s2 = s
       ∧ size s1 = size s `div` 2 ∧ size s2 = size s - size s `div` 2
       ∧ 0 < size s1 < size s ∧ 0 < size s2 < size s)
  ∧ (∀ csp D to_do,
       ∃ n, ∀ fuel, n ≤ fuel → make_arc_consistent fuel csp D to_do ≠ Timeout)
  ∧ (∀ csp doms to_do,
       ∃ n, ∀ fuel, n ≤ fuel → solve_recursive_ds fuel csp doms to_do ≠ Timeout).
Proof.
  split_and!.
  - intros s Hs. destruct (partition_domain_spec s) as (s1 & s2 & Hp & _ & _ & Hdisj & Hun & Hz1 & Hz2).
    exists s1, s2. split; [done|]. split; [done|]. split; [done|]. split; [done|]. split; [done|].
    assert (size s `div` 2 < size s) by (apply Nat.div_lt; lia).
    assert (0 < size s `div` 2) by (apply Nat.div_str_pos; lia).
    lia.
  - apply make_arc_consistent_terminates.
  - intros csp doms to_do. by eapply solve_terminates.
Qed.

(** C5, amended.  On a CSP built by [CSP.__init__] whose scopes have no
    repetition, let [make_arc_consistent(D, to_do)] be run with a work queue
    of arcs of the CSP ([to_do = None] gives the full queue) such that every
    arc the queue leaves out is already settled in [D]: the domain of its
    variable is a set, and every value in it has a support in the arc's
    constraint.  Then the run returns, and its output is a fixed point:
    [make_arc_consistent] run on it with no seed arcs, or with any seed set
    of arcs of the CSP, returns the identical domain map.  With
    [to_do = None] no arc is left out, so this holds for every [D]. *)
Theorem propagation_fixed_point_when_rest_settled (D0 : gmap var domain)
    (cons : list Constraint) (csp : CSP) (D : gmap var domain) (to_do : option (pyset arc)) :
  CSP_init D0 cons = Ret csp →
  (∀ c, c ∈ cons → NoDup (scope c)) →
  dom D = dom D0 →
  (∀ a, a ∈ queue csp to_do → a ∈ csp_arcs csp) →
  (∀ a, a ∈ csp_arcs csp → a ∉ queue csp to_do → settled D a) →
  ∃ n, ∀ fuel, n ≤ fuel →
    ∃ D1, make_arc_consistent fuel csp (Some D) to_do = Ret D1
          ∧ make_arc_consistent fuel csp (Some D1) None = Ret D1
          ∧ ∀ seed : pyset arc, (∀ a, a ∈ seed → a ∈ csp_arcs csp) →
              make_arc_consistent fuel csp (Some D1) (Some seed) = Ret D1.
Proof.
  intros Hinit Hnd Hdom Hq Hout.
  pose proof (CSP_init_ok _ _ _ D Hinit Hnd Hdom) as Hok.
  destruct (make_arc_consistent_terminates csp (Some D) to_do) as [n0 Hn0].
  exists (n0 `max` S (size (queue csp None))). intros fuel Hle.
  pose proof (arc_loop_inv csp fuel D (queue csp to_do) Hok Hq Hout) as Hinv.
  pose proof (Hn0 fuel) as Hterm. rewrite make_arc_consistent_unfold in Hterm.
  rewrite make_arc_consistent_unfold. setoid_rewrite make_arc_consistent_unfold.
  change (default (domains csp) (Some D)) with D in *.
  destruct (arc_loop fuel csp D (queue csp to_do)) as [D1| |] eqn:Hloop.
  - exists D1. split; [done|]. change (default (domains csp) (Some D1)) with D1.
    assert (csp_ok csp D1) as Hok1.
    { eapply csp_ok_shrinks; [|done]. by eapply arc_loop_shrinks. }
    split.
    + apply arc_loop_settled; [done| |done|lia].
      intros a Ha. by apply elem_of_list_to_set in Ha.
    + intros seed Hseed. change (queue csp (Some seed)) with seed.
      apply arc_loop_settled; [done..|].
      assert (size seed ≤ size (queue csp None)); [|lia].
      apply subseteq_size. intros a Ha. apply elem_of_list_to_set. by apply Hseed.
  - done.
  - exfalso. apply Hterm; [lia|done].
Qed.

(** C10.  A generator that yields exactly one variable makes
    [select_most_constrained_var] raise [ValueError]: the inner [min] finds
    the generator already emptied by the comprehension.  Consequently
    [solve_recursive_ds] raises [ValueError], instead of branching, when after
    propagation exactly one variable has more than one value. *)
Theorem select_most_constrained_var_singleton_raises :
  (∀ csp x, is_Some (domains csp !! x) →
     select_most_constrained_var csp [x] = Raise ValueError)
  ∧ (∀ fuel csp doms to_do Dn x dx,
       let D := default (domains csp) doms in
       make_arc_consistent fuel csp (Some D) to_do = Ret Dn →
       variables csp = dom D →
       is_Some (domains csp !! x) →
       Dn !! x = Some dx → 1 < dom_len dx →
       (∀ v d, Dn !! v = Some d → v ≠ x → dom_len d = 1) →
       solve_recursive_ds (S fuel) csp doms to_do = Raise ValueError).
Proof.
  split.
  - intros csp x [d Hd]. unfold select_most_constrained_var.
    by rewrite (getitem_Some _ _ _ Hd).
  - intros fuel csp doms to_do Dn x dx D Hmac Hvars [d0 Hd0] Hx Hlen Hothers.
    rewrite solve_recursive_ds_unfold. fold D. rewrite Hmac. simpl.
    pose proof Hmac as Hsh. rewrite make_arc_consistent_unfold in Hsh.
    apply arc_loop_shrinks, shrinks_dom in Hsh. simpl in Hsh.
    assert (x ∈ dom Dn) as HxD by (apply elem_of_dom; eauto).
    unfold solve_rest.
    erewrite (py_any_pure _ (λ v, false)).
    2:{ intros v Hv%keys_lookup. rewrite <-Hsh in Hv. apply elem_of_dom in Hv as [d Hd].
        rewrite (getitem_Some _ _ _ Hd). simpl. f_equal. apply bool_decide_eq_false.
        destruct (decide (v = x)) as [->|Hne].
        - assert (d = dx) as -> by congruence. lia.
        - rewrite (Hothers v d); [lia|done..]. }
    assert (existsb (λ _ : var, false) (map_to_list D).*1 = false) as ->.
    { induction (map_to_list D).*1; simpl; auto. }
    simpl.
    erewrite (py_all_pure _ (λ v, bool_decide (v ≠ x))).
    2:{ intros v Hv%keys_lookup. rewrite <-Hsh in Hv. apply elem_of_dom in Hv as [d Hd].
        rewrite (getitem_Some _ _ _ Hd). simpl. f_equal. apply bool_decide_ext.
        destruct (decide (v = x)) as [->|Hne].
        - assert (d = dx) as -> by congruence. split; [lia|done].
        - rewrite (Hothers v d); done. }
    assert (forallb (λ v : var, bool_decide (v ≠ x)) (map_to_list D).*1 = false) as ->.
    { apply not_true_is_false. rewrite forallb_forall. intros Hall.
      specialize (Hall x). rewrite bool_decide_eq_true in Hall. apply Hall; [|done].
      apply list_elem_of_In, keys_lookup. by rewrite <-Hsh. }
    simpl.
    erewrite (py_filter_pure _ (λ v, bool_decide (v = x))).
    2:{ intros v Hv%elem_of_set_iter. rewrite Hvars, <-Hsh in Hv.
        apply elem_of_dom in Hv as [d Hd].
        rewrite (getitem_Some _ _ _ Hd). simpl. f_equal. apply bool_decide_ext.
        destruct (decide (v = x)) as [->|Hne].
        - assert (d = dx) as -> by congruence. done.
        - rewrite (Hothers v d); [|done..]. split; [lia|done]. }
    assert (List.filter (λ v : var, bool_decide (v = x)) (set_iter (variables csp)) = [x]) as ->.
    { assert (x ∈ set_iter (variables csp)) as Hin.
      { apply elem_of_set_iter. by rewrite Hvars, <-Hsh. }
      pose proof (NoDup_set_iter (variables csp)) as Hnd.
      revert Hin Hnd. generalize (set_iter (variables csp)) as l.
      induction l as [|y l IH]; intros Hin Hnd; [by apply not_elem_of_nil in Hin|].
      apply NoDup_cons in Hnd as [Hy Hnd]. simpl. case_bool_decide as Hyx.
      - subst y. f_equal. clear IH Hin. induction l as [|z l IH]; [done|]. simpl.
        rewrite bool_decide_eq_false_2 by set_solver.
        apply IH; [set_solver|]. by apply NoDup_cons in Hnd as [_ ?].
      - apply IH; [set_solver|done]. }
    simpl. unfold select_most_constrained_var. by rewrite (getitem_Some _ _ _ Hd0).
Qed.

End claims.

Section sudoku_claims.
Context `{!HashOrder}.

Lemma init_domain_values puzzle r c x :
  wf_puzzle puzzle → in_dom (Sudoku.init_domains puzzle) (r, c) x →
  (1 ≤ x ≤ 9)%Z ∧ ∀ y, grid_at puzzle (r, c) = Some y → y ≠ 0%Z → x = y.
Proof.
  intros Hwf (d & Hd & Hx). rewrite init_domains_lookup in Hd.
  destruct (puzzle !! r) as [row|] eqn:Hrow; [|done]. simpl in Hd.
  destruct (row !! c) as [y|] eqn:Hy; [|done]. simpl in Hd. injection Hd as <-.
  assert ((0 ≤ y ≤ 9)%Z) as Hrange.
  { destruct Hwf as [_ Hrows]. rewrite Forall_forall in Hrows.
    destruct (Hrows row) as [_ Hxs]; [apply list_elem_of_lookup; eauto|].
    rewrite Forall_forall in Hxs. apply Hxs, list_elem_of_lookup. eauto. }
  unfold grid_at. simpl. rewrite Hrow. simpl. rewrite Hy.
  case_decide as Hz; unfold dom_vals in Hx; rewrite elem_of_list_to_set in Hx.
  - apply list_elem_of_singleton in Hx as ->.
    split; [lia|]. by intros ? [= <-].
  - apply elem_of_seqZ in Hx. split; [lia|].
    intros ? [= <-] ?. done.
Qed.

(** On a well-formed puzzle a returned grid reads the solution at the 81
    positions and is zero elsewhere. *)
Lemma run_cells puzzle fuel g :
  wf_puzzle puzzle → Sudoku.run fuel puzzle = Ret g →
  ∃ s sol, Sudoku.init puzzle = Ret s
    ∧ is_solution (Sudoku.csp s) (Sudoku.init_domains puzzle) sol
    ∧ constraints (Sudoku.csp s) = Sudoku.init_constraints
    ∧ square 10 g
    ∧ (∀ r c, r < 9 → c < 9 →
         ∃ x, sol !! (r, c) = Some (Some x) ∧ grid_at g (r, c) = Some (Some x)
              ∧ in_dom (Sudoku.init_domains puzzle) (r, c) x)
    ∧ (∀ r c, r < 10 → c < 10 → ¬ (r < 9 ∧ c < 9) → grid_at g (r, c) = Some (Some 0%Z)).
Proof.
  intros Hwf (s & sol & Hs & Hsol & Hsq & Hg)%run_Ret.
  exists s, sol. split; [done|]. split; [done|]. split; [|split; [done|split]].
  - by apply init_spec in Hs as (_ & _ & (_ & _ & ? & _)%CSP_init_spec).
  - intros r c Hr Hc. destruct Hsol as (_ & Hv & _).
    destruct (Hv (r, c)) as (x & Hx & Hin); [by apply wf_puzzle_dom|].
    exists x. split_and!; [done| |done]. by rewrite Hg, Hx.
  - intros r c Hr Hc Hout. rewrite Hg. destruct Hsol as (Hdom & _ & _).
    destruct (sol !! (r, c)) as [v|] eqn:Hv.
    + exfalso. apply Hout. apply (wf_puzzle_dom puzzle r c Hwf).
      rewrite <-Hdom. apply elem_of_dom. eauto.
    + simpl. by rewrite decide_True.
Qed.

(** C1 (what the code returns).  On a well-formed puzzle, whenever
    [Sudoku.solve] returns a grid, that grid has 10 rows of 10 cells; the 81
    cells of its upper left 9 by 9 block hold integers in [1,9] and the 19
    cells of its last row and last column hold 0. *)
Theorem solve_returns_10_by_10 (puzzle : list (list Z)) (fuel : nat)
    (g : list (list Sudoku.cell)) :
  wf_puzzle puzzle → Sudoku.run fuel puzzle = Ret g →
  square 10 g
  ∧ (∀ r c, r < 9 → c < 9 → ∃ x, grid_at g (r, c) = Some (Some x) ∧ (1 ≤ x ≤ 9)%Z)
  ∧ (∀ i, i < 10 → grid_at g (9, i) = Some (Some 0%Z) ∧ grid_at g (i, 9) = Some (Some 0%Z)).
Proof.
  intros Hwf (s & sol & _ & _ & _ & Hsq & Hin & Hout)%run_cells; [|done].
  split; [done|]. split.
  - intros r c Hr Hc. destruct (Hin r c Hr Hc) as (x & _ & Hg & Hx).
    exists x. split; [done|]. by eapply init_domain_values.
  - intros i Hi. split; apply Hout; lia.
Qed.

Lemma scope_cells puzzle fuel g c :
  wf_puzzle puzzle → Sudoku.run fuel puzzle = Ret g →
  c ∈ Sudoku.init_constraints → cells_at g (scope c) ≡ₚ digits.
Proof.
  intros Hwf (s & sol & _ & Hsol & Hcons & _ & Hin & _)%run_cells Hc; [|done].
  pose proof init_constraints_shape as Hsh. rewrite Forall_forall in Hsh.
  destruct (Hsh c Hc) as (Hnd & Hrange & Hlen). rewrite Forall_forall in Hrange.
  set (val := λ p : var, default 0%Z (default None (sol !! p))).
  assert (∀ p, p ∈ scope c →
            sol !! p = Some (Some (val p)) ∧ grid_at g p = Some (Some (val p))
            ∧ (1 ≤ val p ≤ 9)%Z) as Hval.
  { intros [r cl] Hp. destruct (Hrange _ Hp) as [Hr Hcl]. simpl in *.
    destruct (Hin r cl Hr Hcl) as (x & Hx & Hg & Hd). unfold val. rewrite Hx. simpl.
    split; [done|]. split; [done|]. by eapply init_domain_values. }
  assert (cells_at g (scope c) = (λ d, Some (Some d)) <$> (val <$> scope c)) as ->.
  { unfold cells_at. rewrite <-list_fmap_compose. apply list_fmap_ext.
    intros i p Hp. simpl. apply Hval, list_elem_of_lookup. eauto. }
  unfold digits. apply fmap_Permutation. apply submseteq_length_Permutation.
  - apply NoDup_submseteq.
    + apply NoDup_fmap_2_strong; [|done]. intros p1 p2 H1 H2 Heq.
      destruct (decide (p1 = p2)) as [|Hne]; [done|]. exfalso.
      destruct Hsol as (_ & _ & Hdiff). apply (Hdiff c p1 p2); [by rewrite Hcons|done..|].
      destruct (Hval p1 H1) as (-> & _), (Hval p2 H2) as (-> & _). by rewrite Heq.
    + intros x (p & -> & Hp)%list_elem_of_fmap. apply elem_of_seqZ.
      destruct (Hval p Hp) as (_ & _ & ?). lia.
  - rewrite length_fmap, length_seqZ, Hlen. lia.
Qed.

(** C2.  Whenever the search succeeds on a well-formed puzzle, the grid
    assembled by [Sudoku.solve] satisfies the 27 all-different constraints:
    the cells of every row, of every column and of every 3 by 3 box are the
    digits 1 to 9, each exactly once. *)
Theorem solved_grid_all_different (puzzle : list (list Z)) (fuel : nat)
    (g : list (list Sudoku.cell)) :
  wf_puzzle puzzle → Sudoku.run fuel puzzle = Ret g →
  ∀ i, i < 9 →
    cells_at g (row_to_indices i) ≡ₚ digits
    ∧ cells_at g (col_to_indices i) ≡ₚ digits
    ∧ cells_at g (box_to_indices i) ≡ₚ digits.
Proof.
  intros Hwf Hrun i Hi.
  split_and!;
    [apply (scope_cells puzzle fuel g
              {| cid := i; scope := row_to_indices i; condition := is_all_unique_fn |})
    |apply (scope_cells puzzle fuel g
              {| cid := 9 + i; scope := col_to_indices i; condition := is_all_unique_fn |})
    |apply (scope_cells puzzle fuel g
              {| cid := 18 + i; scope := box_to_indices i; condition := is_all_unique_fn |})];
    try done; apply init_constraints_scopes; exists i; auto.
Qed.

(** C7 (what the code returns).  On a well-formed puzzle, a returned grid
    keeps every pre-filled cell of the input, but it is never the input grid:
    it has a tenth row and a tenth column. *)
Theorem solve_keeps_givens_in_larger_grid (puzzle : list (list Z)) (fuel : nat)
    (g : list (list Sudoku.cell)) :
  wf_puzzle puzzle → Sudoku.run fuel puzzle = Ret g →
  (∀ r c x, grid_at puzzle (r, c) = Some x → x ≠ 0%Z → grid_at g (r, c) = Some (Some x))
  ∧ g ≠ as_cells puzzle.
Proof.
  intros Hwf Hrun. pose proof Hrun as (s & sol & _ & _ & _ & Hsq & Hin & _)%run_cells; [|done].
  split.
  - intros r c x Hx Hnz.
    assert (r < 9 ∧ c < 9) as [Hr Hc].
    { apply (wf_puzzle_dom puzzle r c Hwf). rewrite elem_of_dom, init_domains_lookup.
      unfold grid_at in Hx. simpl in Hx. destruct (puzzle !! r) as [row|]; [|done].
      simpl in *. rewrite Hx. simpl. eauto. }
    destruct (Hin r c Hr Hc) as (y & _ & Hg & Hd).
    destruct (init_domain_values puzzle r c y Hwf Hd) as [_ Heq].
    by rewrite Hg, (Heq x Hx Hnz).
  - intros ->. destruct Hsq as [Hlen _], Hwf as [Hlen' _].
    unfold as_cells in Hlen. rewrite length_fmap in Hlen. lia.
Qed.

End sudoku_claims.

Section sudoku_search.
Context `{!HashOrder}.
Local Arguments dom_ne : simpl never.

Lemma NoDup_fmap_inj_on {A B} (f : A → B) (l : list A) x y :
  NoDup (f <$> l) → x ∈ l → y ∈ l → f x = f y → x = y.
Proof.
  induction l as [|z l IH]; intros Hnd Hx Hy Heq; [by apply elem_of_nil in Hx|].
  rewrite fmap_cons in Hnd. apply NoDup_cons in Hnd as [Hz Hnd].
  apply elem_of_cons in Hx as [->|Hx], Hy as [->|Hy]; [done| | |by apply IH].
  - exfalso. apply Hz. rewrite Heq. apply list_elem_of_fmap. eauto.
  - exfalso. apply Hz. rewrite <-Heq. apply list_elem_of_fmap. eauto.
Qed.

(** Nine different digits are all the digits. *)
Lemma nine_digits (l : list Z) y :
  NoDup l → length l = 9 → (∀ x, x ∈ l → (1 ≤ x ≤ 9)%Z) → (1 ≤ y ≤ 9)%Z → y ∈ l.
Proof.
  intros Hnd Hlen Hl Hy.
  assert (l ≡ₚ seqZ 1 9) as ->.
  { apply submseteq_length_Permutation.
    - apply NoDup_submseteq; [done|]. intros x Hx%Hl. apply elem_of_seqZ. lia.
    - rewrite length_seqZ, Hlen. lia. }
  apply elem_of_seqZ. lia.
Qed.

(** In a scope of nine variables over the digits, a variable whose arc is
    consistent cannot be the only one with more than one value. *)
Lemma lone_candidate D c v y1 y2 :
  NoDup (scope c) → length (scope c) = 9 → v ∈ scope c →
  (∀ u x, u ∈ scope c → in_dom D u x → (1 ≤ x ≤ 9)%Z) →
  (∀ u x x', u ∈ scope c → u ≠ v → in_dom D u x → in_dom D u x' → x = x') →
  arc_cons D (v, c) →
  in_dom D v y1 → in_dom D v y2 → y1 = y2.
Proof.
  intros Hnd Hlen Hv Hrange Hone Hcons H1 H2.
  destruct (decide (y1 = y2)) as [|Hne]; [done|]. exfalso.
  destruct (Hcons y1 H1) as (f1 & Hf1 & Hin1 & Hd1).
  destruct (Hcons y2 H2) as (f2 & Hf2 & Hin2 & Hd2). simpl in *.
  set (val := λ u : var, default 0%Z (f1 !! u)).
  assert (∀ u, u ∈ scope c → f1 !! u = Some (val u) ∧ in_dom D u (val u)) as Hval.
  { intros u Hu. unfold val. destruct (decide (u = v)) as [->|Huv].
    - by rewrite Hf1.
    - destruct (Hin1 u Hu Huv) as (y & -> & Hy). done. }
  assert (y2 ∈ val <$> scope c) as (u & Hy2 & Hu)%list_elem_of_fmap.
  { apply nine_digits.
    - apply NoDup_fmap_2_strong; [|done]. intros p1 p2 Hp1 Hp2 Heq.
      destruct (decide (p1 = p2)) as [|Hp]; [done|]. exfalso.
      apply (Hd1 p1 p2); [done..|].
      destruct (Hval p1 Hp1) as [-> _], (Hval p2 Hp2) as [-> _]. by rewrite Heq.
    - by rewrite length_fmap.
    - intros x (p & -> & Hp)%list_elem_of_fmap. apply (Hrange p); [done|]. by apply Hval.
    - by apply (Hrange v). }
  destruct (Hval u Hu) as [Hfu Hdu]. rewrite <-Hy2 in Hfu, Hdu.
  assert (u ≠ v) as Huv.
  { intros ->. rewrite Hf1 in Hfu. by injection Hfu. }
  destruct (Hin2 u Hu Huv) as (y & Hfy & Hy).
  pose proof (Hone u y y2 Hu Huv Hy Hdu) as ->.
  apply (Hd2 u v); [done..|]. by rewrite Hf2, Hfy.
Qed.

Lemma foldl_min_const n (l : list nat) : (∀ x, x ∈ l → x = n) → foldl Nat.min n l = n.
Proof.
  induction l as [|x l IH]; intros Hl; [done|]. simpl.
  rewrite (Hl x) by left. rewrite Nat.min_id. apply IH. intros. apply Hl. by right.
Qed.

(** When the domains the CSP was built with have one common length on the
    candidates, the comparison with [min] succeeds and the first candidate is
    returned. *)
Lemma select_most_constrained_var_first csp v w rest n :
  (∀ u, u ∈ v :: w :: rest → ∃ d, domains csp !! u = Some d ∧ dom_len d = n) →
  select_most_constrained_var csp (v :: w :: rest) = Ret (Some v).
Proof.
  intros Hlen.
  destruct (Hlen v) as (d & Hd & Hn); [left|].
  assert (py_map (λ i, dom_len <$> getitem (domains csp) i) (w :: rest)
          = Ret ((λ _, n) <$> w :: rest)) as Hlens.
  { apply py_map_pure. intros u Hu. destruct (Hlen u) as (du & Hdu & Hnu); [by right|].
    rewrite (getitem_Some _ _ _ Hdu). simpl. by rewrite Hnu. }
  unfold select_most_constrained_var. rewrite (getitem_Some _ _ _ Hd).
  change (Ret d ≫= ?k) with (k d). cbv beta. rewrite Hlens.
  change (Ret ?l ≫= ?k) with (k l). cbv beta.
  rewrite fmap_cons. unfold py_min. rewrite foldl_min_const.
  2:{ intros x (u & -> & _)%list_elem_of_fmap. done. }
  change (Ret n ≫= ?k) with (k n). cbv beta.
  by rewrite decide_True.
Qed.

Lemma ret_bind {A B} (x : A) (k : A → outcome B) : Ret x ≫= k = k x.
Proof. reflexivity. Qed.

Lemma size_le_1_eq (s : gset Z) x y : size s ≤ 1 → x ∈ s → y ∈ s → x = y.
Proof.
  intros Hs Hx Hy. destruct (decide (x = y)) as [|Hne]; [done|]. exfalso.
  assert (size ({[x]} ∪ {[y]} : gset Z) ≤ size s) as Hle.
  { apply subseteq_size. set_solver. }
  rewrite size_union, !size_singleton in Hle by set_solver. lia.
Qed.

Lemma size_gt_1_neq (s : gset Z) : 1 < size s → ∃ x y, x ∈ s ∧ y ∈ s ∧ x ≠ y.
Proof.
  intros Hs. destruct (set_choose_or_empty s) as [[x Hx]|He].
  - destruct (set_choose_or_empty (s ∖ {[x]})) as [[y Hy]|He].
    + exists x, y. set_solver.
    + assert (s = {[x]}) as ->.
      { apply set_eq. intros y. rewrite elem_of_singleton. split; [|by intros ->].
        intros Hy. destruct (decide (y = x)) as [|Hne]; [done|]. exfalso.
        apply (not_elem_of_empty (C:=gset Z) y). rewrite <-He.
        apply elem_of_difference. split; [done|]. by rewrite elem_of_singleton. }
      rewrite size_singleton in Hs. lia.
  - apply leibniz_equiv in He as ->. rewrite size_empty in Hs. lia.
Qed.

(** On such a CSP the search raises no exception and never returns [None]:
    it answers [False] or a dictionary, unless it runs out of fuel. *)
Lemma solve_answers csp : sudoku_like csp → ∀ fuel doms to_do,
  let D := default (domains csp) doms in
  csp_ok csp D → shrinks (domains csp) D →
  (∀ arc, arc ∈ queue csp to_do → arc ∈ csp_arcs csp) →
  (∀ arc, arc ∈ csp_arcs csp → arc ∉ queue csp to_do → settled D arc) →
  match solve_recursive_ds fuel csp doms to_do with
  | Ret AFalse | Ret (ADict _) | Timeout => True
  | _ => False
  end.
Proof.
  intros [Hvars Hcover Hdigits Hlen9].
  induction fuel as [|fuel IH]; intros doms to_do D Hok Hsh0 Hq Hinv; [done|].
  rewrite solve_recursive_ds_unfold. fold D.
  rewrite make_arc_consistent_unfold. change (default (domains csp) (Some D)) with D.
  pose proof (arc_loop_inv csp fuel D (queue csp to_do) Hok Hq Hinv) as Hfix.
  destruct (arc_loop fuel csp D (queue csp to_do)) as [Dn| |] eqn:Hloop; [|done..].
  rewrite ret_bind.
  pose proof (arc_loop_shrinks _ _ _ _ _ Hloop) as Hsh.
  pose proof (shrinks_dom _ _ Hsh) as Hdom.
  pose proof (shrinks_dom _ _ Hsh0) as Hdom0.
  pose proof (csp_ok_shrinks _ _ _ Hsh Hok) as Hokn.
  pose proof (shrinks_trans _ _ _ Hsh0 Hsh) as Hshn.
  assert (∀ v, v ∈ dom Dn → ∃ c s, c ∈ constraints csp ∧ v ∈ scope c ∧ length (scope c) = 9
            ∧ Dn !! v = Some (DSet s) ∧ arc_cons Dn (v, c)) as Hset.
  { intros v Hv. rewrite Hdom, Hdom0 in Hv. destruct (Hcover v Hv) as (c & Hc & Hvc & Hl).
    destruct (Hfix (v, c)) as [[s Hs] Hcons]; [by apply elem_of_csp_arcs|].
    exists c, s. done. }
  unfold solve_rest.
  set (len := λ v, match Dn !! v with Some d => dom_len d | None => 0 end).
  assert (∀ v, v ∈ dom Dn → getitem Dn v = Ret (default (DSet ∅) (Dn !! v))
                            ∧ dom_len (default (DSet ∅) (Dn !! v)) = len v) as Hget.
  { intros v [d Hd]%elem_of_dom. unfold len. rewrite (getitem_Some _ _ _ Hd), Hd. done. }
  rewrite (py_any_pure _ (λ v, bool_decide (len v = 0))).
  2:{ intros v Hv%keys_lookup. rewrite <-Hdom in Hv. destruct (Hget v Hv) as [-> <-]. done. }
  rewrite ret_bind. destruct (existsb _ _) eqn:Hany; [done|].
  rewrite (py_all_pure _ (λ v, bool_decide (len v = 1))).
  2:{ intros v Hv%keys_lookup. rewrite <-Hdom in Hv. destruct (Hget v Hv) as [-> <-]. done. }
  rewrite ret_bind. destruct (forallb _ _) eqn:Hall.
  { rewrite (py_map_pure _ (λ v, (v, select_first (dom_iter (default (DSet ∅) (Dn !! v)))))).
    - done.
    - intros v Hv%keys_lookup. rewrite <-Hdom in Hv. destruct (Hget v Hv) as [-> _]. done. }
  rewrite (py_filter_pure _ (λ v, bool_decide (1 < len v))).
  2:{ intros v Hv%elem_of_set_iter. rewrite Hvars, <-Hdom0, <-Hdom in Hv.
      destruct (Hget v Hv) as [-> <-]. done. }
  rewrite ret_bind.
  assert (∀ v, v ∈ List.filter (λ v, bool_decide (1 < len v)) (set_iter (variables csp))
               ↔ v ∈ dom Dn ∧ 1 < len v) as Hgen.
  { intros v. rewrite list_elem_of_In, filter_In, <-list_elem_of_In, elem_of_set_iter.
    rewrite Hvars, <-Hdom0, <-Hdom, bool_decide_eq_true. done. }
  assert (NoDup (List.filter (λ v, bool_decide (1 < len v)) (set_iter (variables csp))))
    as Hgnd.
  { apply NoDup_ListNoDup, List.NoDup_filter, NoDup_ListNoDup, NoDup_set_iter. }
  assert (∀ v, v ∈ dom Dn → len v ≠ 0) as Hne0.
  { intros v Hv Hz. apply not_true_iff_false in Hany. apply Hany, existsb_exists.
    exists v. split; [|by apply bool_decide_eq_true].
    apply list_elem_of_In, keys_lookup. by rewrite <-Hdom. }
  destruct (List.filter _ _) as [|v [|w rest]] eqn:Hfilter.
  - exfalso. apply not_true_iff_false in Hall. apply Hall, forallb_forall.
    intros v Hv%list_elem_of_In%keys_lookup. rewrite <-Hdom in Hv.
    apply bool_decide_eq_true. pose proof (Hne0 v Hv).
    destruct (decide (1 < len v)) as [Hgt|]; [|lia].
    assert (v ∈ @nil var) as Hnil by (by apply Hgen). by apply elem_of_nil in Hnil.
  - exfalso. assert (v ∈ dom Dn ∧ 1 < len v) as [Hv Hgt] by (apply Hgen; left).
    destruct (Hset v Hv) as (c & s & Hc & Hvc & Hl & Hs & Hcons).
    unfold len in Hgt. rewrite Hs in Hgt. simpl in Hgt.
    destruct (size_gt_1_neq s Hgt) as (y1 & y2 & Hy1 & Hy2 & Hy).
    apply Hy. apply (lone_candidate Dn c v y1 y2); [by eapply ok_nodup|done..| | |done| |].
    + intros u x Hu Hx. apply (Hdigits u). by eapply in_dom_shrinks.
    + intros u x x' Hu Huv (d & Hd & Hx) (d' & Hd' & Hx').
      assert (u ∈ dom Dn) as HuD by (apply elem_of_dom; eauto).
      destruct (Hset u HuD) as (_ & su & _ & _ & _ & Hsu & _).
      assert (d = DSet su) as -> by congruence. assert (d' = DSet su) as -> by congruence.
      simpl in *. apply (size_le_1_eq su); [|done..].
      destruct (decide (1 < size su)) as [Hbig|]; [|lia]. exfalso.
      assert (u ∈ [v]) as ->%list_elem_of_singleton; [|done].
      apply Hgen. split; [done|]. unfold len. by rewrite Hsu.
    + exists (DSet s). done.
    + exists (DSet s). done.
  - assert (v ∈ dom Dn ∧ 1 < len v) as [Hv Hgt] by (apply Hgen; left).
    rewrite (select_most_constrained_var_first csp v w rest 9).
    2:{ intros u [HuD Hu]%Hgen. destruct (Hset u HuD) as (_ & su & _ & _ & _ & Hsu & _).
        unfold len in Hu. rewrite Hsu in Hu. simpl in Hu.
        pose proof (Hshn u) as Hu0. rewrite Hsu in Hu0. destruct Hu0 as (d0 & Hd0 & Hle).
        exists d0. split; [done|].
        destruct (Hlen9 u d0 Hd0) as [H1|H9]; [exfalso|done].
        assert (size su ≤ dom_len d0); [|lia].
        destruct Hle as [<-|(s' & [= <-] & Hsub)]; [done|].
        etrans; [by apply subseteq_size|].
        destruct d0 as [l|s0]; simpl; [apply size_list_to_set_le|done]. }
    rewrite ret_bind. destruct (Hset v Hv) as (c & s & Hc & Hvc & Hl & Hs & Hcons).
    rewrite (getitem_Some _ _ _ Hs), ret_bind.
    destruct (partition_domain_spec s) as (s1 & s2 & Hp & Hs1 & Hs2 & _).
    rewrite Hp, ret_bind.
    destruct (ok_v2c _ _ _ _ Hokn Hc Hvc) as (cs & Hcs & Hiff).
    destruct (new_to_do_total csp v None cs Hcs) as [nt Hnt]. rewrite Hnt, ret_bind.
    apply new_to_do_spec in Hnt as (cs' & Hcs' & Hnt).
    assert (cs' = cs) as -> by congruence.
    assert (∀ s', s' ⊆ s →
      match solve_recursive_ds fuel csp (Some (<[v := DSet s']> Dn)) (Some nt) with
      | Ret AFalse | Ret (ADict _) | Timeout => True
      | _ => False
      end) as Hchild.
    { intros s' Hs'. apply IH; simpl.
      - eapply csp_ok_dom; [|done]. rewrite dom_insert_L. set_solver.
      - eapply shrinks_trans; [done|]. eapply shrinks_insert; [done|]. right. eauto.
      - intros [n c'] (Hc' & _ & Hn & _)%Hnt. apply elem_of_csp_arcs.
        by apply Hiff in Hc' as [Hc' _].
      - intros [n c'] Harc Hnin. eapply settled_narrow; [done..|by apply Hfix|].
        destruct (decide (n = v)) as [|Hnv]; [by left|]. right. intros Hvc'.
        apply Hnin, Hnt. apply elem_of_csp_arcs in Harc as [Hc' Hn].
        split_and!; [by apply Hiff|done..]. }
    unfold copy_with_assign.
    pose proof (Hchild s1 Hs1) as H1. pose proof (Hchild s2 Hs2) as H2.
    destruct (solve_recursive_ds fuel csp (Some (<[v := DSet s1]> Dn)) (Some nt))
      as [[| |a1]| |]; try done.
    + rewrite ret_bind. simpl. case_bool_decide; done.
Qed.

End sudoku_search.

Section sudoku_answers.
Context `{!HashOrder}.

Lemma init_sudoku_like puzzle s :
  wf_puzzle puzzle → Sudoku.init puzzle = Ret s → sudoku_like (Sudoku.csp s).
Proof.
  intros Hwf Hs. pose proof (init_spec _ _ Hs) as (_ & _ & Hinit).
  pose proof (CSP_init_spec _ _ _ Hinit) as (Hvars & Hdoms & Hcons & _).
  split; rewrite ?Hdoms, ?Hcons.
  - done.
  - intros [r c] [Hr Hc]%wf_puzzle_dom; [|done].
    exists {| cid := r; scope := row_to_indices r; condition := is_all_unique_fn |}.
    split; [apply init_constraints_scopes; exists r; auto|]. simpl. split.
    + unfold row_to_indices. apply list_elem_of_fmap. exists c. split; [done|].
      apply elem_of_seq. lia.
    + reflexivity.
  - intros [r c] x Hx. by destruct (init_domain_values puzzle r c x Hwf Hx).
  - intros [r c] d Hd. rewrite init_domains_lookup in Hd.
    destruct (puzzle !! r) as [row|]; [|done]. simpl in Hd.
    destruct (row !! c) as [y|]; [|done]. simpl in Hd. injection Hd as <-.
    case_decide; [by left|by right].
Qed.

(** On a well-formed puzzle the search, given enough fuel, answers [False]
    or a dictionary that solves the CSP. *)
Lemma search_answers puzzle s :
  wf_puzzle puzzle → Sudoku.init puzzle = Ret s →
  ∃ n, ∀ fuel, n ≤ fuel →
    solve_recursive_ds fuel (Sudoku.csp s) None None = Ret AFalse
    ∨ ∃ sol, solve_recursive_ds fuel (Sudoku.csp s) None None = Ret (ADict sol)
             ∧ is_solution (Sudoku.csp s) (Sudoku.init_domains puzzle) sol.
Proof.
  intros Hwf Hs. pose proof (init_sudoku_like _ _ Hwf Hs) as Hsl.
  pose proof (init_spec _ _ Hs) as (_ & _ & Hinit).
  pose proof (CSP_init_spec _ _ _ Hinit) as (_ & Hdoms & _).
  destruct (solve_terminates (Sudoku.csp s) _ None None (le_n _)) as [n Hn].
  exists n. intros fuel Hle. specialize (Hn fuel Hle).
  pose proof (solve_answers (Sudoku.csp s) Hsl fuel None None) as Hans. simpl in Hans.
  destruct (solve_recursive_ds fuel (Sudoku.csp s) None None) as [[| |sol]| |] eqn:Hrun.
  - by left.
  - exfalso. apply Hans.
    + rewrite Hdoms. by apply (init_csp_ok puzzle).
    + apply shrinks_refl.
    + intros a Ha. by apply elem_of_list_to_set in Ha.
    + intros a Ha Hna. exfalso. apply Hna. by apply elem_of_list_to_set.
  - right. exists sol. split; [done|]. eapply root_sound; [done| |done].
    intros c Hc. pose proof init_constraints_shape as Hsh. rewrite Forall_forall in Hsh.
    by destruct (Hsh c Hc).
  - exfalso. apply Hans.
    + rewrite Hdoms. by apply (init_csp_ok puzzle).
    + apply shrinks_refl.
    + intros a Ha. by apply elem_of_list_to_set in Ha.
    + intros a Ha Hna. exfalso. apply Hna. by apply elem_of_list_to_set.
  - done.
Qed.

(** A dictionary that solves the CSP of a puzzle is a completion of the
    puzzle. *)
Lemma solution_completes puzzle s sol :
  wf_puzzle puzzle → Sudoku.init puzzle = Ret s →
  is_solution (Sudoku.csp s) (Sudoku.init_domains puzzle) sol → solvable puzzle.
Proof.
  intros Hwf Hs (Hdom & Hvals & Hdiff).
  pose proof (init_spec _ _ Hs) as (_ & _ & Hinit).
  pose proof (CSP_init_spec _ _ _ Hinit) as (_ & _ & Hcons & _).
  set (a := λ p : var, default 0%Z (default None (sol !! p))).
  assert (∀ r c, r < 9 → c < 9 →
            sol !! (r, c) = Some (Some (a (r, c)))
            ∧ in_dom (Sudoku.init_domains puzzle) (r, c) (a (r, c))) as Ha.
  { intros r c Hr Hc. destruct (Hvals (r, c)) as (x & Hx & Hin); [by apply wf_puzzle_dom|].
    unfold a. rewrite Hx. done. }
  assert (∀ c, c ∈ Sudoku.init_constraints → NoDup (a <$> scope c)) as Hnd.
  { intros c Hc. pose proof init_constraints_shape as Hsh. rewrite Forall_forall in Hsh.
    destruct (Hsh c Hc) as (Hndc & Hrange & _). rewrite Forall_forall in Hrange.
    apply NoDup_fmap_2_strong; [|done]. intros [r1 c1] [r2 c2] H1 H2 Heq.
    destruct (decide ((r1, c1) = (r2, c2))) as [|Hne]; [done|]. exfalso.
    apply (Hdiff c (r1, c1) (r2, c2)); [by rewrite Hcons|done..|].
    destruct (Hrange _ H1), (Hrange _ H2). simpl in *.
    destruct (Ha r1 c1) as [-> _]; [done..|]. destruct (Ha r2 c2) as [-> _]; [done..|].
    by rewrite Heq. }
  exists a. split_and!.
  - intros r c Hr Hc. destruct (Ha r c Hr Hc) as [_ Hin].
    by destruct (init_domain_values puzzle r c _ Hwf Hin).
  - intros [r c] x Hx Hnz.
    assert (r < 9 ∧ c < 9) as [Hr Hc].
    { apply (wf_puzzle_dom puzzle r c Hwf). rewrite elem_of_dom, init_domains_lookup.
      unfold grid_at in Hx. simpl in Hx. destruct (puzzle !! r) as [row|]; [|done].
      simpl in *. rewrite Hx. simpl. eauto. }
    destruct (Ha r c Hr Hc) as [_ Hin].
    destruct (init_domain_values puzzle r c _ Hwf Hin) as [_ Heq]. by apply Heq.
  - intros i Hi. split_and!; [apply (Hnd
              {| cid := i; scope := row_to_indices i; condition := is_all_unique_fn |})
    |apply (Hnd {| cid := 9 + i; scope := col_to_indices i; condition := is_all_unique_fn |})
    |apply (Hnd {| cid := 18 + i; scope := box_to_indices i; condition := is_all_unique_fn |})];
    apply init_constraints_scopes; exists i; auto.
Qed.

(** A puzzle with the same digit twice in a row, a column or a box has no
    completion. *)
Lemma clash_unsolvable puzzle c p1 p2 x :
  c ∈ Sudoku.init_constraints → p1 ∈ scope c → p2 ∈ scope c → p1 ≠ p2 →
  grid_at puzzle p1 = Some x → grid_at puzzle p2 = Some x → x ≠ 0%Z →
  ¬ solvable puzzle.
Proof.
  intros Hc H1 H2 Hne Hx1 Hx2 Hnz (a & _ & Hgiven & Hnd).
  apply Hne. apply (NoDup_fmap_inj_on a (scope c)); [|done..|].
  - apply init_constraints_scopes in Hc as (i & Hi & [-> | [-> | ->]]); by apply Hnd.
  - by rewrite (Hgiven p1 x), (Hgiven p2 x).
Qed.

(** C3 (what the code does).  On a well-formed puzzle that has no
    completion, the search returns [False], not [None], and [Sudoku.solve]
    raises [AttributeError] on it instead of reporting the failure. *)
Theorem solve_unsolvable_raises (puzzle : list (list Z)) :
  wf_puzzle puzzle → ¬ solvable puzzle →
  ∃ n, ∀ fuel, n ≤ fuel →
    (∃ s, Sudoku.init puzzle = Ret s
          ∧ solve_recursive_ds fuel (Sudoku.csp s) None None = Ret AFalse)
    ∧ Sudoku.run fuel puzzle = Raise AttributeError.
Proof.
  intros Hwf Hno. destruct (init_total puzzle Hwf) as [s Hs].
  destruct (search_answers puzzle s Hwf Hs) as [n Hn].
  exists n. intros fuel Hle.
  destruct (Hn fuel Hle) as [Hfalse|(sol & _ & Hsol)].
  - split; [by exists s|]. unfold Sudoku.run. rewrite Hs. simpl. unfold Sudoku.solve.
    by rewrite Hfalse.
  - exfalso. apply Hno. by eapply solution_completes.
Qed.

(** At the root, the variable chosen for splitting is the first candidate
    that the generator yields, whatever the sizes of the domains. *)
Lemma branching_step_first puzzle s fuel sel sizes :
  wf_puzzle puzzle → Sudoku.init puzzle = Ret s →
  branching_step fuel (Sudoku.csp s) = Ret (sel, sizes) →
  sel = fst <$> head sizes.
Proof.
  intros Hwf Hs Hb. pose proof (init_sudoku_like _ _ Hwf Hs) as [Hvars Hcover Hdigits Hlen9].
  pose proof (init_spec _ _ Hs) as (_ & _ & Hinit).
  pose proof (CSP_init_spec _ _ _ Hinit) as (_ & Hdoms & _).
  pose proof (init_csp_ok puzzle s (Sudoku.init_domains puzzle) Hs eq_refl) as Hok.
  unfold branching_step in Hb.
  apply bind_Ret in Hb as (Dn & Hmac & Hb).
  apply bind_Ret in Hb as (gen & Hgen & Hb).
  apply bind_Ret in Hb as (sel' & Hsel & Hb).
  apply bind_Ret in Hb as (sizes' & Hsizes & Hb). injection Hb as -> ->.
  rewrite make_arc_consistent_unfold in Hmac.
  change (default (domains (Sudoku.csp s)) (Some (domains (Sudoku.csp s))))
    with (domains (Sudoku.csp s)) in Hmac.
  pose proof (arc_loop_inv (Sudoku.csp s) fuel (domains (Sudoku.csp s))
                (queue (Sudoku.csp s) None)) as Hfix.
  rewrite Hmac in Hfix.
  pose proof (arc_loop_shrinks _ _ _ _ _ Hmac) as Hsh.
  assert (∀ u, u ∈ gen →
            ∃ d, domains (Sudoku.csp s) !! u = Some d ∧ dom_len d = 9) as Hnine.
  { intros u Hu. apply (py_filter_elem _ _ _ _ Hgen) in Hu as [Hu Hbig].
    apply elem_of_set_iter in Hu. rewrite Hvars in Hu.
    destruct (Hcover u Hu) as (c & Hc & Huc & _).
    destruct Hfix with (a := (u, c)) as [[su Hsu] _].
    { by rewrite Hdoms. }
    { intros a Ha. by apply elem_of_list_to_set in Ha. }
    { intros a Ha Hna. exfalso. apply Hna. by apply elem_of_list_to_set. }
    { by apply elem_of_csp_arcs. }
    simpl in Hsu. rewrite (getitem_Some _ _ _ Hsu) in Hbig. simpl in Hbig.
    injection Hbig as Hbig. apply bool_decide_eq_true in Hbig.
    pose proof (Hsh u) as Hu0. rewrite Hsu in Hu0. destruct Hu0 as (d0 & Hd0 & Hle).
    exists d0. split; [done|].
    destruct (Hlen9 u d0 Hd0) as [H1|H9]; [exfalso|done].
    assert (size su ≤ dom_len d0); [|lia].
    destruct Hle as [<-|(s' & [= <-] & Hsub)]; [done|].
    etrans; [by apply subseteq_size|].
    destruct d0 as [l|s0]; simpl; [apply size_list_to_set_le|done]. }
  destruct gen as [|v [|w rest]].
  - simpl in *. by simplify_eq.
  - exfalso. destruct (Hnine v) as (d & Hd & _); [left|].
    unfold select_most_constrained_var in Hsel.
    by rewrite (getitem_Some _ _ _ Hd) in Hsel.
  - rewrite (select_most_constrained_var_first _ v w rest 9 Hnine) in Hsel.
    injection Hsel as <-. simpl in Hsizes.
    apply bind_Ret in Hsizes as (vs & Hvs & Hsizes).
    apply bind_Ret in Hvs as (dv & _ & Hvs). injection Hvs as <-.
    apply bind_Ret in Hsizes as (tl & _ & Hsizes). by injection Hsizes as <-.
Qed.

End sudoku_answers.

Section propagation.
Context `{!HashOrder}.
Local Arguments dom_ne : simpl never.

(** A family [P] of values in which every value has a support made of
    values of the family is never cut by the work loop. *)
Lemma arc_loop_keeps csp (P : var → Z → Prop) :
  (∀ c v x, c ∈ constraints csp → v ∈ scope c → P v x →
     ∃ f : gmap var Z, f !! v = Some x
       ∧ (∀ u, u ∈ scope c → u ≠ v → ∃ y, f !! u = Some y ∧ P u y)
       ∧ all_diff f (scope c)) →
  ∀ fuel D to_do D',
    csp_ok csp D → (∀ a, a ∈ to_do → a ∈ csp_arcs csp) →
    (∀ v x, P v x → in_dom D v x) →
    arc_loop fuel csp D to_do = Ret D' →
    ∀ v x, P v x → in_dom D' v x.
Proof.
  intros HP. induction fuel as [|fuel IH]; intros D to_do D' Hok Hsub HPD Hr; simpl in Hr;
    [done|].
  destruct (set_truthy to_do) eqn:Ht; simpl in Hr.
  2:{ by injection Hr as <-. }
  destruct (select_arc_spec to_do Ht) as ([v c] & Hsel & Ha). rewrite Hsel in Hr. simpl in Hr.
  pose proof (Hsub _ Ha) as [Hc Hv]%elem_of_csp_arcs.
  destruct (ok_scope_dom _ _ Hok c v Hc Hv) as [d Hd].
  destruct (revise_spec D c v d Hd) as (new & Hrev & Hnew).
  { intros u Hu _. by eapply ok_scope_dom. }
  { by eapply ok_nodup. }
  rewrite Hrev in Hr. simpl in Hr. rewrite (getitem_Some _ _ _ Hd) in Hr. simpl in Hr.
  destruct (dom_ne (DSet new) d) eqn:Hne.
  - apply bind_Ret in Hr as (nt & Hnt & Hr).
    apply new_to_do_spec in Hnt as (cs & Hcs & Hnt).
    eapply IH; [| | |exact Hr].
    + eapply csp_ok_dom; [|done]. rewrite dom_insert_L.
      assert (v ∈ dom D) by (apply elem_of_dom; eauto). set_solver.
    + intros [n c'] [Hin|[Hin _]%elem_of_difference]%elem_of_union.
      * apply Hsub. set_solver.
      * apply Hnt in Hin as (Hc' & _ & Hn & _). apply elem_of_csp_arcs.
        apply (ok_v2c_iff _ _ Hok v cs Hcs) in Hc' as [Hc' _]. done.
    + intros u x Hx. destruct (decide (u = v)) as [->|Huv].
      * apply in_dom_insert_eq. simpl. apply Hnew.
        destruct (HPD v x Hx) as (d' & Hd' & Hxd). assert (d' = d) as -> by congruence.
        split; [done|]. destruct (HP c v x Hc Hv Hx) as (f & Hf & Hfin & Hfd).
        exists f. split_and!; [done| |done].
        intros w Hw Hwv. destruct (Hfin w Hw Hwv) as (y & Hy & HPy). eauto.
      * apply in_dom_insert_ne; [done|]. by apply HPD.
  - eapply IH; [exact Hok| |exact HPD|exact Hr].
    intros a Hin. apply Hsub. set_solver.
Qed.

(** The work loop only replaces domains of variables that occur in a scope. *)
Lemma arc_loop_untouched csp : ∀ fuel D to_do D',
  csp_ok csp D → (∀ a, a ∈ to_do → a ∈ csp_arcs csp) →
  arc_loop fuel csp D to_do = Ret D' →
  ∀ v, (∀ c, c ∈ constraints csp → v ∉ scope c) → D' !! v = D !! v.
Proof.
  induction fuel as [|fuel IH]; intros D to_do D' Hok Hsub Hr u Hu; simpl in Hr; [done|].
  destruct (set_truthy to_do) eqn:Ht; simpl in Hr.
  2:{ by injection Hr as <-. }
  destruct (select_arc_spec to_do Ht) as ([v c] & Hsel & Ha). rewrite Hsel in Hr. simpl in Hr.
  pose proof (Hsub _ Ha) as [Hc Hv]%elem_of_csp_arcs.
  apply bind_Ret in Hr as (new & Hrev & Hr).
  apply bind_Ret in Hr as (d & Hd & Hr). apply getitem_Ret in Hd.
  destruct (dom_ne new d).
  - apply bind_Ret in Hr as (nt & Hnt & Hr).
    apply new_to_do_spec in Hnt as (cs & Hcs & Hnt).
    trans (<[v := new]> D !! u).
    2:{ apply lookup_insert_ne. intros ->. by apply (Hu c). }
    eapply IH; [| |exact Hr|exact Hu].
    + eapply csp_ok_dom; [|done]. rewrite dom_insert_L.
      assert (v ∈ dom D) by (apply elem_of_dom; eauto). set_solver.
    + intros [n c'] [Hin|[Hin _]%elem_of_difference]%elem_of_union.
      * apply Hsub. set_solver.
      * apply Hnt in Hin as (Hc' & _ & Hn & _). apply elem_of_csp_arcs.
        apply (ok_v2c_iff _ _ Hok v cs Hcs) in Hc' as [Hc' _]. done.
  - eapply IH; [exact Hok| |exact Hr|exact Hu].
    intros a Hin. apply Hsub. set_solver.
Qed.

(** A solution, read as a family of values, supports itself. *)
Lemma solution_supports csp D a :
  csp_ok csp D → is_solution csp D a →
  ∀ c v x, c ∈ constraints csp → v ∈ scope c → a !! v = Some (Some x) →
    ∃ f : gmap var Z, f !! v = Some x
      ∧ (∀ u, u ∈ scope c → u ≠ v → ∃ y, f !! u = Some y ∧ a !! u = Some (Some y))
      ∧ all_diff f (scope c).
Proof.
  intros Hok (Hdom & Hvals & Hdiff) c v x Hc Hv Hx.
  assert (∀ u, u ∈ scope c → ∃ y, a !! u = Some (Some y)) as Hy.
  { intros u Hu. destruct (Hvals u) as (y & Hy & _); [|eauto].
    apply elem_of_dom. by eapply ok_scope_dom. }
  exists (omap id a). split_and!.
  - by rewrite lookup_omap, Hx.
  - intros u Hu _. destruct (Hy u Hu) as [y Hay]. exists y. by rewrite lookup_omap, Hay.
  - intros p1 p2 H1 H2 Hne. rewrite !lookup_omap.
    destruct (Hy p1 H1) as [y1 Hy1], (Hy p2 H2) as [y2 Hy2].
    pose proof (Hdiff c p1 p2 Hc H1 H2 Hne) as Hd. rewrite Hy1, Hy2 in *. simpl.
    intros [= ->]. done.
Qed.

Lemma arc_loop_keeps_solutions csp fuel D to_do D' a :
  csp_ok csp D → (∀ arc, arc ∈ to_do → arc ∈ csp_arcs csp) →
  arc_loop fuel csp D to_do = Ret D' →
  is_solution csp D a → is_solution csp D' a.
Proof.
  intros Hok Hq Hloop Hsol. pose proof Hsol as (Hdom & Hvals & Hdiff).
  pose proof (arc_loop_shrinks _ _ _ _ _ Hloop) as Hsh.
  pose proof (shrinks_dom _ _ Hsh) as Hd.
  split_and!; [congruence| |done].
  intros v Hv. rewrite Hd in Hv. destruct (Hvals v Hv) as (x & Hx & Hin).
  exists x. split; [done|].
  apply (arc_loop_keeps csp (λ v x, a !! v = Some (Some x) ∧ v ∈ dom D))
    with (fuel := fuel) (D := D) (to_do := to_do); [|done|done| |done|done].
  - intros c u y Hc Hu [Hy _]. destruct (solution_supports csp D a Hok Hsol c u y Hc Hu Hy)
      as (f & Hf & Hfin & Hfd).
    exists f. split_and!; [done| |done]. intros w Hw Hwu.
    destruct (Hfin w Hw Hwu) as (z & Hz & Haz). exists z. split_and!; [done..|].
    apply elem_of_dom. by eapply ok_scope_dom.
  - intros u y [Hy HuD]. destruct (Hvals u HuD) as (y' & Hy' & Hin').
    by assert (y' = y) as -> by congruence.
Qed.

(** X1.  Propagation loses no solution: an assignment that takes its values
    in the domains given to [make_arc_consistent] and satisfies every
    constraint still takes its values in the domains returned, whatever the
    seed arcs (arcs of the CSP) and the order in which they are revised. *)
Theorem propagation_keeps_solutions (D0 : gmap var domain) (cons : list Constraint)
    (csp : CSP) (D D' : gmap var domain) (to_do : option (pyset arc)) (fuel : nat)
    (a : gmap var (option Z)) :
  CSP_init D0 cons = Ret csp →
  (∀ c, c ∈ cons → NoDup (scope c)) →
  dom D = dom D0 →
  (∀ arc, arc ∈ queue csp to_do → arc ∈ csp_arcs csp) →
  make_arc_consistent fuel csp (Some D) to_do = Ret D' →
  is_solution csp D a → is_solution csp D' a.
Proof.
  intros Hinit Hnd Hdom Hq Hmac Hsol.
  pose proof (CSP_init_ok _ _ _ D Hinit Hnd Hdom) as Hok.
  rewrite make_arc_consistent_unfold in Hmac.
  by eapply arc_loop_keeps_solutions.
Qed.

(** X2.  Propagation from the full queue reaches arc consistency: it returns
    (no exception), every domain it returns for a variable of a scope is a
    set, and every value left in it has a support in every constraint on the
    variable, made of values left in the other domains. *)
Theorem propagation_reaches_arc_consistency (D0 : gmap var domain) (cons : list Constraint)
    (csp : CSP) (D : gmap var domain) :
  CSP_init D0 cons = Ret csp →
  (∀ c, c ∈ cons → NoDup (scope c)) →
  dom D = dom D0 →
  ∃ n, ∀ fuel, n ≤ fuel →
    ∃ D', make_arc_consistent fuel csp (Some D) None = Ret D'
      ∧ ∀ c v, c ∈ cons → v ∈ scope c →
          (∃ s, D' !! v = Some (DSet s))
          ∧ ∀ x, in_dom D' v x → supported D' c v x.
Proof.
  intros Hinit Hnd Hdom.
  pose proof (CSP_init_ok _ _ _ D Hinit Hnd Hdom) as Hok.
  pose proof (CSP_init_spec _ _ _ Hinit) as (_ & _ & Hcons & _).
  destruct (make_arc_consistent_terminates csp (Some D) None) as [n0 Hn0].
  exists n0. intros fuel Hle. specialize (Hn0 fuel Hle).
  rewrite make_arc_consistent_unfold in *. change (default (domains csp) (Some D)) with D in *.
  pose proof (arc_loop_inv csp fuel D (queue csp None) Hok) as Hinv.
  destruct (arc_loop fuel csp D (queue csp None)) as [Dn| |] eqn:Hloop; [|exfalso..].
  - exists Dn. split; [done|]. intros c v Hc Hv.
    destruct Hinv with (a := (v, c)) as [Hset Hcons'].
    + intros a Ha. by apply elem_of_list_to_set in Ha.
    + intros a Ha Hn. exfalso. apply Hn. by apply elem_of_list_to_set.
    + apply elem_of_csp_arcs. by rewrite Hcons.
    + done.
  - apply Hinv.
    + intros a Ha. by apply elem_of_list_to_set in Ha.
    + intros a Ha Hn. exfalso. apply Hn. by apply elem_of_list_to_set.
  - done.
Qed.

(** X4.  The work loop of [make_arc_consistent] takes at most
    [mu D * (A + 1) + Q] rounds, where [mu D] is the total size of the
    domains (a list counting one more than its length), [A] the number of
    arcs that can enter the queue and [Q] the size of the starting queue. *)
Theorem propagation_work_bound (csp : CSP) (D : option (gmap var domain))
    (to_do : option (pyset arc)) (fuel : nat) :
  mu (default (domains csp) D) * S (size (all_new csp ∪ queue csp to_do))
    + size (queue csp to_do) < fuel →
  make_arc_consistent fuel csp D to_do ≠ Timeout.
Proof.
  intros Hlt. rewrite make_arc_consistent_unfold.
  apply (arc_loop_terminates csp (all_new csp ∪ queue csp to_do)); [set_solver|set_solver|done].
Qed.

End propagation.

(** X3.  The domains returned by propagation from the full queue do not
    depend on the order in which Python iterates over its sets: two runs
    under two iteration orders return the same map. *)
Theorem propagation_order_independent (O1 O2 : HashOrder) (D0 : gmap var domain)
    (cons : list Constraint) (csp : CSP) (D D1 D2 : gmap var domain) (fuel1 fuel2 : nat) :
  CSP_init D0 cons = Ret csp →
  (∀ c, c ∈ cons → NoDup (scope c)) →
  dom D = dom D0 →
  @make_arc_consistent O1 fuel1 csp (Some D) None = Ret D1 →
  @make_arc_consistent O2 fuel2 csp (Some D) None = Ret D2 →
  D1 = D2.
Proof.
  intros Hinit Hnd Hdom H1 H2.
  pose proof (CSP_init_ok _ _ _ D Hinit Hnd Hdom) as Hok.
  pose proof (CSP_init_spec _ _ _ Hinit) as (_ & _ & Hcons & _).
  rewrite @make_arc_consistent_unfold in H1, H2.
  change (default (domains csp) (Some D)) with D in *.
  assert (∀ a, a ∈ queue csp None → a ∈ csp_arcs csp) as Hq.
  { intros a Ha. by apply elem_of_list_to_set in Ha. }
  assert (∀ a, a ∈ csp_arcs csp → a ∉ queue csp None → settled D a) as Hvac.
  { intros a Ha Hn. exfalso. apply Hn. by apply elem_of_list_to_set. }
  pose proof (@arc_loop_inv O1 csp fuel1 D (queue csp None) Hok Hq Hvac) as Hs1.
  pose proof (@arc_loop_inv O2 csp fuel2 D (queue csp None) Hok Hq Hvac) as Hs2.
  rewrite H1 in Hs1. rewrite H2 in Hs2.
  pose proof (@arc_loop_shrinks O1 _ _ _ _ _ H1) as Hsh1.
  pose proof (@arc_loop_shrinks O2 _ _ _ _ _ H2) as Hsh2.
  assert (∀ (Oa : HashOrder) fa Da Db,
            @arc_loop Oa fa csp D (queue csp None) = Ret Da →
            shrinks D Db → (∀ a, a ∈ csp_arcs csp → settled Db a) →
            ∀ c v x, c ∈ constraints csp → v ∈ scope c → in_dom Db v x → in_dom Da v x)
    as Hbelow.
  { intros Oa fa Da Db Ha Hshb Hsb c v x Hc Hv Hx.
    apply (@arc_loop_keeps Oa csp
             (λ v x, in_dom Db v x ∧ ∃ c, c ∈ constraints csp ∧ v ∈ scope c))
      with (fuel := fa) (D := D) (to_do := queue csp None); [|done|done| |done|].
    - intros c' u y Hc' Hu [Hy _].
      destruct (Hsb (u, c')) as [_ Hcons']; [by apply elem_of_csp_arcs|].
      destruct (Hcons' y Hy) as (f & Hf & Hfin & Hfd). simpl in *.
      exists f. split_and!; [done| |done]. intros w Hw Hwu.
      destruct (Hfin w Hw Hwu) as (z & Hz & Hin). exists z. eauto.
    - intros u y [Hy _]. by eapply in_dom_shrinks.
    - eauto. }
  apply map_eq. intros v.
  destruct (decide (Exists (λ c, v ∈ scope c) (constraints csp)))
    as [(c & Hc & Hv)%Exists_exists|Hno].
  - destruct (Hs1 (v, c)) as [[s1 Hv1] _]; [by apply elem_of_csp_arcs|].
    destruct (Hs2 (v, c)) as [[s2 Hv2] _]; [by apply elem_of_csp_arcs|].
    simpl in *. rewrite Hv1, Hv2. do 2 f_equal. apply set_eq. intros x. split; intros Hx.
    + destruct (Hbelow O2 fuel2 D2 D1 H2 Hsh1 Hs1 c v x Hc Hv) as (d & Hd & Hxd).
      { exists (DSet s1). done. }
      by assert (d = DSet s2) as -> by congruence.
    + destruct (Hbelow O1 fuel1 D1 D2 H1 Hsh2 Hs2 c v x Hc Hv) as (d & Hd & Hxd).
      { exists (DSet s2). done. }
      by assert (d = DSet s1) as -> by congruence.
  - assert (∀ c, c ∈ constraints csp → v ∉ scope c) as Hout.
    { intros c Hc Hv. apply Hno, Exists_exists. eauto. }
    rewrite (@arc_loop_untouched O1 csp fuel1 D _ D1 Hok Hq H1 v Hout).
    by rewrite (@arc_loop_untouched O2 csp fuel2 D _ D2 Hok Hq H2 v Hout).
Qed.

Section search_complete.
Context `{!HashOrder}.
Local Arguments dom_ne : simpl never.

Lemma py_any_true {A} (f : A → outcome bool) l :
  py_any f l = Ret true → ∃ x, x ∈ l ∧ f x = Ret true.
Proof.
  induction l as [|x l IH]; intros Hr; simpl in Hr; [done|].
  apply bind_Ret in Hr as (b & Hb & Hr). destruct b.
  - exists x. split; [left|done].
  - destruct (IH Hr) as (y & Hy & Hfy). exists y. split; [by right|done].
Qed.

Lemma dom_len_0 d : dom_len d = 0 → dom_vals d = ∅.
Proof.
  destruct d as [l|s]; simpl.
  - by intros ->%length_zero_iff_nil.
  - by intros ->%size_empty_iff%leibniz_equiv.
Qed.

Lemma is_solution_narrow csp D v s s' a x :
  D !! v = Some (DSet s) → a !! v = Some (Some x) → x ∈ s' →
  is_solution csp D a → is_solution csp (<[v := DSet s']> D) a.
Proof.
  intros Hv Hx Hxs (Hdom & Hvals & Hdiff).
  assert (v ∈ dom D) as HvD by (apply elem_of_dom; eauto).
  assert (dom (<[v := DSet s']> D) = dom D) as Hd by (rewrite dom_insert_L; set_solver).
  split_and!; [congruence| |done].
  intros u Hu. rewrite Hd in Hu. destruct (decide (u = v)) as [->|Huv].
  - exists x. split; [done|]. by apply in_dom_insert_eq.
  - destruct (Hvals u Hu) as (y & Hy & Hin). exists y. split; [done|].
    by apply in_dom_insert_ne.
Qed.

(** On the CSP of a puzzle, the answer [False] is right: the domains the
    search was given hold no solution. *)
Lemma solve_complete csp : sudoku_like csp → ∀ fuel doms to_do,
  let D := default (domains csp) doms in
  csp_ok csp D → shrinks (domains csp) D →
  (∀ arc, arc ∈ queue csp to_do → arc ∈ csp_arcs csp) →
  (∀ arc, arc ∈ csp_arcs csp → arc ∉ queue csp to_do → settled D arc) →
  solve_recursive_ds fuel csp doms to_do = Ret AFalse →
  ∀ a, ¬ is_solution csp D a.
Proof.
  intros Hsl. induction fuel as [|fuel IH]; intros doms to_do D Hok Hsh0 Hq Hinv Hs a Hsol;
    [done|].
  rewrite solve_recursive_ds_unfold in Hs. fold D in Hs.
  rewrite make_arc_consistent_unfold in Hs.
  change (default (domains csp) (Some D)) with D in Hs.
  pose proof (arc_loop_inv csp fuel D (queue csp to_do) Hok Hq Hinv) as Hfix.
  destruct (arc_loop fuel csp D (queue csp to_do)) as [Dn| |] eqn:Hloop; [|done..].
  rewrite ret_bind in Hs.
  pose proof (arc_loop_shrinks _ _ _ _ _ Hloop) as Hsh.
  pose proof (shrinks_dom _ _ Hsh) as Hdom.
  pose proof (csp_ok_shrinks _ _ _ Hsh Hok) as Hokn.
  pose proof (arc_loop_keeps_solutions csp fuel D _ Dn a Hok Hq Hloop Hsol) as Hsoln.
  unfold solve_rest in Hs.
  apply bind_Ret in Hs as (some_empty & Hany & Hs). destruct some_empty.
  { apply py_any_true in Hany as (v & Hv & Hfv).
    apply bind_Ret in Hfv as (d & Hd & Hlen). apply getitem_Ret in Hd.
    injection Hlen as Hlen. apply bool_decide_eq_true in Hlen.
    destruct Hsoln as (_ & Hvals & _).
    destruct (Hvals v) as (x & _ & (d' & Hd' & Hx)); [apply elem_of_dom; eauto|].
    assert (d' = d) as -> by congruence. rewrite (dom_len_0 d Hlen) in Hx. set_solver. }
  apply bind_Ret in Hs as (all_single & Hall & Hs). destruct all_single.
  { apply bind_Ret in Hs as (items & _ & Hs). done. }
  apply bind_Ret in Hs as (gen & Hgen & Hs).
  apply bind_Ret in Hs as (sel & Hsel & Hs).
  destruct sel as [v|]; [|done].
  apply bind_Ret in Hs as (d & Hd & Hs). apply getitem_Ret in Hd.
  apply bind_Ret in Hs as ([dom1 dom2] & Hpart & Hs).
  apply bind_Ret in Hs as (nt & Hnt & Hs).
  destruct d as [l|s]; [done|].
  destruct (partition_domain_spec s) as (s1 & s2 & Hp & Hs1 & Hs2 & _ & Hun & _).
  rewrite Hp in Hpart. injection Hpart as <- <-.
  apply new_to_do_spec in Hnt as (cs & Hcs & Hnt).
  unfold copy_with_assign in Hs.
  assert (∀ s', s' ⊆ s →
    csp_ok csp (<[v := DSet s']> Dn)
    ∧ shrinks (domains csp) (<[v := DSet s']> Dn)
    ∧ (∀ arc, arc ∈ nt → arc ∈ csp_arcs csp)
    ∧ (∀ arc, arc ∈ csp_arcs csp → arc ∉ nt → settled (<[v := DSet s']> Dn) arc)) as Hchild.
  { intros s' Hs'. split_and!.
    - eapply csp_ok_dom; [|done]. rewrite dom_insert_L.
      assert (v ∈ dom Dn) by (apply elem_of_dom; eauto). set_solver.
    - eapply shrinks_trans; [done|]. eapply shrinks_trans; [done|].
      eapply shrinks_insert; [done|]. right. eauto.
    - intros [n c'] (Hc' & _ & Hn & _)%Hnt. apply elem_of_csp_arcs.
      by apply (ok_v2c_iff _ _ Hokn v cs Hcs) in Hc' as [Hc' _].
    - intros [n c'] Harc Hnin. eapply settled_narrow; [done..|by apply Hfix|].
      destruct (decide (n = v)) as [|Hnv]; [by left|]. right. intros Hvc'.
      apply Hnin, Hnt. apply elem_of_csp_arcs in Harc as [Hc' Hn].
      split_and!; [by apply (ok_v2c_iff _ _ Hokn v cs Hcs)|done..]. }
  destruct Hsoln as (Hdoma & Hvals & Hdiff).
  destruct (Hvals v) as (x & Hx & (d' & Hd' & Hxs)); [apply elem_of_dom; eauto|].
  assert (d' = DSet s) as -> by congruence. simpl in Hxs.
  assert (is_solution csp Dn a) as Hsoln by done.
  apply bind_Ret in Hs as (r1 & Hr1 & Hs).
  destruct (Hchild s1 Hs1) as (Hok1 & Hsh1 & Hq1 & Hinv1).
  destruct (Hchild s2 Hs2) as (Hok2 & Hsh2 & _ & Hinv2).
  destruct (truthy r1) eqn:Ht.
  { injection Hs as ->. done. }
  rewrite <-Hun in Hxs. apply elem_of_union in Hxs as [Hx1|Hx2].
  - pose proof (solve_answers csp Hsl fuel (Some (<[v := DSet s1]> Dn)) (Some nt)
                  Hok1 Hsh1 Hq1 Hinv1) as Hans.
    rewrite Hr1 in Hans. destruct r1 as [| |a1]; [|done|].
    + apply (IH (Some (<[v := DSet s1]> Dn)) (Some nt) Hok1 Hsh1 Hq1 Hinv1 Hr1 a).
      by eapply is_solution_narrow.
    + simpl in Ht. apply bool_decide_eq_false in Ht. apply dec_stable in Ht as ->.
      pose proof (solve_sound csp fuel (Some (<[v := DSet s1]> Dn)) (Some nt) ∅
                    Hok1 Hq1 Hinv1 Hr1) as (Hd1 & _). simpl in Hd1.
      rewrite dom_empty_L, dom_insert_L in Hd1. set_solver.
  - apply (IH (Some (<[v := DSet s2]> Dn)) (Some nt) Hok2 Hsh2 Hq1 Hinv2 Hs a).
    by eapply is_solution_narrow.
Qed.

End search_complete.

Section sudoku_complete.
Context `{!HashOrder}.

Lemma setitem2_total n (g : list (list Sudoku.cell)) r c v :
  square n g → r < n → c < n → ∃ g', Sudoku.setitem2 g r c v = Ret g'.
Proof.
  intros [Hlen Hrows] Hr Hc. unfold Sudoku.setitem2.
  destruct (lookup_lt_is_Some_2 g r) as [row Hrow]; [lia|]. rewrite Hrow.
  rewrite Forall_forall in Hrows.
  rewrite decide_True; [eauto|]. rewrite (Hrows row); [done|].
  apply list_elem_of_lookup. eauto.
Qed.

Lemma fill_total n : ∀ (l : list (var * Sudoku.cell)) g,
  square n g → (∀ p v, (p, v) ∈ l → p.1 < n ∧ p.2 < n) →
  ∃ g', py_for (λ ans pv, Sudoku.setitem2 ans pv.1.1 pv.1.2 pv.2) l g = Ret g'.
Proof.
  induction l as [|[[r c] v] l IH]; intros g Hsq Hl; simpl; [eauto|].
  destruct (Hl (r, c) v) as [Hr Hc]; [left|]. simpl in *.
  destruct (setitem2_total n g r c v Hsq Hr Hc) as [g1 Hg1]. rewrite Hg1, ret_bind.
  apply IH; [by eapply setitem2_square|]. intros p w Hp. apply (Hl p w). by right.
Qed.

(** A dictionary that solves the CSP of a well-formed puzzle is written into
    the grid without [IndexError]. *)
Lemma solve_fills puzzle s fuel sol :
  wf_puzzle puzzle → Sudoku.init puzzle = Ret s →
  solve_recursive_ds fuel (Sudoku.csp s) None None = Ret (ADict sol) →
  is_solution (Sudoku.csp s) (Sudoku.init_domains puzzle) sol →
  ∃ g, Sudoku.run fuel puzzle = Ret g.
Proof.
  intros Hwf Hs Hrun (Hdom & _ & _). unfold Sudoku.run. rewrite Hs, ret_bind.
  unfold Sudoku.solve. rewrite Hrun, ret_bind.
  apply (fill_total 10).
  - split; [by rewrite length_replicate|].
    apply Forall_replicate. by rewrite length_replicate.
  - intros [r c] v Hin%elem_of_map_to_list. simpl.
    assert ((r, c) ∈ dom (Sudoku.init_domains puzzle)) as Hp.
    { rewrite <-Hdom. apply elem_of_dom. eauto. }
    apply wf_puzzle_dom in Hp; [lia|done].
Qed.

(** The dictionary of a completion. *)
Lemma completes_solution puzzle s a :
  wf_puzzle puzzle → Sudoku.init puzzle = Ret s → completes puzzle a →
  is_solution (Sudoku.csp s) (Sudoku.init_domains puzzle)
    (map_imap (λ p _, Some (Some (a p))) (Sudoku.init_domains puzzle)).
Proof.
  intros Hwf Hs (Hrange & Hgiven & Hnd).
  pose proof (init_spec _ _ Hs) as (_ & _ & Hinit).
  pose proof (CSP_init_spec _ _ _ Hinit) as (_ & _ & Hcons & _).
  set (sol := map_imap _ _).
  assert (∀ p, p ∈ dom (Sudoku.init_domains puzzle) → sol !! p = Some (Some (a p))) as Hsol.
  { intros p [d Hd]%elem_of_dom. unfold sol. by rewrite map_lookup_imap, Hd. }
  split_and!.
  - apply set_eq. intros p. rewrite !elem_of_dom. unfold sol. rewrite map_lookup_imap.
    destruct (Sudoku.init_domains puzzle !! p); simpl; split; intros [? ?]; by eauto.
  - intros [r c] Hp. exists (a (r, c)). split; [by apply Hsol|].
    pose proof Hp as [Hr Hc]%wf_puzzle_dom; [|done].
    destruct (wf_puzzle_lookup puzzle r c Hwf Hr Hc) as (row & x & Hrow & Hx & Hx09).
    eexists. split; [rewrite init_domains_lookup, Hrow; simpl; by rewrite Hx|].
    case_decide as Hz; unfold dom_vals; rewrite elem_of_list_to_set.
    + rewrite (Hgiven (r, c) x); [by left|unfold grid_at; simpl; by rewrite Hrow|done].
    + apply elem_of_seqZ. pose proof (Hrange r c Hr Hc). lia.
  - intros c p1 p2 Hc H1 H2 Hne. rewrite Hcons in Hc.
    pose proof init_constraints_shape as Hsh. rewrite Forall_forall in Hsh.
    destruct (Hsh c Hc) as (_ & Hin & _). rewrite Forall_forall in Hin.
    assert (∀ p, p ∈ scope c → p ∈ dom (Sudoku.init_domains puzzle)) as Hd.
    { intros [r cl] Hp. apply wf_puzzle_dom; [done|]. by apply (Hin (r, cl)). }
    rewrite !Hsol by auto. intros [= Heq]. apply Hne.
    apply (NoDup_fmap_inj_on a (scope c)); [|done..].
    apply init_constraints_scopes in Hc as (i & Hi & [-> | [-> | ->]]); by apply Hnd.
Qed.

(** The completion read off a dictionary that solves the CSP. *)
Lemma solution_completion puzzle s sol :
  wf_puzzle puzzle → Sudoku.init puzzle = Ret s →
  is_solution (Sudoku.csp s) (Sudoku.init_domains puzzle) sol →
  completes puzzle (λ p, default 0%Z (default None (sol !! p))).
Proof.
  intros Hwf Hs (Hdom & Hvals & Hdiff).
  pose proof (init_spec _ _ Hs) as (_ & _ & Hinit).
  pose proof (CSP_init_spec _ _ _ Hinit) as (_ & _ & Hcons & _).
  set (a := λ p : var, default 0%Z (default None (sol !! p))).
  assert (∀ r c, r < 9 → c < 9 →
            sol !! (r, c) = Some (Some (a (r, c)))
            ∧ in_dom (Sudoku.init_domains puzzle) (r, c) (a (r, c))) as Ha.
  { intros r c Hr Hc. destruct (Hvals (r, c)) as (x & Hx & Hin); [by apply wf_puzzle_dom|].
    unfold a. rewrite Hx. done. }
  assert (∀ c, c ∈ Sudoku.init_constraints → NoDup (a <$> scope c)) as Hnd.
  { intros c Hc. pose proof init_constraints_shape as Hsh. rewrite Forall_forall in Hsh.
    destruct (Hsh c Hc) as (Hndc & Hrange & _). rewrite Forall_forall in Hrange.
    apply NoDup_fmap_2_strong; [|done]. intros [r1 c1] [r2 c2] H1 H2 Heq.
    destruct (decide ((r1, c1) = (r2, c2))) as [|Hne]; [done|]. exfalso.
    apply (Hdiff c (r1, c1) (r2, c2)); [by rewrite Hcons|done..|].
    destruct (Hrange _ H1), (Hrange _ H2). simpl in *.
    destruct (Ha r1 c1) as [-> _]; [done..|]. destruct (Ha r2 c2) as [-> _]; [done..|].
    by rewrite Heq. }
  split_and!.
  - intros r c Hr Hc. destruct (Ha r c Hr Hc) as [_ Hin].
    by destruct (init_domain_values puzzle r c _ Hwf Hin).
  - intros [r c] x Hx Hnz.
    assert (r < 9 ∧ c < 9) as [Hr Hc].
    { apply (wf_puzzle_dom puzzle r c Hwf). rewrite elem_of_dom, init_domains_lookup.
      unfold grid_at in Hx. simpl in Hx. destruct (puzzle !! r) as [row|]; [|done].
      simpl in *. rewrite Hx. simpl. eauto. }
    destruct (Ha r c Hr Hc) as [_ Hin].
    destruct (init_domain_values puzzle r c _ Hwf Hin) as [_ Heq]. by apply Heq.
  - intros i Hi. split_and!; [apply (Hnd
              {| cid := i; scope := row_to_indices i; condition := is_all_unique_fn |})
    |apply (Hnd {| cid := 9 + i; scope := col_to_indices i; condition := is_all_unique_fn |})
    |apply (Hnd {| cid := 18 + i; scope := box_to_indices i; condition := is_all_unique_fn |})];
    apply init_constraints_scopes; exists i; auto.
Qed.

(** On a well-formed puzzle, with enough fuel: a completion exists exactly
    when the search returns a dictionary, and then [Sudoku.solve] returns. *)
Lemma search_decides puzzle s :
  wf_puzzle puzzle → Sudoku.init puzzle = Ret s →
  ∃ n, ∀ fuel, n ≤ fuel →
    (solve_recursive_ds fuel (Sudoku.csp s) None None = Ret AFalse
     ∧ ¬ solvable puzzle
     ∧ Sudoku.run fuel puzzle = Raise AttributeError)
    ∨ (∃ sol g, solve_recursive_ds fuel (Sudoku.csp s) None None = Ret (ADict sol)
         ∧ is_solution (Sudoku.csp s) (Sudoku.init_domains puzzle) sol
         ∧ Sudoku.run fuel puzzle = Ret g).
Proof.
  intros Hwf Hs. destruct (search_answers puzzle s Hwf Hs) as [n Hn].
  pose proof (init_sudoku_like _ _ Hwf Hs) as Hsl.
  pose proof (init_spec _ _ Hs) as (_ & _ & Hinit).
  pose proof (CSP_init_spec _ _ _ Hinit) as (_ & Hdoms & _).
  exists n. intros fuel Hle. destruct (Hn fuel Hle) as [Hfalse|(sol & Hrun & Hsol)].
  - left. split; [done|]. split.
    + intros [a Ha].
      pose proof (solve_complete (Sudoku.csp s) Hsl fuel None None) as Hc. simpl in Hc.
      rewrite Hdoms in Hc. eapply Hc; [| | | |done|by eapply completes_solution].
      * by apply (init_csp_ok puzzle).
      * apply shrinks_refl.
      * intros arc Ha'. by apply elem_of_list_to_set in Ha'.
      * intros arc Ha' Hna. exfalso. apply Hna. by apply elem_of_list_to_set.
    + unfold Sudoku.run. rewrite Hs, ret_bind. unfold Sudoku.solve. by rewrite Hfalse.
  - right. destruct (solve_fills puzzle s fuel sol Hwf Hs Hrun Hsol) as [g Hg]. eauto.
Qed.

(** X5.  The search is sound on every CSP built by [CSP.__init__] with
    repetition-free scopes: a dictionary returned by [solve_recursive_ds()]
    has exactly the variables as keys, gives each one a value of its domain,
    and gives different values to any two variables of a common scope. *)
Theorem search_returns_solution (D0 : gmap var domain) (cons : list Constraint)
    (csp : CSP) (fuel : nat) (sol : gmap var (option Z)) :
  CSP_init D0 cons = Ret csp →
  (∀ c, c ∈ cons → NoDup (scope c)) →
  solve_recursive_ds fuel csp None None = Ret (ADict sol) →
  dom sol = dom D0
  ∧ (∀ v, v ∈ dom D0 → ∃ x, sol !! v = Some (Some x) ∧ in_dom D0 v x)
  ∧ (∀ c p1 p2, c ∈ cons → p1 ∈ scope c → p2 ∈ scope c → p1 ≠ p2 →
       sol !! p1 ≠ sol !! p2).
Proof.
  intros Hinit Hnd Hrun.
  pose proof (CSP_init_spec _ _ _ Hinit) as (_ & _ & Hcons & _).
  destruct (root_sound fuel csp D0 cons sol Hinit Hnd Hrun) as (Hdom & Hvals & Hdiff).
  split_and!; [done..|]. intros c p1 p2 Hc. apply Hdiff. by rewrite Hcons.
Qed.

(** X6.  The solver is complete: on a well-formed puzzle that has a
    completion, [Sudoku.solve] returns a grid, whatever the order in which
    sets are iterated. *)
Theorem solvable_puzzle_is_solved (puzzle : list (list Z)) :
  wf_puzzle puzzle → solvable puzzle →
  ∃ n, ∀ fuel, n ≤ fuel → ∃ g, Sudoku.run fuel puzzle = Ret g.
Proof.
  intros Hwf Hsolv. destruct (init_total puzzle Hwf) as [s Hs].
  destruct (search_decides puzzle s Hwf Hs) as [n Hn].
  exists n. intros fuel Hle.
  destruct (Hn fuel Hle) as [(_ & Hno & _)|(sol & g & _ & _ & Hg)]; [done|eauto].
Qed.

(** X7.  On a well-formed puzzle [Sudoku.solve] has two outcomes only.
    Either the search [solve_recursive_ds()] returns a dictionary and
    [Sudoku.solve] returns a grid, or the search returns [False] and
    [Sudoku.solve] raises [AttributeError].  The search never returns [None]
    and raises nothing; [Sudoku.solve] raises no [KeyError], [ValueError],
    [TypeError] or [IndexError]. *)
Theorem solve_outcomes (puzzle : list (list Z)) :
  wf_puzzle puzzle →
  ∃ s, Sudoku.init puzzle = Ret s
    ∧ ∃ n, ∀ fuel, n ≤ fuel →
        (∃ sol g, solve_recursive_ds fuel (Sudoku.csp s) None None = Ret (ADict sol)
                  ∧ Sudoku.solve fuel s = Ret g
                  ∧ Sudoku.run fuel puzzle = Ret g)
        ∨ (solve_recursive_ds fuel (Sudoku.csp s) None None = Ret AFalse
           ∧ Sudoku.solve fuel s = Raise AttributeError
           ∧ Sudoku.run fuel puzzle = Raise AttributeError).
Proof.
  intros Hwf. destruct (init_total puzzle Hwf) as [s Hs]. exists s. split; [done|].
  destruct (search_decides puzzle s Hwf Hs) as [n Hn].
  exists n. intros fuel Hle.
  assert (Sudoku.run fuel puzzle = Sudoku.solve fuel s) as Hrun.
  { unfold Sudoku.run. by rewrite Hs. }
  destruct (Hn fuel Hle) as [(Hf & _ & Hr)|(sol & g & Hsol & _ & Hg)].
  - right. by rewrite <-Hrun.
  - left. exists sol, g. by rewrite <-Hrun.
Qed.

(** X8.  When the puzzle has one completion only, the 9 by 9 block of the
    grid returned is that completion, whatever the order in which sets are
    iterated. *)
Theorem unique_solution_found (puzzle : list (list Z)) (a : var → Z) :
  wf_puzzle puzzle → completes puzzle a →
  (∀ a', completes puzzle a' → ∀ r c, r < 9 → c < 9 → a' (r, c) = a (r, c)) →
  ∃ n, ∀ fuel, n ≤ fuel →
    ∃ g, Sudoku.run fuel puzzle = Ret g
      ∧ ∀ r c, r < 9 → c < 9 → grid_at g (r, c) = Some (Some (a (r, c))).
Proof.
  intros Hwf Ha Huniq. destruct (init_total puzzle Hwf) as [s Hs].
  destruct (search_decides puzzle s Hwf Hs) as [n Hn].
  exists n. intros fuel Hle.
  destruct (Hn fuel Hle) as [(_ & Hno & _)|(sol0 & g & _ & _ & Hg)].
  { exfalso. apply Hno. by exists a. }
  exists g. split; [done|]. intros r c Hr Hc.
  destruct (run_cells puzzle fuel g Hwf Hg) as (s' & sol & Hs' & Hsol & _ & _ & Hin & _).
  assert (s' = s) as -> by congruence.
  destruct (Hin r c Hr Hc) as (x & Hx & Hgx & _). rewrite Hgx. do 2 f_equal.
  rewrite <-(Huniq _ (solution_completion puzzle s sol Hwf Hs Hsol) r c Hr Hc).
  by rewrite Hx.
Qed.

End sudoku_complete.

Section model_edges.
Context `{!HashOrder}.

Lemma py_for_KeyError {A S} (body : S → A → outcome S) (l : list A) : ∀ s,
  (∀ s x, (∃ s', body s x = Ret s') ∨ body s x = Raise KeyError) →
  (∃ s', py_for body l s = Ret s') ∨ py_for body l s = Raise KeyError.
Proof.
  induction l as [|x l IH]; intros s Hb; simpl; [eauto|].
  destruct (Hb s x) as [[s' ->]| ->]; [|by right]. rewrite ret_bind. by apply IH.
Qed.

Lemma CSP_init_outcome D cons :
  (∃ csp, CSP_init D cons = Ret csp) ∨ CSP_init D cons = Raise KeyError.
Proof.
  unfold CSP_init.
  destruct (py_for_KeyError
              (λ (m : gmap var (pyset Constraint)) con,
                 py_for (λ m var, s ← getitem m var; Ret (<[var := s ∪ {[con]}]> m))
                        (scope con) m)
              cons (gset_to_gmap ∅ (dom D))) as [[m ->]| ->]; [|simpl; eauto|by right].
  intros m con. apply py_for_KeyError. intros m' u. unfold getitem.
  destruct (m' !! u); simpl; eauto.
Qed.

Lemma cell_in_dom puzzle r c :
  (r, c) ∈ dom (Sudoku.init_domains puzzle) ↔ is_Some (grid_at puzzle (r, c)).
Proof.
  rewrite elem_of_dom, init_domains_lookup. unfold grid_at. simpl.
  destruct (puzzle !! r) as [row|]; simpl; [|by split; intros [? ?]].
  destruct (row !! c); simpl; split; intros [? ?]; by eauto.
Qed.

(** X9.  [Sudoku.__init__] needs the 81 cells and nothing else: it returns
    when the grid has a cell at every position [(r, c)] with [r, c < 9]
    (rows may be longer, there may be more rows, values are not checked), and
    it raises [KeyError] when one of the 81 cells is missing. *)
Theorem init_needs_81_cells (puzzle : list (list Z)) :
  ((∀ r c, r < 9 → c < 9 → is_Some (grid_at puzzle (r, c))) →
   ∃ s, Sudoku.init puzzle = Ret s)
  ∧ (∀ r c, r < 9 → c < 9 → grid_at puzzle (r, c) = None →
     Sudoku.init puzzle = Raise KeyError).
Proof.
  pose proof init_constraints_shape as Hsh. rewrite Forall_forall in Hsh. split.
  - intros Hall. unfold Sudoku.init.
    destruct (CSP_init_total (Sudoku.init_domains puzzle) Sudoku.init_constraints)
      as [csp ->]; [|simpl; eauto].
    intros c [r cl] Hc Hu. apply cell_in_dom.
    destruct (Hsh c Hc) as (_ & Hr & _). rewrite Forall_forall in Hr.
    destruct (Hr (r, cl) Hu). by apply Hall.
  - intros r c Hr Hc Hnone. unfold Sudoku.init.
    destruct (CSP_init_outcome (Sudoku.init_domains puzzle) Sudoku.init_constraints)
      as [[csp Hcsp]| ->]; [exfalso|done].
    apply CSP_init_spec in Hcsp as (_ & _ & _ & Hin & _).
    assert ((r, c) ∈ dom (Sudoku.init_domains puzzle)) as Hd.
    { apply (Hin (row_constraint r)).
      - apply init_constraints_scopes. exists r. auto.
      - unfold row_constraint, row_to_indices. cbn [scope].
        apply list_elem_of_fmap. exists c. split; [done|]. apply elem_of_seq. lia. }
    apply cell_in_dom in Hd as [x Hx]. congruence.
Qed.

(** X10.  The domains built by [Sudoku.__init__], cell by cell: no key
    outside the grid, the list [[x]] for a cell that holds [x ≠ 0] (whatever
    [x] is: values are not checked against the range 1..9), and the list
    [[1, ..., 9]] for a cell that holds 0. *)
Theorem init_domains_by_cell (puzzle : list (list Z)) (r c : nat) :
  Sudoku.init_domains puzzle !! (r, c)
  = match grid_at puzzle (r, c) with
    | None => None
    | Some x => Some (DList (if decide (x = 0%Z) then seqZ 1 9 else [x]))
    end.
Proof.
  rewrite init_domains_lookup. unfold grid_at. simpl.
  destruct (puzzle !! r) as [row|]; simpl; [|done].
  destruct (row !! c) as [x|]; simpl; [|done].
  by repeat case_decide.
Qed.

Lemma elem_of_box_to_indices b r c :
  (r, c) ∈ box_to_indices b ↔ r `div` 3 = b `div` 3 ∧ c `div` 3 = b `mod` 3.
Proof.
  unfold box_to_indices. rewrite list_elem_of_bind.
  setoid_rewrite list_elem_of_bind. setoid_rewrite list_elem_of_singleton.
  setoid_rewrite elem_of_seq.
  pose proof (Nat.div_mod_eq r 3). pose proof (Nat.mod_upper_bound r 3).
  pose proof (Nat.div_mod_eq c 3). pose proof (Nat.mod_upper_bound c 3).
  pose proof (Nat.mod_upper_bound b 3).
  split.
  - intros (r' & (c' & [= <- <-] & Hc) & Hr). lia.
  - intros [Hr Hc]. exists r. split; [|lia]. exists c. split; [done|lia].
Qed.

Lemma elem_of_row_to_indices i r c : (r, c) ∈ row_to_indices i ↔ r = i ∧ c < 9.
Proof.
  unfold row_to_indices. rewrite list_elem_of_fmap.
  setoid_rewrite elem_of_seq. split; [intros (c' & [= -> ->] & ?); lia|].
  intros [-> ?]. exists c. split; [done|lia].
Qed.

Lemma elem_of_col_to_indices j r c : (r, c) ∈ col_to_indices j ↔ c = j ∧ r < 9.
Proof.
  unfold col_to_indices. rewrite list_elem_of_fmap.
  setoid_rewrite elem_of_seq. split; [intros (r' & [= -> ->] & ?); lia|].
  intros [-> ?]. exists r. split; [done|lia].
Qed.

Lemma elem_of_box_of r c b :
  r < 9 → c < 9 → b < 9 → (r, c) ∈ box_to_indices b ↔ b = box_of r c.
Proof.
  intros Hr Hc Hb. rewrite elem_of_box_to_indices. unfold box_of.
  pose proof (Nat.div_mod_eq b 3). pose proof (Nat.mod_upper_bound b 3).
  pose proof (Nat.div_mod_eq c 3). pose proof (Nat.mod_upper_bound c 3).
  lia.
Qed.

(** X11.  The geometry of the scopes.  A position lies in the scope of box
    [b] exactly when its row is in the band [b // 3] and its column in the
    stack [b % 3], for every [b] (no bound is checked: [box_to_indices(9)]
    lies outside the grid); the scope of a row or a column holds the nine
    positions of that row or column; every scope lists nine different
    positions.  So each cell of the grid lies in one row scope, one column
    scope and one box scope. *)
Theorem scopes_tile_the_grid :
  (∀ b r c, (r, c) ∈ box_to_indices b ↔ r `div` 3 = b `div` 3 ∧ c `div` 3 = b `mod` 3)
  ∧ (∀ i r c, (r, c) ∈ row_to_indices i ↔ r = i ∧ c < 9)
  ∧ (∀ j r c, (r, c) ∈ col_to_indices j ↔ c = j ∧ r < 9)
  ∧ (∀ r c b, r < 9 → c < 9 → b < 9 → ((r, c) ∈ box_to_indices b ↔ b = box_of r c))
  ∧ (∀ b, NoDup (box_to_indices b) ∧ length (box_to_indices b) = 9)
  ∧ (∀ i, NoDup (row_to_indices i) ∧ length (row_to_indices i) = 9)
  ∧ (∀ j, NoDup (col_to_indices j) ∧ length (col_to_indices j) = 9).
Proof.
  split_and!.
  - apply elem_of_box_to_indices.
  - apply elem_of_row_to_indices.
  - apply elem_of_col_to_indices.
  - apply elem_of_box_of.
  - intros b. unfold box_to_indices. split.
    + apply NoDup_bind.
      * intros r1 r2 [r c] _ _ (c1 & [= -> ->]%list_elem_of_singleton & _)%list_elem_of_bind
          (c2 & [= ->]%list_elem_of_singleton & _)%list_elem_of_bind. done.
      * intros r _. apply NoDup_bind.
        -- intros c1 c2 [r' c] _ _ [= -> ->]%list_elem_of_singleton
             [= ->]%list_elem_of_singleton. done.
        -- intros c _. apply NoDup_singleton.
        -- apply NoDup_seq.
      * apply NoDup_seq.
    + reflexivity.
  - intros i. unfold row_to_indices. split; [|by rewrite length_fmap, length_seq].
    apply NoDup_fmap_2; [by intros ?? [= ->]|apply NoDup_seq].
  - intros j. unfold col_to_indices. split; [|by rewrite length_fmap, length_seq].
    apply NoDup_fmap_2; [by intros ?? [= ->]|apply NoDup_seq].
Qed.

(** X12.  The index [var_to_const] of a puzzle: each of the 81 cells is
    registered under exactly three constraints, those of its row, of its
    column and of its box. *)
Theorem cell_has_three_constraints (puzzle : list (list Z)) (s : Sudoku.Sudoku) (r c : nat) :
  Sudoku.init puzzle = Ret s → r < 9 → c < 9 →
  ∃ cs, var_to_const (Sudoku.csp s) !! (r, c) = Some cs
    ∧ (∀ con, con ∈ cs ↔ con = row_constraint r ∨ con = col_constraint c
                          ∨ con = box_constraint (box_of r c))
    ∧ size cs = 3.
Proof.
  intros Hs Hr Hc. pose proof (init_spec _ _ Hs) as (_ & _ & Hinit).
  pose proof (CSP_init_spec _ _ _ Hinit) as (_ & _ & _ & Hin & Hdom & Hcs).
  assert (box_of r c < 9) as Hb.
  { unfold box_of. pose proof (Nat.div_mod_eq r 3). pose proof (Nat.div_mod_eq c 3). lia. }
  assert ((r, c) ∈ dom (var_to_const (Sudoku.csp s))) as [cs Hlook]%elem_of_dom.
  { rewrite Hdom. apply (Hin (row_constraint r)).
    - apply init_constraints_scopes. exists r. auto.
    - by apply elem_of_row_to_indices. }
  assert (∀ con, con ∈ cs ↔ con = row_constraint r ∨ con = col_constraint c
                             ∨ con = box_constraint (box_of r c)) as Hiff.
  { intros con. rewrite (Hcs _ _ Hlook), init_constraints_scopes. split.
    - intros [(i & Hi & [-> | [-> | ->]]) Hsc]; cbn [scope] in Hsc.
      + apply elem_of_row_to_indices in Hsc as [-> _]. auto.
      + apply elem_of_col_to_indices in Hsc as [-> _]. auto.
      + apply elem_of_box_of in Hsc as ->; auto.
    - intros [-> | [-> | ->]].
      + split; [exists r; auto|]. by apply elem_of_row_to_indices.
      + split; [exists c; auto|]. by apply elem_of_col_to_indices.
      + split; [exists (box_of r c); auto|]. by apply elem_of_box_of. }
  exists cs. split; [done|]. split; [done|].
  assert (cs ≡ {[row_constraint r]} ∪ ({[col_constraint c]} ∪ {[box_constraint (box_of r c)]}))
    as ->.
  { intros con. rewrite Hiff. set_solver. }
  assert (row_constraint r ≠ col_constraint c) by (intros [= ? _]; lia).
  assert (row_constraint r ≠ box_constraint (box_of r c)) by (intros [= ? _]; lia).
  assert (col_constraint c ≠ box_constraint (box_of r c)) by (intros [= ? _]; lia).
  rewrite !size_union, !size_singleton by set_solver. done.
Qed.

End model_edges.

Section solver_edges.
Context `{!HashOrder}.

(** X13.  [new_to_do(var, const)] on a CSP built by [CSP.__init__]: for a
    variable of the CSP it returns exactly the arcs [(nvar, nconst)] where
    [nconst] is a constraint on [var] other than [const] and [nvar] a
    variable of its scope other than [var]; it raises [KeyError] for
    anything that is not a variable of the CSP. *)
Theorem new_to_do_arcs (D0 : gmap var domain) (cons : list Constraint) (csp : CSP)
    (v : var) (const : option Constraint) :
  CSP_init D0 cons = Ret csp →
  (v ∈ dom D0 →
   ∃ nt, new_to_do csp v const = Ret nt
     ∧ ∀ n c, (n, c) ∈ nt ↔ c ∈ cons ∧ v ∈ scope c ∧ Some c ≠ const ∧ n ∈ scope c ∧ n ≠ v)
  ∧ (v ∉ dom D0 → new_to_do csp v const = Raise KeyError).
Proof.
  intros (_ & _ & _ & _ & Hdom & Hcs)%CSP_init_spec. split.
  - intros Hv. rewrite <-Hdom in Hv. apply elem_of_dom in Hv as [cs Hlook].
    destruct (new_to_do_total csp v const cs Hlook) as [nt Hnt]. exists nt. split; [done|].
    apply new_to_do_spec in Hnt as (cs' & Hcs' & Hnt). assert (cs' = cs) as -> by congruence.
    intros n c. rewrite Hnt, (Hcs _ _ Hlook). naive_solver.
  - intros Hv. rewrite <-Hdom in Hv. apply not_elem_of_dom in Hv.
    unfold new_to_do, getitem. by rewrite Hv.
Qed.

Lemma pairs_nil (ps : list var) :
  (∀ p1 p2, p1 ∈ ps → p2 ∈ ps → p1 = p2) →
  (p1 ← ps; p2 ← ps; if decide (p1 ≠ p2) then [(p1, p2)] else []) = [].
Proof.
  intros Hone. apply elem_of_nil_inv. intros [p1 p2] (H1 & H2 & Hne)%elem_of_pairs.
  by apply Hne, Hone.
Qed.

Lemma pairs_head (p : var) (rest : list var) (tl : list (var * var)) :
  (∃ q, q ∈ rest ∧ q ≠ p) →
  ∃ q l, (p2 ← rest; if decide (p ≠ p2) then [(p, p2)] else []) ++ tl = (p, q) :: l.
Proof.
  induction rest as [|x rest IH]; intros (q & Hq & Hne).
  - by apply elem_of_nil in Hq.
  - cbn [mbind list_bind]. destruct (decide (p ≠ x)) as [Hx|Hx]; simpl; [eauto|].
    apply IH. exists q. split; [|done]. apply elem_of_cons in Hq as [->|Hq]; [|done].
    exfalso. apply Hx. by intros ->.
Qed.

(** X14.  [is_all_unique(assignment, positions)].  When every position is
    assigned, the result is [True] exactly when any two different positions
    hold different values.  When the positions are all the same position
    (or there is none), the result is [True] and the assignment is not
    read.  When the first position is not assigned and another position
    follows, the call raises [KeyError]. *)
Theorem is_all_unique_behaviour (a : gmap var Z) (ps : list var) :
  ((∀ p, p ∈ ps → is_Some (a !! p)) →
   ∃ b, is_all_unique a ps = Ret b
     ∧ (b = true ↔ ∀ p1 p2, p1 ∈ ps → p2 ∈ ps → p1 ≠ p2 → a !! p1 ≠ a !! p2))
  ∧ ((∀ p1 p2, p1 ∈ ps → p2 ∈ ps → p1 = p2) → is_all_unique a ps = Ret true)
  ∧ (∀ p rest q, ps = p :: rest → q ∈ rest → q ≠ p → a !! p = None →
     is_all_unique a ps = Raise KeyError).
Proof.
  split_and!.
  - intros Hdef. rewrite (is_all_unique_spec a ps Hdef). eexists. split; [done|].
    by rewrite bool_decide_eq_true.
  - intros Hone. unfold is_all_unique. by rewrite (pairs_nil ps Hone).
  - intros p rest q -> Hq Hne Hnone. unfold is_all_unique.
    cbn [mbind list_bind]. rewrite decide_False by (by intros ?). simpl.
    destruct (pairs_head p rest
                (p1 ← rest; p2 ← p :: rest; if decide (p1 ≠ p2) then [(p1, p2)] else []))
      as (q' & l & Heq); [eauto|].
    cbn [mbind list_bind] in Heq. rewrite Heq. simpl. unfold getitem. by rewrite Hnone.
Qed.

Lemma any_holds_loop_env (D : gmap var domain) (c : Constraint) (v : var)
    (assigned : list var) (recurse : gmap var Z → outcome (bool * gmap var Z))
    (rest : list var) (d : domain) :
  D !! v = Some d →
  (∀ env b env', recurse env = Ret (b, env') →
     (∀ u, u ∉ rest → env' !! u = env !! u)
     ∧ (b = true → (∀ u, u ∈ rest → ∃ y, env' !! u = Some y ∧ in_dom D u y)
                   ∧ holds c env' = Ret true)) →
  ∀ vals env b env',
    (∀ x, x ∈ vals → x ∈ dom_iter d) →
    any_holds_loop v assigned recurse vals env = Ret (b, env') →
    (∀ u, u ∉ v :: rest → env' !! u = env !! u)
    ∧ (b = true → (∀ u, u ∈ v :: rest → ∃ y, env' !! u = Some y ∧ in_dom D u y)
                  ∧ holds c env' = Ret true).
Proof.
  intros Hd Hrec. induction vals as [|val vals IH]; intros env b env' Hvals Hr; simpl in Hr.
  { injection Hr as <- <-. split; [done|]. done. }
  assert (∀ u, u ∉ v :: rest → <[v := val]> env !! u = env !! u) as Hframe.
  { intros u Hu. apply lookup_insert_ne. intros ->. apply Hu. left. }
  assert (∀ e b1 e', any_holds_loop v assigned recurse vals e = Ret (b1, e') →
            (∀ u, u ∉ v :: rest → e !! u = env !! u) →
            (∀ u, u ∉ v :: rest → e' !! u = env !! u)
            ∧ (b1 = true → (∀ u, u ∈ v :: rest → ∃ y, e' !! u = Some y ∧ in_dom D u y)
                           ∧ holds c e' = Ret true)) as Hnext.
  { intros e b1 e' He Hfr. destruct (IH e b1 e') as [Hf Ht]; [|done|].
    - intros x Hx. apply Hvals. by right.
    - split; [|done]. intros u Hu. rewrite (Hf u Hu). by apply Hfr. }
  apply bind_Ret in Hr as (u & _ & Hr). destruct u.
  - apply bind_Ret in Hr as ([found e1] & Hrc & Hr).
    destruct (Hrec _ _ _ Hrc) as [Hf1 Ht1]. destruct found.
    + injection Hr as <- <-. split.
      * intros u Hu. rewrite Hf1; [by apply Hframe|]. intros ?. apply Hu. by right.
      * intros _. destruct (Ht1 eq_refl) as [Hin Hholds]. split; [|done].
        intros u Hu. destruct (decide (u ∈ rest)) as [Hur|Hur]; [by apply Hin|].
        apply elem_of_cons in Hu as [->|Hu]; [|done].
        rewrite (Hf1 v Hur), lookup_insert_eq. exists val. split; [done|].
        exists d. split; [done|]. apply elem_of_dom_iter, Hvals. left.
    + apply (Hnext _ _ _ Hr). intros u Hu.
      rewrite Hf1; [by apply Hframe|]. intros ?. apply Hu. by right.
  - apply (Hnext _ _ _ Hr). done.
Qed.

(** X15.  The side effect of [any_holds] on [env].  The call only writes
    the entries of the variables it enumerates ([other_vars[ind:]]); when it
    returns [True], [env] holds the combination it found: a value of its
    domain for each of those variables, and the constraint holds on [env]. *)
Theorem any_holds_leaves_the_support (D : gmap var domain) (c : Constraint)
    (rest assigned : list var) (env env' : gmap var Z) (b : bool) :
  any_holds D c env rest assigned = Ret (b, env') →
  (∀ u, u ∉ rest → env' !! u = env !! u)
  ∧ (b = true → (∀ u, u ∈ rest → ∃ y, env' !! u = Some y ∧ in_dom D u y)
                ∧ holds c env' = Ret true).
Proof.
  revert assigned env env' b.
  induction rest as [|v rest IH]; intros assigned env env' b Hr; simpl in Hr.
  - apply bind_Ret in Hr as (b' & Hb & Hr). injection Hr as <- <-.
    split; [done|]. intros ->. split; [|done]. intros u Hu. by apply elem_of_nil in Hu.
  - apply bind_Ret in Hr as (d & Hd & Hr). apply getitem_Ret in Hd.
    eapply (any_holds_loop_env D c v assigned _ rest d Hd); [|done|exact Hr].
    intros e b1 e' He. exact (IH (v :: assigned) e e' b1 He).
Qed.

(** X16.  [partition_domain] on a set of any size, the sizes 0 and 1
    included: the two halves are disjoint sets whose union is the set; on a
    set with fewer than two values the first half is empty and the second is
    the set itself, so that the split makes no progress. *)
Theorem partition_domain_small (s : gset Z) :
  ∃ s1 s2, partition_domain (DSet s) = Ret (DSet s1, DSet s2)
    ∧ s1 ## s2 ∧ s1 ∪ s2 = s
    ∧ (size s ≤ 1 → s1 = ∅ ∧ s2 = s).
Proof.
  destruct (partition_domain_spec s) as (s1 & s2 & Hp & _ & _ & Hdisj & Hun & Hz1 & _).
  exists s1, s2. split_and!; [done..|]. intros Hs.
  assert (size s `div` 2 = 0) as Hz by (apply Nat.div_small; lia).
  rewrite Hz in Hz1. apply size_empty_iff, leibniz_equiv in Hz1 as ->.
  split; [done|]. rewrite <-Hun. set_solver.
Qed.

End solver_edges.

Section reading.

Lemma setitem_grid_Ret {A} (g g' : list (list A)) i j x :
  setitem_grid g i j x = Ret g' →
  ∃ row, g !! i = Some row ∧ j < length row ∧ g' = <[i := <[j := x]> row]> g.
Proof.
  unfold setitem_grid. destruct (g !! i) as [row|]; [|done].
  case_decide; [|done]. intros [= <-]. eauto.
Qed.

Lemma setitem_grid_total {A} n (g : list (list A)) i j x :
  square n g → i < n → j < n → ∃ g', setitem_grid g i j x = Ret g'.
Proof.
  intros [Hlen Hrows] Hi Hj. unfold setitem_grid.
  destruct (lookup_lt_is_Some_2 g i) as [row Hrow]; [lia|]. rewrite Hrow.
  rewrite Forall_forall in Hrows.
  rewrite decide_True; [eauto|]. rewrite (Hrows row); [done|].
  apply list_elem_of_lookup. eauto.
Qed.

Lemma setitem_grid_square {A} n (g g' : list (list A)) i j x :
  setitem_grid g i j x = Ret g' → square n g → square n g'.
Proof.
  intros (row & Hrow & Hc & ->)%setitem_grid_Ret [Hlen Hrows]. split.
  - by rewrite length_insert.
  - apply Forall_insert; [done|]. rewrite length_insert.
    rewrite Forall_forall in Hrows. apply Hrows, list_elem_of_lookup. eauto.
Qed.

Lemma setitem_grid_lookup {A} (g g' : list (list A)) i j x p :
  setitem_grid g i j x = Ret g' →
  grid_at g' p = if decide (p = (i, j)) then Some x else grid_at g p.
Proof.
  intros (row & Hrow & Hc & ->)%setitem_grid_Ret. destruct p as [r' c']. unfold grid_at. simpl.
  apply lookup_lt_Some in Hrow as Hr.
  destruct (decide (r' = i)) as [->|Hne].
  - rewrite list_lookup_insert_eq by done. simpl. rewrite Hrow. simpl.
    destruct (decide (c' = j)) as [->|Hnc].
    + rewrite decide_True by done. by apply list_lookup_insert_eq.
    + rewrite decide_False by congruence. by apply list_lookup_insert_ne.
  - rewrite list_lookup_insert_ne by done. rewrite decide_False by congruence. done.
Qed.

Lemma py_for_app {A S} (body : S → A → outcome S) (l1 l2 : list A) s :
  py_for body (l1 ++ l2) s = py_for body l1 s ≫= py_for body l2.
Proof.
  revert s. induction l1 as [|x l1 IH]; intros s; simpl; [done|].
  destruct (body s x); simpl; [apply IH|done..].
Qed.

(** The two nested loops of the reader are one loop over the characters. *)
Lemma py_for_lines {S} (body : S → ascii → outcome S) (lines : list string) s :
  py_for (λ s line, py_for body (String.list_ascii_of_string line) s) lines s
  = py_for body (chars_of lines) s.
Proof.
  revert s. induction lines as [|line lines IH]; intros s; [done|].
  unfold chars_of. cbn [mbind list_bind py_for]. rewrite py_for_app.
  destruct (py_for body _ s); simpl; [apply IH|done..].
Qed.

Lemma digits_of_cons ch text :
  digits_of (ch :: text)
  = if is_digit ch then int_of_digit ch :: digits_of text else digits_of text.
Proof.
  unfold digits_of. rewrite filter_cons. destruct (is_digit ch) eqn:E.
  - by rewrite decide_True.
  - by rewrite decide_False.
Qed.

Lemma digits_of_app t1 t2 : digits_of (t1 ++ t2) = digits_of t1 ++ digits_of t2.
Proof. unfold digits_of. by rewrite filter_app, fmap_app. Qed.

Lemma digit_range ch : is_digit ch = true → (0 ≤ int_of_digit ch ≤ 9)%Z.
Proof.
  unfold is_digit, int_of_digit. intros Hd%bool_decide_eq_true.
  change (nat_of_ascii "0") with 48 in *. change (nat_of_ascii "9") with 57 in *.
  revert Hd. generalize (nat_of_ascii ch). intros n Hd. lia.
Qed.

Lemma digits_of_range text x : x ∈ digits_of text → (0 ≤ x ≤ 9)%Z.
Proof.
  unfold digits_of. intros (ch & -> & Hch)%list_elem_of_fmap.
  apply list_elem_of_filter in Hch as [Hd _]. by apply digit_range.
Qed.

Lemma read_chars : ∀ text st ds,
  reading ds st →
  if decide (length ds + length (digits_of text) ≤ 81)
  then ∃ st', py_for read_char text st = Ret st' ∧ reading (ds ++ digits_of text) st'
  else py_for read_char text st = Raise IndexError.
Proof.
  induction text as [|ch text IH]; intros [[puzzle i] j] ds Hinv.
  { destruct Hinv as (Hsq & Hj & Hi & Hlen & Hcells). simpl in *.
    rewrite decide_True by (unfold digits_of; simpl; lia).
    eexists. split; [done|]. unfold digits_of. simpl. rewrite app_nil_r. done. }
  rewrite digits_of_cons. cbn [py_for].
  change (read_char (puzzle, i, j) ch)
    with (if is_digit ch then
            puzzle ← setitem_grid puzzle i j (int_of_digit ch);
            if decide (j + 1 = 9) then Ret (puzzle, i + 1, 0) else Ret (puzzle, i, j + 1)
          else Ret (puzzle, i, j)).
  destruct (is_digit ch) eqn:Hd; [|rewrite ret_bind; by apply IH].
  destruct Hinv as (Hsq & Hj & Hi & Hlen & Hcells). simpl in *.
  destruct (decide (i = 9)) as [->|Hi9].
  { rewrite decide_False by lia.
    unfold setitem_grid. destruct Hsq as [Hl _].
    by rewrite (lookup_ge_None_2 puzzle 9) by lia. }
  destruct (setitem_grid_total 9 puzzle i j (int_of_digit ch) Hsq) as [p' Hp']; [lia..|].
  rewrite Hp', ret_bind.
  assert (reading (ds ++ [int_of_digit ch])
            (if decide (j + 1 = 9) then (p', i + 1, 0) else (p', i, j + 1))) as Hnext.
  { assert (∀ r c, r < 9 → c < 9 →
              grid_at p' (r, c)
              = Some (default 0%Z ((ds ++ [int_of_digit ch]) !! (9 * r + c)))) as Hc'.
    { intros r c Hr Hc. rewrite (setitem_grid_lookup _ _ _ _ _ _ Hp').
      case_decide as Heq.
      - injection Heq as -> ->. rewrite lookup_app_r by lia.
        by replace (9 * i + j - length ds) with 0 by lia.
      - rewrite (Hcells r c Hr Hc). f_equal.
        destruct (decide (9 * r + c < length ds)) as [Hlt|Hge].
        + by rewrite lookup_app_l.
        + assert (9 * r + c ≠ 9 * i + j) by (intros ?; apply Heq; f_equal; lia).
          rewrite (lookup_ge_None_2 ds) by lia.
          rewrite lookup_app_r by lia.
          rewrite (lookup_ge_None_2 [_]) by (simpl; lia). done. }
    pose proof (setitem_grid_square 9 _ _ _ _ _ Hp' Hsq) as Hsq'.
    case_decide; unfold reading; simpl; rewrite length_app; simpl;
      (split_and!; [done|lia|lia|lia|done]). }
  specialize (IH (if decide (j + 1 = 9) then (p', i + 1, 0) else (p', i, j + 1))
                 (ds ++ [int_of_digit ch]) Hnext).
  rewrite length_app in IH. simpl in *.
  replace (ds ++ int_of_digit ch :: digits_of text)
    with ((ds ++ [int_of_digit ch]) ++ digits_of text) by (by rewrite <-app_assoc).
  destruct (decide (j + 1 = 9)); rewrite ret_bind.
  - destruct (decide (length ds + 1 + length (digits_of text) ≤ 81)).
    + rewrite decide_True by lia. done.
    + rewrite decide_False by lia. done.
  - destruct (decide (length ds + 1 + length (digits_of text) ≤ 81)).
    + rewrite decide_True by lia. done.
    + rewrite decide_False by lia. done.
Qed.

Lemma reading_start : reading [] (replicate 9 (replicate 9 0%Z), 0, 0).
Proof.
  unfold reading. cbn [fst snd]. split_and!; [|lia|simpl; lia|done|].
  - split; [by rewrite length_replicate|]. apply Forall_replicate. by rewrite length_replicate.
  - intros r c Hr Hc. unfold grid_at. cbn [fst snd].
    rewrite lookup_replicate_2 by done. cbn [mbind option_bind].
    by rewrite lookup_replicate_2.
Qed.

Lemma reading_wf ds text puzzle i j :
  ds = digits_of text → reading ds (puzzle, i, j) → wf_puzzle puzzle.
Proof.
  intros -> ([Hlen Hrows] & _ & _ & _ & Hcells). cbn [fst snd] in *. split; [done|].
  apply Forall_lookup. intros r row Hrow.
  assert (r < 9) as Hr by (apply lookup_lt_Some in Hrow; lia).
  rewrite Forall_forall in Hrows.
  assert (length row = 9) as Hl by (apply Hrows, list_elem_of_lookup; eauto).
  split; [done|]. apply Forall_lookup. intros c x Hx.
  assert (c < 9) as Hc by (apply lookup_lt_Some in Hx; lia).
  pose proof (Hcells r c Hr Hc) as Hg. unfold grid_at in Hg. cbn [fst snd] in Hg.
  rewrite Hrow in Hg. cbn [mbind option_bind] in Hg. rewrite Hx in Hg. injection Hg as ->.
  destruct (digits_of text !! _) as [y|] eqn:Hy; simpl; [|lia].
  apply (digits_of_range text). apply list_elem_of_lookup. eauto.
Qed.

Lemma read_puzzle_cases lines :
  if decide (length (digits_of (chars_of lines)) ≤ 81)
  then ∃ puzzle, read_puzzle lines = Ret puzzle ∧ wf_puzzle puzzle
         ∧ ∀ r c, r < 9 → c < 9 →
             grid_at puzzle (r, c)
             = Some (default 0%Z (digits_of (chars_of lines) !! (9 * r + c)))
  else read_puzzle lines = Raise IndexError.
Proof.
  unfold read_puzzle. rewrite py_for_lines.
  pose proof (read_chars (chars_of lines) _ [] reading_start) as Hread.
  rewrite app_nil_l in Hread. change (length [] + ?n) with n in Hread.
  case_decide.
  - destruct Hread as ([[puzzle i] j] & -> & Hinv). rewrite ret_bind.
    exists puzzle. split; [done|]. split; [by eapply reading_wf|].
    by destruct Hinv as (_ & _ & _ & _ & Hcells).
  - by rewrite Hread.
Qed.

(** X17.  The reader of [main]: when the input holds at most 81 digit
    characters, the grid read is a 9 by 9 grid of integers in [0,9] that
    holds the digits in reading order, row by row, and 0 in the cells that
    are left; every other character (spaces, line ends, letters) is
    skipped. *)
Theorem read_puzzle_grid (lines : list string) :
  length (digits_of (chars_of lines)) ≤ 81 →
  ∃ puzzle, read_puzzle lines = Ret puzzle ∧ wf_puzzle puzzle
    ∧ ∀ r c, r < 9 → c < 9 →
        grid_at puzzle (r, c)
        = Some (default 0%Z (digits_of (chars_of lines) !! (9 * r + c))).
Proof.
  intros Hle. pose proof (read_puzzle_cases lines) as Hc. by rewrite decide_True in Hc.
Qed.

(** X18.  The reader of [main] does not stop at 81 digits: an input with
    more than 81 digit characters makes it raise [IndexError]. *)
Theorem read_puzzle_overflow (lines : list string) :
  81 < length (digits_of (chars_of lines)) → read_puzzle lines = Raise IndexError.
Proof.
  intros Hlt. pose proof (read_puzzle_cases lines) as Hc. by rewrite decide_False in Hc by lia.
Qed.

End reading.

Section writing.
Context `{!HashOrder}.

Lemma chars_app (s1 s2 : string) :
  String.list_ascii_of_string (s1 +:+ s2)
  = String.list_ascii_of_string s1 ++ String.list_ascii_of_string s2.
Proof.
  induction s1 as [|ch s1 IH]; [done|].
  change (ch :: String.list_ascii_of_string (s1 +:+ s2)
          = ch :: (String.list_ascii_of_string s1 ++ String.list_ascii_of_string s2)).
  by f_equal.
Qed.

Lemma append_assoc (s1 s2 s3 : string) : (s1 +:+ s2) +:+ s3 = s1 +:+ (s2 +:+ s3).
Proof.
  induction s1 as [|ch s1 IH]; [done|].
  change (String ch ((s1 +:+ s2) +:+ s3) = String ch (s1 +:+ (s2 +:+ s3))). by f_equal.
Qed.

Lemma append_empty_r (s : string) : s +:+ "" = s.
Proof.
  induction s as [|ch s IH]; [done|]. change (String ch (s +:+ "") = String ch s). by f_equal.
Qed.

Lemma getindex_Some {A} (l : list A) i x : l !! i = Some x → getindex l i = Ret x.
Proof. unfold getindex. by intros ->. Qed.

Lemma digits_of_digit (z : Z) :
  (0 ≤ z ≤ 9)%Z → digits_of (String.list_ascii_of_string (pretty z +:+ " ")) = [z].
Proof.
  intros Hz.
  assert (z = 0 ∨ z = 1 ∨ z = 2 ∨ z = 3 ∨ z = 4 ∨ z = 5 ∨ z = 6 ∨ z = 7 ∨ z = 8 ∨ z = 9)%Z
    as Hcases by lia.
  repeat destruct Hcases as [->|Hcases]; [by vm_compute..|]. subst. by vm_compute.
Qed.

(** The text of a row: what the inner loop of the writer appends. *)
Lemma write_row (ans : list (list Sudoku.cell)) (z : nat → nat → Z) (i : nat) :
  ∀ (js : list nat) (file : string),
  (∀ j, j ∈ js → grid_at ans (i, j) = Some (Some (z i j)) ∧ (0 ≤ z i j ≤ 9)%Z) →
  ∃ t, py_for (λ file j, row ← getindex ans i; x ← getindex row j;
                         Ret (file +:+ str_cell x +:+ " ")) js file
       = Ret (file +:+ t)
    ∧ digits_of (String.list_ascii_of_string t) = z i <$> js.
Proof.
  set (body := λ (file : string) (j : nat), _).
  induction js as [|j js IH]; intros file Hjs.
  { exists "". split; [by rewrite append_empty_r|done]. }
  destruct (Hjs j) as [Hg Hz]; [left|].
  unfold grid_at in Hg. cbn [fst snd] in Hg.
  destruct (ans !! i) as [row|] eqn:Hrow; [|done]. cbn [mbind option_bind] in Hg.
  assert (body file j = Ret (file +:+ pretty (z i j) +:+ " ")) as Hbody.
  { unfold body. rewrite (getindex_Some _ _ _ Hrow), ret_bind.
    by rewrite (getindex_Some _ _ _ Hg), ret_bind. }
  cbn [py_for]. rewrite Hbody, ret_bind.
  destruct (IH (file +:+ pretty (z i j) +:+ " ")) as (t & Ht & Hd).
  { intros j' Hj'. apply Hjs. by right. }
  exists ((pretty (z i j) +:+ " ") +:+ t). split.
  - rewrite Ht. f_equal. by rewrite !append_assoc.
  - rewrite chars_app, digits_of_app, Hd, digits_of_digit by done. done.
Qed.

(** The text of the rows: what the writer appends to the file. *)
Lemma write_rows (ans : list (list Sudoku.cell)) (z : nat → nat → Z) :
  ∀ (rows : list nat) (file : string),
  (∀ i j, i ∈ rows → j < 9 → grid_at ans (i, j) = Some (Some (z i j)) ∧ (0 ≤ z i j ≤ 9)%Z) →
  ∃ t, py_for (λ file i,
                 file ← py_for (λ file j, row ← getindex ans i; x ← getindex row j;
                                          Ret (file +:+ str_cell x +:+ " "))
                               (seq 0 9) file;
                 Ret (file +:+ String "010" ""))
              rows file
       = Ret (file +:+ t)
    ∧ digits_of (String.list_ascii_of_string t) = i ← rows; z i <$> seq 0 9.
Proof.
  set (body := λ (file : string) (i : nat), _).
  induction rows as [|i rows IH]; intros file His.
  { exists "". split; [by rewrite append_empty_r|done]. }
  destruct (write_row ans z i (seq 0 9) file) as (t1 & Ht1 & Hd1).
  { intros j Hj%elem_of_seq. apply His; [left|lia]. }
  assert (body file i = Ret ((file +:+ t1) +:+ String "010" "")) as Hbody.
  { unfold body. by rewrite Ht1, ret_bind. }
  cbn [py_for]. rewrite Hbody, ret_bind.
  destruct (IH ((file +:+ t1) +:+ String "010" "")) as (t & Ht & Hd).
  { intros i' j Hi' Hj. apply His; [by right|done]. }
  exists ((t1 +:+ String "010" "") +:+ t). split.
  - rewrite Ht. f_equal. by rewrite !append_assoc.
  - rewrite !chars_app, !digits_of_app, Hd1, Hd. cbn [mbind list_bind].
    by rewrite app_nil_r.
Qed.

Lemma lookup_rows {A} (f : nat → nat → A) (r c : nat) :
  r < 9 → c < 9 → (i ← seq 0 9; f i <$> seq 0 9) !! (9 * r + c) = Some (f r c).
Proof.
  intros Hr Hc.
  do 9 (destruct r as [|r]; [do 9 (destruct c as [|c]; [reflexivity|]); lia|]). lia.
Qed.

Lemma length_rows {A} (f : nat → nat → A) : length (i ← seq 0 9; f i <$> seq 0 9) = 81.
Proof. reflexivity. Qed.

(** What the writer appends reads back as the 9 by 9 block. *)
Lemma write_then_read (ans : list (list Sudoku.cell)) (z : nat → nat → Z) (file : string) :
  (∀ r c, r < 9 → c < 9 → grid_at ans (r, c) = Some (Some (z r c)) ∧ (0 ≤ z r c ≤ 9)%Z) →
  ∃ text, write_answer ans file = Ret (file +:+ text)
    ∧ ∀ lines, chars_of lines = String.list_ascii_of_string text →
        ∃ g, read_puzzle lines = Ret g ∧ wf_puzzle g
          ∧ ∀ r c, r < 9 → c < 9 → grid_at g (r, c) = Some (z r c).
Proof.
  intros Hans. destruct (write_rows ans z (seq 0 9) file) as (text & Hw & Hd).
  { intros i j Hi%elem_of_seq Hj. apply Hans; lia. }
  exists text. split; [done|]. intros lines Hlines.
  pose proof (read_puzzle_cases lines) as Hread. rewrite Hlines, Hd in Hread.
  rewrite decide_True in Hread by (by rewrite length_rows).
  destruct Hread as (g & Hg & Hwf & Hcells). exists g. split; [done|]. split; [done|].
  intros r c Hr Hc. by rewrite (Hcells r c Hr Hc), lookup_rows.
Qed.


Lemma completes_agree puzzle (a a' : var → Z) :
  wf_puzzle puzzle → completes puzzle a →
  (∀ r c, r < 9 → c < 9 → a' (r, c) = a (r, c)) → completes puzzle a'.
Proof.
  intros Hwf (Hrange & Hgiven & Hnd) Hag. split_and!.
  - intros r c Hr Hc. rewrite Hag by done. by apply Hrange.
  - intros [r c] x Hx Hnz.
    assert (r < 9 ∧ c < 9) as [Hr Hc].
    { apply (wf_puzzle_dom puzzle r c Hwf). apply cell_in_dom. eauto. }
    rewrite Hag by done. by apply Hgiven.
  - intros i Hi. destruct (Hnd i Hi) as (H1 & H2 & H3).
    assert (∀ l : list var, (∀ r c, (r, c) ∈ l → r < 9 ∧ c < 9) → a' <$> l = a <$> l) as Heq.
    { intros l Hl. apply list_fmap_ext. intros k [r c] Hk.
      destruct (Hl r c) as [Hr Hc]; [apply list_elem_of_lookup; eauto|]. by apply Hag. }
    rewrite !Heq; [done| | |].
    + intros r c [Hr Hc]%elem_of_box_to_indices.
      pose proof (Nat.div_mod_eq r 3). pose proof (Nat.mod_upper_bound r 3).
      pose proof (Nat.div_mod_eq c 3). pose proof (Nat.mod_upper_bound c 3).
      pose proof (Nat.div_mod_eq i 3). pose proof (Nat.mod_upper_bound i 3). lia.
    + intros r c [-> Hr]%elem_of_col_to_indices. lia.
    + intros r c [-> Hc]%elem_of_row_to_indices. lia.
Qed.

Lemma read_puzzle_wf lines puzzle : read_puzzle lines = Ret puzzle → wf_puzzle puzzle.
Proof.
  intros Hr. pose proof (read_puzzle_cases lines) as Hc. case_decide; [|congruence].
  destruct Hc as (p & Hp & Hwf & _). congruence.
Qed.

(** X20.  [main], end to end.  When the digits of the input make a puzzle
    that has a completion, [main] appends a text to the output file, and
    that text, read as a grid, is a completion of the puzzle: a digit 1..9 in
    each cell, the given digits kept, no digit twice in a row, a column or a
    box.  The tenth row and column of the answer of [Sudoku.solve] are not
    written. *)
Theorem main_prints_a_completion (lines : list string) (puzzle : list (list Z))
    (file : string) :
  read_puzzle lines = Ret puzzle → solvable puzzle →
  ∃ n, ∀ fuel, n ≤ fuel →
    ∃ text, main fuel lines file = Ret (file +:+ text)
      ∧ ∀ lines', chars_of lines' = String.list_ascii_of_string text →
          ∃ g, read_puzzle lines' = Ret g
            ∧ completes puzzle (λ p, default 0%Z (grid_at g p)).
Proof.
  intros Hread Hsolv. pose proof (read_puzzle_wf _ _ Hread) as Hwf.
  destruct (init_total puzzle Hwf) as [s Hs].
  destruct (search_decides puzzle s Hwf Hs) as [n Hn].
  exists n. intros fuel Hle.
  destruct (Hn fuel Hle) as [(_ & Hno & _)|(sol0 & ans & _ & _ & Hans)]; [done|].
  destruct (run_cells puzzle fuel ans Hwf Hans) as (s' & sol & Hs' & Hsol & _ & _ & Hin & _).
  assert (s' = s) as -> by congruence.
  set (a := λ p : var, default 0%Z (default None (sol !! p))).
  pose proof (solution_completion puzzle s sol Hwf Hs Hsol) as Hcomp. fold a in Hcomp.
  destruct (write_then_read ans (λ r c, a (r, c)) file) as (text & Hw & Hback).
  { intros r c Hr Hc. destruct (Hin r c Hr Hc) as (x & Hx & Hg & Hd).
    unfold a. rewrite Hx. simpl. split; [done|].
    destruct (init_domain_values puzzle r c x Hwf Hd). lia. }
  exists text. split.
  - unfold main. by rewrite Hread, ret_bind, Hans, ret_bind.
  - intros lines' Hl. destruct (Hback lines' Hl) as (g & Hg & _ & Hcells).
    exists g. split; [done|]. apply (completes_agree puzzle a); [done..|].
    intros r c Hr Hc. by rewrite (Hcells r c Hr Hc).
Qed.


End writing.

Section checks.
Context `{!HashOrder}.

(** A grid that passes the check is a completion. *)
Lemma completes_check_sound puzzle g :
  completes_check puzzle g → completes puzzle (λ p, default 0%Z (grid_at g p)).
Proof.
  intros (Hwf & Hcells & Hnd). rewrite Forall_forall in Hcells. split_and!.
  - intros r c Hr Hc. specialize (Hcells r). rewrite Forall_forall in Hcells.
    apply Hcells; apply elem_of_seq; lia.
  - intros [r c] x Hx Hnz.
    assert (r < 9 ∧ c < 9) as [Hr Hc].
    { apply (wf_puzzle_dom puzzle r c Hwf). apply cell_in_dom. eauto. }
    specialize (Hcells r). rewrite Forall_forall in Hcells.
    destruct (Hcells ltac:(apply elem_of_seq; lia) c ltac:(apply elem_of_seq; lia)) as [_ Hg].
    rewrite Hx in Hg. by apply Hg.
  - intros i Hi. rewrite Forall_forall in Hnd. apply Hnd, elem_of_seq. lia.
Qed.

(** When every cell is given, a completion is the grid itself. *)
Lemma full_grid_unique puzzle (a a' : var → Z) :
  Forall (Forall (λ x, x ≠ 0%Z)) puzzle → wf_puzzle puzzle →
  completes puzzle a → completes puzzle a' →
  ∀ r c, r < 9 → c < 9 → a' (r, c) = a (r, c).
Proof.
  intros Hfull Hwf (_ & Ha & _) (_ & Ha' & _) r c Hr Hc.
  destruct (wf_puzzle_lookup puzzle r c Hwf Hr Hc) as (row & x & Hrow & Hx & _).
  assert (x ≠ 0%Z) as Hnz.
  { rewrite Forall_forall in Hfull. specialize (Hfull row).
    rewrite Forall_forall in Hfull. apply Hfull; apply list_elem_of_lookup; eauto. }
  assert (grid_at puzzle (r, c) = Some x) as Hg.
  { unfold grid_at. cbn [fst snd]. by rewrite Hrow. }
  by rewrite (Ha _ _ Hg Hnz), (Ha' _ _ Hg Hnz).
Qed.

End checks.

(** ** The claims on concrete inputs *)

#[local] Existing Instance elements_order.

(** C1, at the solved grid: the grid returned holds 10 rows of 10 cells, with
    zeros in the last row and column. *)
Lemma solve_returns_10_by_10_witness :
  wf_puzzle solved_puzzle
  ∧ Sudoku.run 3000 solved_puzzle = Ret solved_answer
  ∧ square 10 solved_answer
  ∧ (∀ r c, r < 9 → c < 9 →
       ∃ x, grid_at solved_answer (r, c) = Some (Some x) ∧ (1 ≤ x ≤ 9)%Z)
  ∧ (∀ i, i < 10 → grid_at solved_answer (9, i) = Some (Some 0%Z)
                   ∧ grid_at solved_answer (i, 9) = Some (Some 0%Z)).
Proof.
  assert (wf_puzzle solved_puzzle) as Hwf by (eapply bool_decide_unpack; by vm_compute).
  assert (Sudoku.run 3000 solved_puzzle = Ret solved_answer) as Hrun by (by vm_compute).
  split; [exact Hwf|]. split; [exact Hrun|].
  exact (solve_returns_10_by_10 solved_puzzle 3000 solved_answer Hwf Hrun).
Defined.

(** C2, at a puzzle that needs branching. *)
Lemma solved_grid_all_different_witness :
  wf_puzzle open_puzzle
  ∧ Sudoku.run 5000 open_puzzle = Ret open_answer
  ∧ 4 < 9
  ∧ cells_at open_answer (row_to_indices 4) ≡ₚ digits
  ∧ cells_at open_answer (col_to_indices 4) ≡ₚ digits
  ∧ cells_at open_answer (box_to_indices 4) ≡ₚ digits.
Proof.
  assert (wf_puzzle open_puzzle) as Hwf by (eapply bool_decide_unpack; by vm_compute).
  assert (Sudoku.run 5000 open_puzzle = Ret open_answer) as Hrun by (by vm_compute).
  assert (4 < 9) as Hi by lia.
  split; [exact Hwf|]. split; [exact Hrun|]. split; [exact Hi|].
  exact (solved_grid_all_different open_puzzle 5000 open_answer Hwf Hrun 4 Hi).
Defined.

(** C3, at a grid with two 1s in its first row. *)
Lemma solve_unsolvable_raises_witness :
  wf_puzzle clash_puzzle
  ∧ ¬ solvable clash_puzzle
  ∧ ∃ n, ∀ fuel, n ≤ fuel →
      (∃ s, Sudoku.init clash_puzzle = Ret s
            ∧ solve_recursive_ds fuel (Sudoku.csp s) None None = Ret AFalse)
      ∧ Sudoku.run fuel clash_puzzle = Raise AttributeError.
Proof.
  assert (wf_puzzle clash_puzzle) as Hwf by (eapply bool_decide_unpack; by vm_compute).
  assert (¬ solvable clash_puzzle) as Hno.
  { apply (clash_unsolvable clash_puzzle first_row (0, 0) (0, 1) 1%Z).
    - eapply bool_decide_unpack. by vm_compute.
    - eapply bool_decide_unpack. by vm_compute.
    - eapply bool_decide_unpack. by vm_compute.
    - discriminate.
    - reflexivity.
    - reflexivity.
    - discriminate. }
  split; [exact Hwf|]. split; [exact Hno|].
  exact (solve_unsolvable_raises clash_puzzle Hwf Hno).
Defined.

(** C4 (what the code does).  On every well-formed puzzle and under every
    iteration order, the variable chosen at the root is the first candidate
    that the generator yields, whatever the sizes of the domains after
    propagation.  At [open_puzzle] that candidate is [(6, 6)], whose domain
    holds three values, although five candidates, [(7, 7)] among them, have
    only two; [(3, 7)] is another candidate with three values. *)
Theorem branching_picks_first_not_smallest :
  (∀ (O : HashOrder) puzzle s fuel sel sizes,
     wf_puzzle puzzle → Sudoku.init puzzle = Ret s →
     @branching_step O fuel (Sudoku.csp s) = Ret (sel, sizes) →
     sel = fst <$> head sizes)
  ∧ ∃ s sizes,
      Sudoku.init open_puzzle = Ret s
      ∧ branching_step 5000 (Sudoku.csp s) = Ret (Some (6, 6), sizes)
      ∧ head sizes = Some ((6, 6), 3)
      ∧ ((7, 7), 2) ∈ sizes
      ∧ ((3, 7), 3) ∈ sizes.
Proof.
  split; [intros O; apply (@branching_step_first O)|].
  assert (wf_puzzle open_puzzle) as Hwf by (eapply bool_decide_unpack; by vm_compute).
  destruct (init_total open_puzzle Hwf) as [s Hs]. exists s.
  assert (Sudoku.csp s = from_Ret empty_csp (Sudoku.csp <$> Sudoku.init open_puzzle)) as ->.
  { by rewrite Hs. }
  eexists. split; [done|]. split; [vm_compute; reflexivity|].
  split; [reflexivity|]. split; eapply bool_decide_unpack; by vm_compute.
Qed.

(** C4, at [open_puzzle]: the variable chosen is the first candidate. *)
Lemma branching_picks_first_not_smallest_witness :
  wf_puzzle open_puzzle
  ∧ ∃ s sizes,
      Sudoku.init open_puzzle = Ret s
      ∧ branching_step 5000 (Sudoku.csp s) = Ret (Some (6, 6), sizes)
      ∧ Some ((6, 6) : var) = fst <$> head sizes.
Proof.
  assert (wf_puzzle open_puzzle) as Hwf by (eapply bool_decide_unpack; by vm_compute).
  split; [exact Hwf|].
  destruct (proj2 branching_picks_first_not_smallest) as (s & sizes & Hs & Hb & _).
  exists s, sizes. split; [exact Hs|]. split; [exact Hb|].
  exact (proj1 branching_picks_first_not_smallest elements_order open_puzzle s 5000
           (Some (6, 6)) sizes Hwf Hs Hb).
Defined.

(** C5, as stated, fails: with an empty seed set the propagator returns its
    input, which need not be a fixed point of the unseeded propagator. *)
Lemma propagation_not_idempotent_after_seed :
  ¬ (∀ (O : HashOrder) (csp : CSP) (D : gmap var domain) (to_do : option (pyset arc))
       (fuel : nat) (D1 D2 : gmap var domain),
       make_arc_consistent fuel csp (Some D) to_do = Ret D1 →
       make_arc_consistent fuel csp (Some D1) None = Ret D2 →
       D2 = D1).
Proof.
  intros Hidem.
  assert (make_arc_consistent 10 pair_csp (Some pair_domains) (Some ∅) = Ret pair_domains)
    as Hseed by (by vm_compute).
  assert (make_arc_consistent 10 pair_csp (Some pair_domains) None = Ret pair_pruned)
    as Hfull by (by vm_compute).
  pose proof (Hidem elements_order pair_csp pair_domains (Some ∅) 10
                pair_domains pair_pruned Hseed Hfull) as Heq.
  apply (f_equal (λ D : gmap var domain, D !! (0, 1))) in Heq.
  vm_compute in Heq. discriminate.
Qed.

(** C5 amended, at two variables under one constraint, seeded with the arc
    of the second variable only.  The arc left out is settled: the value 1
    of the first variable has the support 2.  The seeded run prunes the value
    1 of the second variable, and the run without seed returns that output
    unchanged. *)
Lemma propagation_fixed_point_when_rest_settled_witness :
  CSP_init pair_domains [pair_constraint] = Ret pair_csp
  ∧ (∀ c, c ∈ [pair_constraint] → NoDup (scope c))
  ∧ dom pair_domains = dom pair_domains
  ∧ (∀ a, a ∈ queue pair_csp (Some {[ ((0, 1), pair_constraint) ]}) → a ∈ csp_arcs pair_csp)
  ∧ (∀ a, a ∈ csp_arcs pair_csp → a ∉ queue pair_csp (Some {[ ((0, 1), pair_constraint) ]}) →
       settled pair_domains a)
  ∧ make_arc_consistent 10 pair_csp (Some pair_domains) (Some {[ ((0, 1), pair_constraint) ]})
    = Ret pair_pruned
  ∧ make_arc_consistent 10 pair_csp (Some pair_pruned) None = Ret pair_pruned
  ∧ ∃ n, ∀ fuel, n ≤ fuel →
      ∃ D1, make_arc_consistent fuel pair_csp (Some pair_domains)
              (Some {[ ((0, 1), pair_constraint) ]}) = Ret D1
            ∧ make_arc_consistent fuel pair_csp (Some D1) None = Ret D1
            ∧ ∀ seed : pyset arc, (∀ a, a ∈ seed → a ∈ csp_arcs pair_csp) →
                make_arc_consistent fuel pair_csp (Some D1) (Some seed) = Ret D1.
Proof.
  assert (CSP_init pair_domains [pair_constraint] = Ret pair_csp) as Hinit by (by vm_compute).
  assert (∀ c, c ∈ [pair_constraint] → NoDup (scope c)) as Hnd.
  { intros c ->%list_elem_of_singleton. eapply bool_decide_unpack. by vm_compute. }
  assert (csp_arcs pair_csp = [((0, 0), pair_constraint); ((0, 1), pair_constraint)]) as Harcs
    by (by vm_compute).
  assert (∀ a, a ∈ queue pair_csp (Some {[ ((0, 1), pair_constraint) ]}) →
               a ∈ csp_arcs pair_csp) as Hq.
  { intros a Ha. cbn [queue] in Ha. apply elem_of_singleton in Ha as ->.
    rewrite Harcs. apply elem_of_cons. right. apply elem_of_cons. by left. }
  assert (∀ a, a ∈ csp_arcs pair_csp →
               a ∉ queue pair_csp (Some {[ ((0, 1), pair_constraint) ]}) →
               settled pair_domains a) as Hout.
  { intros a Ha Hna. rewrite Harcs in Ha. cbn [queue] in Hna.
    apply elem_of_cons in Ha as [->|Ha].
    2:{ apply elem_of_cons in Ha as [->|Ha]; [|by apply elem_of_nil in Ha].
        exfalso. apply Hna. by apply elem_of_singleton. }
    split; cbn [fst snd].
    - exists {[ 1%Z ]}. by vm_compute.
    - intros x (d & Hd & Hx).
      assert (pair_domains !! (0, 0) = Some (DSet {[ 1%Z ]})) as H00 by (by vm_compute).
      change (pair_domains !! (0, 0) = Some d) in Hd.
      rewrite H00 in Hd. injection Hd as <-. cbn [dom_vals] in Hx.
      apply elem_of_singleton in Hx as ->.
      exists pair_assignment. split; [by vm_compute|]. split.
      + intros u Hu Hne. cbn [scope pair_constraint] in Hu.
        apply elem_of_cons in Hu as [->|Hu]; [done|].
        apply elem_of_cons in Hu as [->|Hu]; [|by apply elem_of_nil in Hu].
        exists 2%Z. split; [by vm_compute|]. exists (DSet {[ 1%Z; 2%Z ]}).
        split; [by vm_compute|]. cbn [dom_vals]. set_solver.
      + eapply bool_decide_unpack. by vm_compute. }
  split; [exact Hinit|]. split; [exact Hnd|]. split; [reflexivity|].
  split; [exact Hq|]. split; [exact Hout|].
  split; [by vm_compute|]. split; [by vm_compute|].
  exact (propagation_fixed_point_when_rest_settled pair_domains [pair_constraint] pair_csp
           pair_domains (Some {[ ((0, 1), pair_constraint) ]}) Hinit Hnd eq_refl Hq Hout).
Defined.

(** C6, at the second variable of the pair: of its values 1 and 2 only 2 has
    a support, and the new domain is the set that holds 2 alone. *)
Lemma revise_keeps_supported_values_witness :
  pair_domains !! (0, 1) = Some (DSet {[ 1%Z; 2%Z ]})
  ∧ (∀ u, u ∈ scope pair_constraint → is_Some (pair_domains !! u))
  ∧ NoDup (scope pair_constraint)
  ∧ revise pair_domains (0, 1) pair_constraint = Ret (DSet {[ 2%Z ]})
  ∧ ∃ new, revise pair_domains (0, 1) pair_constraint = Ret (DSet new)
      ∧ (∀ x, x ∈ new ↔
           x ∈ dom_vals (DSet {[ 1%Z; 2%Z ]})
           ∧ ∃ f : gmap var Z,
               f !! (0, 1) = Some x
               ∧ (∀ u, u ∈ scope pair_constraint → u ≠ (0, 1) →
                    ∃ y, f !! u = Some y ∧ in_dom pair_domains u y)
               ∧ holds pair_constraint f = Ret true)
      ∧ (∀ x, x ∈ new ↔
           x ∈ dom_vals (DSet {[ 1%Z; 2%Z ]})
           ∧ ∃ f : gmap var Z,
               f !! (0, 1) = Some x
               ∧ (∀ u, u ∈ scope pair_constraint → u ≠ (0, 1) →
                    ∃ y, f !! u = Some y ∧ in_dom pair_domains u y)
               ∧ ∀ p1 p2, p1 ∈ scope pair_constraint → p2 ∈ scope pair_constraint →
                   p1 ≠ p2 → f !! p1 ≠ f !! p2).
Proof.
  assert (pair_domains !! (0, 1) = Some (DSet {[ 1%Z; 2%Z ]})) as Hd by (by vm_compute).
  assert (∀ u, u ∈ scope pair_constraint → is_Some (pair_domains !! u)) as HD.
  { apply Forall_forall. eapply bool_decide_unpack. by vm_compute. }
  assert (NoDup (scope pair_constraint)) as Hnd by (eapply bool_decide_unpack; by vm_compute).
  split; [exact Hd|]. split; [exact HD|]. split; [exact Hnd|]. split; [by vm_compute|].
  exact (revise_keeps_supported_values pair_domains pair_constraint (0, 1)
           (DSet {[ 1%Z; 2%Z ]}) Hd HD Hnd).
Defined.

(** C8, at the pair: propagation removes the value 1 of the second variable
    and adds nothing. *)
Lemma domains_never_grow_witness :
  make_arc_consistent 10 pair_csp (Some pair_domains) None = Ret pair_pruned
  ∧ pair_pruned !! (0, 1) = Some (DSet {[ 2%Z ]})
  ∧ ∃ d, default (domains pair_csp) (Some pair_domains) !! (0, 1) = Some d
         ∧ dom_vals (DSet {[ 2%Z ]}) ⊆ dom_vals d.
Proof.
  assert (make_arc_consistent 10 pair_csp (Some pair_domains) None = Ret pair_pruned)
    as Hmac by (by vm_compute).
  assert (pair_pruned !! (0, 1) = Some (DSet {[ 2%Z ]})) as Hd by (by vm_compute).
  split; [exact Hmac|]. split; [exact Hd|].
  exact (proj1 domains_never_grow 10 pair_csp (Some pair_domains) None pair_pruned Hmac
           (0, 1) (DSet {[ 2%Z ]}) Hd).
Defined.

(** C9, at a domain of three values. *)
Lemma search_terminates_witness :
  2 ≤ size ({[ 1%Z; 2%Z; 3%Z ]} : gset Z)
  ∧ ∃ s1 s2, partition_domain (DSet {[ 1%Z; 2%Z; 3%Z ]}) = Ret (DSet s1, DSet s2)
      ∧ s1 ## s2 ∧ s1 ∪ s2 = {[ 1%Z; 2%Z; 3%Z ]}
      ∧ size s1 = size ({[ 1%Z; 2%Z; 3%Z ]} : gset Z) `div` 2
      ∧ size s2 = size ({[ 1%Z; 2%Z; 3%Z ]} : gset Z)
                  - size ({[ 1%Z; 2%Z; 3%Z ]} : gset Z) `div` 2
      ∧ 0 < size s1 < size ({[ 1%Z; 2%Z; 3%Z ]} : gset Z)
      ∧ 0 < size s2 < size ({[ 1%Z; 2%Z; 3%Z ]} : gset Z).
Proof.
  assert (2 ≤ size ({[ 1%Z; 2%Z; 3%Z ]} : gset Z)) as Hs by (vm_compute; lia).
  split; [exact Hs|].
  exact (proj1 search_terminates {[ 1%Z; 2%Z; 3%Z ]} Hs).
Defined.

(** C10, at a CSP whose only variable keeps two values. *)
Lemma select_most_constrained_var_singleton_raises_witness :
  make_arc_consistent 10 single_csp (Some (default (domains single_csp) None)) None
    = Ret single_propagated
  ∧ variables single_csp = dom (default (domains single_csp) None)
  ∧ is_Some (domains single_csp !! (0, 0))
  ∧ single_propagated !! (0, 0) = Some (DSet {[ 1%Z; 2%Z ]})
  ∧ 1 < dom_len (DSet {[ 1%Z; 2%Z ]})
  ∧ (∀ v d, single_propagated !! v = Some d → v ≠ (0, 0) → dom_len d = 1)
  ∧ solve_recursive_ds 11 single_csp None None = Raise ValueError.
Proof.
  assert (make_arc_consistent 10 single_csp (Some (default (domains single_csp) None)) None
          = Ret single_propagated) as Hmac by (by vm_compute).
  assert (variables single_csp = dom (default (domains single_csp) None)) as Hv
    by (by vm_compute).
  assert (is_Some (domains single_csp !! (0, 0))) as Hs by (vm_compute; eauto).
  assert (single_propagated !! (0, 0) = Some (DSet {[ 1%Z; 2%Z ]})) as Hx by (by vm_compute).
  assert (1 < dom_len (DSet {[ 1%Z; 2%Z ]})) as Hl by (vm_compute; lia).
  assert (∀ v d, single_propagated !! v = Some d → v ≠ (0, 0) → dom_len d = 1) as Ho.
  { intros v d Hd Hne. unfold single_propagated in Hd.
    by rewrite lookup_singleton_ne in Hd. }
  repeat (split; [assumption|]).
  exact (proj2 select_most_constrained_var_singleton_raises 10 single_csp None None
           single_propagated (0, 0) (DSet {[ 1%Z; 2%Z ]}) Hmac Hv Hs Hx Hl Ho).
Defined.

(** C7, at the solved grid: every cell is kept, yet the grid returned is not
    the input grid. *)
Lemma solve_keeps_givens_in_larger_grid_witness :
  wf_puzzle solved_puzzle
  ∧ Sudoku.run 3000 solved_puzzle = Ret solved_answer
  ∧ (∀ r c x, grid_at solved_puzzle (r, c) = Some x → x ≠ 0%Z →
       grid_at solved_answer (r, c) = Some (Some x))
  ∧ solved_answer ≠ as_cells solved_puzzle.
Proof.
  assert (wf_puzzle solved_puzzle) as Hwf by (eapply bool_decide_unpack; by vm_compute).
  assert (Sudoku.run 3000 solved_puzzle = Ret solved_answer) as Hrun by (by vm_compute).
  split; [exact Hwf|]. split; [exact Hrun|].
  exact (solve_keeps_givens_in_larger_grid solved_puzzle 3000 solved_answer Hwf Hrun).
Defined.

(** ** Further properties on concrete inputs *)

Lemma pair_csp_built : CSP_init pair_domains [pair_constraint] = Ret pair_csp.
Proof. by vm_compute. Qed.

Lemma pair_scopes : ∀ c, c ∈ [pair_constraint] → NoDup (scope c).
Proof. intros c ->%list_elem_of_singleton. eapply bool_decide_unpack. by vm_compute. Qed.

Lemma pair_queue : ∀ arc, arc ∈ queue pair_csp None → arc ∈ csp_arcs pair_csp.
Proof. intros a Ha. by apply elem_of_list_to_set in Ha. Qed.

Lemma pair_solution_ok : is_solution pair_csp pair_domains pair_solution.
Proof.
  split_and!.
  - eapply bool_decide_unpack. by vm_compute.
  - intros v Hv. unfold pair_domains in Hv. rewrite dom_insert_L, dom_singleton_L in Hv.
    apply elem_of_union in Hv as [->%elem_of_singleton| ->%elem_of_singleton].
    + exists 1%Z. split; [by vm_compute|]. exists (DSet {[ 1%Z ]}). split; [by vm_compute|].
      cbn [dom_vals]. set_solver.
    + exists 2%Z. split; [by vm_compute|]. exists (DSet {[ 1%Z; 2%Z ]}).
      split; [by vm_compute|]. cbn [dom_vals]. set_solver.
  - intros c p1 p2 Hc H1 H2 Hne.
    assert (constraints pair_csp = [pair_constraint]) as Hcons by (by vm_compute).
    rewrite Hcons in Hc. apply list_elem_of_singleton in Hc as ->.
    cbn [scope pair_constraint] in H1, H2.
    repeat (apply elem_of_cons in H1 as [->|H1]);
      repeat (apply elem_of_cons in H2 as [->|H2]);
      try (by apply elem_of_nil in H1); try (by apply elem_of_nil in H2);
      try done; by vm_compute.
Qed.

(** X1, at the pair: the solution is kept by the propagation that prunes the
    value 1 of the second variable. *)
Lemma propagation_keeps_solutions_witness :
  CSP_init pair_domains [pair_constraint] = Ret pair_csp
  ∧ (∀ c, c ∈ [pair_constraint] → NoDup (scope c))
  ∧ dom pair_domains = dom pair_domains
  ∧ (∀ arc, arc ∈ queue pair_csp None → arc ∈ csp_arcs pair_csp)
  ∧ make_arc_consistent 10 pair_csp (Some pair_domains) None = Ret pair_pruned
  ∧ is_solution pair_csp pair_domains pair_solution
  ∧ is_solution pair_csp pair_pruned pair_solution.
Proof.
  assert (make_arc_consistent 10 pair_csp (Some pair_domains) None = Ret pair_pruned)
    as Hmac by (by vm_compute).
  split; [exact pair_csp_built|]. split; [exact pair_scopes|]. split; [reflexivity|].
  split; [exact pair_queue|]. split; [exact Hmac|]. split; [exact pair_solution_ok|].
  exact (propagation_keeps_solutions pair_domains [pair_constraint] pair_csp pair_domains
           pair_pruned None 10 pair_solution pair_csp_built pair_scopes eq_refl pair_queue
           Hmac pair_solution_ok).
Defined.

(** X2, at the pair. *)
Lemma propagation_reaches_arc_consistency_witness :
  CSP_init pair_domains [pair_constraint] = Ret pair_csp
  ∧ (∀ c, c ∈ [pair_constraint] → NoDup (scope c))
  ∧ dom pair_domains = dom pair_domains
  ∧ ∃ n, ∀ fuel, n ≤ fuel →
      ∃ D', make_arc_consistent fuel pair_csp (Some pair_domains) None = Ret D'
        ∧ ∀ c v, c ∈ [pair_constraint] → v ∈ scope c →
            (∃ s, D' !! v = Some (DSet s))
            ∧ ∀ x, in_dom D' v x → supported D' c v x.
Proof.
  split; [exact pair_csp_built|]. split; [exact pair_scopes|]. split; [reflexivity|].
  exact (propagation_reaches_arc_consistency pair_domains [pair_constraint] pair_csp
           pair_domains pair_csp_built pair_scopes eq_refl).
Defined.

(** X3, at the pair, under [elements_order] and under its reverse. *)
Lemma propagation_order_independent_witness :
  CSP_init pair_domains [pair_constraint] = Ret pair_csp
  ∧ (∀ c, c ∈ [pair_constraint] → NoDup (scope c))
  ∧ dom pair_domains = dom pair_domains
  ∧ @make_arc_consistent elements_order 10 pair_csp (Some pair_domains) None = Ret pair_pruned
  ∧ @make_arc_consistent reverse_order 10 pair_csp (Some pair_domains) None = Ret pair_pruned
  ∧ pair_pruned = pair_pruned.
Proof.
  assert (@make_arc_consistent elements_order 10 pair_csp (Some pair_domains) None
          = Ret pair_pruned) as H1 by (by vm_compute).
  assert (@make_arc_consistent reverse_order 10 pair_csp (Some pair_domains) None
          = Ret pair_pruned) as H2 by (by vm_compute).
  split; [exact pair_csp_built|]. split; [exact pair_scopes|]. split; [reflexivity|].
  split; [exact H1|]. split; [exact H2|].
  exact (propagation_order_independent elements_order reverse_order pair_domains
           [pair_constraint] pair_csp pair_domains pair_pruned pair_pruned 10 10
           pair_csp_built pair_scopes eq_refl H1 H2).
Defined.

(** X4, at the pair: 100 rounds are enough. *)
Lemma propagation_work_bound_witness :
  mu (default (domains pair_csp) (Some pair_domains))
    * S (size (all_new pair_csp ∪ queue pair_csp None)) + size (queue pair_csp None) < 100
  ∧ make_arc_consistent 100 pair_csp (Some pair_domains) None ≠ Timeout.
Proof.
  assert (mu (default (domains pair_csp) (Some pair_domains))
            * S (size (all_new pair_csp ∪ queue pair_csp None))
          + size (queue pair_csp None) < 100) as Hlt by (vm_compute; lia).
  split; [exact Hlt|].
  exact (propagation_work_bound pair_csp (Some pair_domains) None 100 Hlt).
Defined.

(** X5, at the pair. *)
Lemma search_returns_solution_witness :
  CSP_init pair_domains [pair_constraint] = Ret pair_csp
  ∧ (∀ c, c ∈ [pair_constraint] → NoDup (scope c))
  ∧ solve_recursive_ds 20 pair_csp None None = Ret (ADict pair_solution)
  ∧ dom pair_solution = dom pair_domains
  ∧ (∀ v, v ∈ dom pair_domains → ∃ x, pair_solution !! v = Some (Some x) ∧ in_dom pair_domains v x)
  ∧ (∀ c p1 p2, c ∈ [pair_constraint] → p1 ∈ scope c → p2 ∈ scope c → p1 ≠ p2 →
       pair_solution !! p1 ≠ pair_solution !! p2).
Proof.
  assert (solve_recursive_ds 20 pair_csp None None = Ret (ADict pair_solution)) as Hrun
    by (by vm_compute).
  split; [exact pair_csp_built|]. split; [exact pair_scopes|]. split; [exact Hrun|].
  exact (search_returns_solution pair_domains [pair_constraint] pair_csp 20 pair_solution
           pair_csp_built pair_scopes Hrun).
Defined.

Lemma open_puzzle_wf : wf_puzzle open_puzzle.
Proof. eapply bool_decide_unpack. by vm_compute. Qed.

Lemma solved_puzzle_wf : wf_puzzle solved_puzzle.
Proof. eapply bool_decide_unpack. by vm_compute. Qed.

Lemma open_puzzle_completes :
  completes open_puzzle (λ p, default 0%Z (grid_at solved_puzzle p)).
Proof. apply completes_check_sound. eapply bool_decide_unpack. by vm_compute. Qed.

Lemma solved_puzzle_completes :
  completes solved_puzzle (λ p, default 0%Z (grid_at solved_puzzle p)).
Proof. apply completes_check_sound. eapply bool_decide_unpack. by vm_compute. Qed.

Lemma open_puzzle_solvable : solvable open_puzzle.
Proof. eexists. exact open_puzzle_completes. Qed.

(** X6, at [open_puzzle], which the solved grid completes. *)
Lemma solvable_puzzle_is_solved_witness :
  wf_puzzle open_puzzle ∧ solvable open_puzzle
  ∧ ∃ n, ∀ fuel, n ≤ fuel → ∃ g, Sudoku.run fuel open_puzzle = Ret g.
Proof.
  split; [exact open_puzzle_wf|]. split; [exact open_puzzle_solvable|].
  exact (solvable_puzzle_is_solved open_puzzle open_puzzle_wf open_puzzle_solvable).
Defined.

(** X7, at the solved grid: the search returns a dictionary and
    [Sudoku.solve] returns the grid. *)
Lemma solve_outcomes_witness :
  wf_puzzle solved_puzzle
  ∧ Sudoku.run 3000 solved_puzzle = Ret solved_answer
  ∧ ∃ s, Sudoku.init solved_puzzle = Ret s
      ∧ ∃ n, ∀ fuel, n ≤ fuel →
          (∃ sol g, solve_recursive_ds fuel (Sudoku.csp s) None None = Ret (ADict sol)
                    ∧ Sudoku.solve fuel s = Ret g
                    ∧ Sudoku.run fuel solved_puzzle = Ret g)
          ∨ (solve_recursive_ds fuel (Sudoku.csp s) None None = Ret AFalse
             ∧ Sudoku.solve fuel s = Raise AttributeError
             ∧ Sudoku.run fuel solved_puzzle = Raise AttributeError).
Proof.
  split; [exact solved_puzzle_wf|]. split; [vm_compute; reflexivity|].
  exact (solve_outcomes solved_puzzle solved_puzzle_wf).
Defined.

Lemma solved_puzzle_unique a' :
  completes solved_puzzle a' →
  ∀ r c, r < 9 → c < 9 → a' (r, c) = default 0%Z (grid_at solved_puzzle (r, c)).
Proof.
  intros Ha' r c Hr Hc.
  assert (Forall (Forall (λ x, x ≠ 0%Z)) solved_puzzle) as Hfull.
  { eapply bool_decide_unpack. by vm_compute. }
  exact (full_grid_unique solved_puzzle (λ p, default 0%Z (grid_at solved_puzzle p)) a'
           Hfull solved_puzzle_wf solved_puzzle_completes Ha' r c Hr Hc).
Qed.

(** X8, at the solved grid, whose only completion is itself. *)
Lemma unique_solution_found_witness :
  wf_puzzle solved_puzzle
  ∧ completes solved_puzzle (λ p, default 0%Z (grid_at solved_puzzle p))
  ∧ (∀ a', completes solved_puzzle a' →
       ∀ r c, r < 9 → c < 9 → a' (r, c) = default 0%Z (grid_at solved_puzzle (r, c)))
  ∧ ∃ n, ∀ fuel, n ≤ fuel →
      ∃ g, Sudoku.run fuel solved_puzzle = Ret g
        ∧ ∀ r c, r < 9 → c < 9 →
            grid_at g (r, c) = Some (Some (default 0%Z (grid_at solved_puzzle (r, c)))).
Proof.
  split; [exact solved_puzzle_wf|]. split; [exact solved_puzzle_completes|].
  split; [exact solved_puzzle_unique|].
  exact (unique_solution_found solved_puzzle (λ p, default 0%Z (grid_at solved_puzzle p))
           solved_puzzle_wf solved_puzzle_completes solved_puzzle_unique).
Defined.

Lemma forall_cells (P : nat → nat → Prop) :
  Forall (λ r, Forall (λ c, P r c) (seq 0 9)) (seq 0 9) →
  ∀ r c, r < 9 → c < 9 → P r c.
Proof.
  intros Hall r c Hr Hc. rewrite Forall_forall in Hall. specialize (Hall r).
  rewrite Forall_forall in Hall. apply Hall; apply elem_of_seq; lia.
Qed.

(** X9, at the solved grid and at a grid whose rows have eight cells. *)
Lemma init_needs_81_cells_witness :
  (∀ r c, r < 9 → c < 9 → is_Some (grid_at solved_puzzle (r, c)))
  ∧ (∃ s, Sudoku.init solved_puzzle = Ret s)
  ∧ 0 < 9 ∧ 8 < 9 ∧ grid_at short_puzzle (0, 8) = None
  ∧ Sudoku.init short_puzzle = Raise KeyError.
Proof.
  assert (∀ r c, r < 9 → c < 9 → is_Some (grid_at solved_puzzle (r, c))) as Hall.
  { apply forall_cells. eapply bool_decide_unpack. by vm_compute. }
  assert (0 < 9) as H0 by lia. assert (8 < 9) as H8 by lia.
  assert (grid_at short_puzzle (0, 8) = None) as Hnone by reflexivity.
  split; [exact Hall|]. split; [exact (proj1 (init_needs_81_cells solved_puzzle) Hall)|].
  split; [exact H0|]. split; [exact H8|]. split; [exact Hnone|].
  exact (proj2 (init_needs_81_cells short_puzzle) 0 8 H0 H8 Hnone).
Defined.

(** X11, at the cell [(4, 7)], which lies in box 5. *)
Lemma scopes_tile_the_grid_witness :
  4 < 9 ∧ 7 < 9 ∧ 5 < 9 ∧ ((4, 7) ∈ box_to_indices 5 ↔ 5 = box_of 4 7).
Proof.
  assert (4 < 9) as Hr by lia. assert (7 < 9) as Hc by lia. assert (5 < 9) as Hb by lia.
  split; [exact Hr|]. split; [exact Hc|]. split; [exact Hb|].
  exact (proj1 (proj2 (proj2 (proj2 scopes_tile_the_grid))) 4 7 5 Hr Hc Hb).
Defined.

(** X12, at the cell [(4, 7)] of the solved grid. *)
Lemma cell_has_three_constraints_witness :
  ∃ s, Sudoku.init solved_puzzle = Ret s ∧ 4 < 9 ∧ 7 < 9
    ∧ ∃ cs, var_to_const (Sudoku.csp s) !! (4, 7) = Some cs
        ∧ (∀ con, con ∈ cs ↔ con = row_constraint 4 ∨ con = col_constraint 7
                              ∨ con = box_constraint (box_of 4 7))
        ∧ size cs = 3.
Proof.
  destruct (init_total solved_puzzle solved_puzzle_wf) as [s Hs].
  assert (4 < 9) as Hr by lia. assert (7 < 9) as Hc by lia.
  exists s. split; [exact Hs|]. split; [exact Hr|]. split; [exact Hc|].
  exact (cell_has_three_constraints solved_puzzle s 4 7 Hs Hr Hc).
Defined.

(** X13, at the pair: the first variable, and a position that is no
    variable. *)
Lemma new_to_do_arcs_witness :
  CSP_init pair_domains [pair_constraint] = Ret pair_csp
  ∧ (0, 0) ∈ dom pair_domains
  ∧ (5, 5) ∉ dom pair_domains
  ∧ (∃ nt, new_to_do pair_csp (0, 0) None = Ret nt
       ∧ ∀ n c, (n, c) ∈ nt ↔ c ∈ [pair_constraint] ∧ (0, 0) ∈ scope c ∧ Some c ≠ None
                               ∧ n ∈ scope c ∧ n ≠ (0, 0))
  ∧ new_to_do pair_csp (5, 5) None = Raise KeyError.
Proof.
  assert ((0, 0) ∈ dom pair_domains) as Hin by (eapply bool_decide_unpack; by vm_compute).
  assert ((5, 5) ∉ dom pair_domains) as Hout by (eapply bool_decide_unpack; by vm_compute).
  split; [exact pair_csp_built|]. split; [exact Hin|]. split; [exact Hout|]. split.
  - exact (proj1 (new_to_do_arcs pair_domains [pair_constraint] pair_csp (0, 0) None
                    pair_csp_built) Hin).
  - exact (proj2 (new_to_do_arcs pair_domains [pair_constraint] pair_csp (5, 5) None
                    pair_csp_built) Hout).
Defined.

(** X14, at two positions: both assigned, twice the same position under an
    empty assignment, and two positions under an empty assignment. *)
Lemma is_all_unique_behaviour_witness :
  (∀ p, p ∈ [(0, 0); (0, 1)] → is_Some (pair_assignment !! p))
  ∧ (∃ b, is_all_unique pair_assignment [(0, 0); (0, 1)] = Ret b
       ∧ (b = true ↔ ∀ p1 p2, p1 ∈ [(0, 0); (0, 1)] → p2 ∈ [(0, 0); (0, 1)] → p1 ≠ p2 →
                        pair_assignment !! p1 ≠ pair_assignment !! p2))
  ∧ (∀ p1 p2 : var, p1 ∈ [(0, 0); (0, 0)] → p2 ∈ [(0, 0); (0, 0)] → p1 = p2)
  ∧ is_all_unique ∅ [(0, 0); (0, 0)] = Ret true
  ∧ (0, 1) ∈ [(0, 1)] ∧ ((0, 1) : var) ≠ (0, 0) ∧ (∅ : gmap var Z) !! (0, 0) = None
  ∧ is_all_unique ∅ [(0, 0); (0, 1)] = Raise KeyError.
Proof.
  assert (∀ p, p ∈ [(0, 0); (0, 1)] → is_Some (pair_assignment !! p)) as Hdef.
  { apply Forall_forall. eapply bool_decide_unpack. by vm_compute. }
  assert (∀ p1 p2 : var, p1 ∈ [(0, 0); (0, 0)] → p2 ∈ [(0, 0); (0, 0)] → p1 = p2) as Hone.
  { intros p1 p2 H1 H2.
    repeat (apply elem_of_cons in H1 as [->|H1]); [| |by apply elem_of_nil in H1];
      repeat (apply elem_of_cons in H2 as [->|H2]); try done; by apply elem_of_nil in H2. }
  assert ((0, 1) ∈ [(0, 1)]) as Hq by (apply list_elem_of_singleton; reflexivity).
  assert (((0, 1) : var) ≠ (0, 0)) as Hne by discriminate.
  assert ((∅ : gmap var Z) !! (0, 0) = None) as Hnone by reflexivity.
  split; [exact Hdef|].
  split; [exact (proj1 (is_all_unique_behaviour pair_assignment [(0, 0); (0, 1)]) Hdef)|].
  split; [exact Hone|].
  split; [exact (proj1 (proj2 (is_all_unique_behaviour ∅ [(0, 0); (0, 0)])) Hone)|].
  split; [exact Hq|]. split; [exact Hne|]. split; [exact Hnone|].
  exact (proj2 (proj2 (is_all_unique_behaviour ∅ [(0, 0); (0, 1)]))
           (0, 0) [(0, 1)] (0, 1) eq_refl Hq Hne Hnone).
Defined.

(** X15, at the pair: looking for a value of the first variable that goes
    with the value 2 of the second leaves the value 1 in [env]. *)
Lemma any_holds_leaves_the_support_witness :
  any_holds pair_domains pair_constraint {[ (0, 1) := 2%Z ]} [(0, 0)] []
    = Ret (true, pair_assignment)
  ∧ (∀ u, u ∉ [(0, 0)] → pair_assignment !! u = ({[ (0, 1) := 2%Z ]} : gmap var Z) !! u)
  ∧ (true = true →
     (∀ u, u ∈ [(0, 0)] → ∃ y, pair_assignment !! u = Some y ∧ in_dom pair_domains u y)
     ∧ holds pair_constraint pair_assignment = Ret true).
Proof.
  assert (any_holds pair_domains pair_constraint {[ (0, 1) := 2%Z ]} [(0, 0)] []
          = Ret (true, pair_assignment)) as Hrun by (by vm_compute).
  split; [exact Hrun|].
  exact (any_holds_leaves_the_support pair_domains pair_constraint [(0, 0)] []
           {[ (0, 1) := 2%Z ]} pair_assignment true Hrun).
Defined.

(** X16, at a set of one value. *)
Lemma partition_domain_small_witness :
  size ({[ 5%Z ]} : gset Z) ≤ 1
  ∧ ∃ s1 s2, partition_domain (DSet {[ 5%Z ]}) = Ret (DSet s1, DSet s2)
      ∧ s1 ## s2 ∧ s1 ∪ s2 = {[ 5%Z ]} ∧ s1 = ∅ ∧ s2 = {[ 5%Z ]}.
Proof.
  assert (size ({[ 5%Z ]} : gset Z) ≤ 1) as Hs by (vm_compute; lia).
  split; [exact Hs|].
  destruct (partition_domain_small {[ 5%Z ]}) as (s1 & s2 & Hp & Hd & Hu & Hsmall).
  exists s1, s2. split; [exact Hp|]. split; [exact Hd|]. split; [exact Hu|]. exact (Hsmall Hs).
Defined.

(** X17, at the input of [open_puzzle]. *)
Lemma read_puzzle_grid_witness :
  length (digits_of (chars_of open_lines)) ≤ 81
  ∧ ∃ puzzle, read_puzzle open_lines = Ret puzzle ∧ wf_puzzle puzzle
      ∧ ∀ r c, r < 9 → c < 9 →
          grid_at puzzle (r, c)
          = Some (default 0%Z (digits_of (chars_of open_lines) !! (9 * r + c))).
Proof.
  assert (length (digits_of (chars_of open_lines)) ≤ 81) as Hle by (vm_compute; lia).
  split; [exact Hle|]. exact (read_puzzle_grid open_lines Hle).
Defined.

(** X18, at an input of 82 digits. *)
Lemma read_puzzle_overflow_witness :
  81 < length (digits_of (chars_of long_lines))
  ∧ read_puzzle long_lines = Raise IndexError.
Proof.
  assert (81 < length (digits_of (chars_of long_lines))) as Hlt by (vm_compute; lia).
  split; [exact Hlt|]. exact (read_puzzle_overflow long_lines Hlt).
Defined.


(** X20, at the input of [open_puzzle]. *)
Lemma main_prints_a_completion_witness :
  read_puzzle open_lines = Ret open_puzzle ∧ solvable open_puzzle
  ∧ ∃ n, ∀ fuel, n ≤ fuel →
      ∃ text, main fuel open_lines "" = Ret ("" +:+ text)
        ∧ ∀ lines', chars_of lines' = String.list_ascii_of_string text →
            ∃ g, read_puzzle lines' = Ret g
              ∧ completes open_puzzle (λ p, default 0%Z (grid_at g p)).
Proof.
  assert (read_puzzle open_lines = Ret open_puzzle) as Hread by (by vm_compute).
  split; [exact Hread|]. split; [exact open_puzzle_solvable|].
  exact (main_prints_a_completion open_lines open_puzzle "" Hread open_puzzle_solvable).
Defined.


